(** * A shallow embedding of the sentence chunker (src/src/a_sentence_chunker.c)

    The C file is embedded function by function.  Conventions:

    - a [char] is its code as a [Z] in [0, 256); the text buffer is the list
      of the bytes it holds, [char_at] reads one of them, and the byte after
      the last one is the terminating NUL.  A read at any other index, in
      front of the buffer or behind the NUL, yields 0 in the model, whatever
      the memory of the C program holds there.  The C code reads there on a
      chunk that does not lie within the text, and in heuristic 1b of
      [find_split_point]: with [min_length] 0 and a chunk that starts at
      offset 0 the loop reaches [i = 1], [i - 2] wraps around, and
      [text[i - 2]] is the byte in front of the buffer.  For such a call
      [find_split_point] is the value of the C function only if that byte is
      not a space; no theorem depends on a value read outside the buffer;
    - a [size_t] is a [Z] in [0, 2^64); an addition or subtraction that no
      preceding loop guard bounds is written with its wrap-around ([szadd],
      [szsub]); an increment under a guard [j < len] is written [j + 1];
    - the output buffer [aml_buffer_t] is the list of the records appended so
      far, newest first; the array handed back to the caller is its reverse;
    - a [while] or [for] loop whose trip count is bounded by the distance of
      its counter to its limit is iterated by [count_up] / [scan_down] for
      exactly that distance; the two loops whose progress depends on the
      results of other functions (the scan of pass 1, the split loop of pass
      2) run on explicit fuel and return an error when it runs out. *)

From Stdlib Require Import ZArith List Bool Lia String Ascii Sorted.
Import ListNotations.
Open Scope Z_scope.

(* ------------------------------------------------------------------ *)
(** ** Machine integers and bytes *)

Definition SIZE_MOD : Z := 2 ^ 64.

Definition wrap (z : Z) : Z := z mod SIZE_MOD.
Definition szadd (a b : Z) : Z := wrap (a + b).
Definition szsub (a b : Z) : Z := wrap (a - b).

Definition in_size_t (z : Z) : Prop := 0 <= z < SIZE_MOD.

(** [(int)i] for a 32-bit two's complement [int]. *)
Definition to_int (z : Z) : Z := (z + 2 ^ 31) mod 2 ^ 32 - 2 ^ 31.

Definition ch (a : ascii) : Z := Z.of_N (N_of_ascii a).

Fixpoint bytes_of_string (s : string) : list Z :=
  match s with
  | EmptyString => []
  | String a s' => ch a :: bytes_of_string s'
  end.

(** [text[i]]. *)
Definition char_at (text : list Z) (i : Z) : Z :=
  if i <? 0 then 0 else nth (Z.to_nat i) text 0.

(** [strlen(text)]: the index of the first NUL. *)
Fixpoint strlen (text : list Z) : Z :=
  match text with
  | [] => 0
  | c :: rest => if c =? 0 then 0 else 1 + strlen rest
  end.

(** [text[from .. from+n)], as [memcpy] or a [for] loop reads it. *)
Definition slice (text : list Z) (from n : Z) : list Z :=
  map (fun k => char_at text (from + Z.of_nat k)) (seq 0 (Z.to_nat n)).

(** [while (cond(j)) j++], for at most [n] rounds. *)
Fixpoint count_up (n : nat) (cond : Z -> bool) (j : Z) : Z :=
  match n with
  | O => j
  | S n' => if cond j then count_up n' cond (j + 1) else j
  end.

(** [while (cond(j)) j--], for at most [n] rounds. *)
Fixpoint count_down (n : nat) (cond : Z -> bool) (j : Z) : Z :=
  match n with
  | O => j
  | S n' => if cond j then count_down n' cond (j - 1) else j
  end.

(** [for (i = from; ...; i--) if (hit(i)) return ...;] over [n] values of
    [i]: the first [i] at which the body returns, if any. *)
Fixpoint scan_down (n : nat) (hit : Z -> bool) (i : Z) : option Z :=
  match n with
  | O => None
  | S n' => if hit i then Some i else scan_down n' hit (i - 1)
  end.

(** [for (j = from; ...; j++) if (hit(j)) return j;] over [n] values. *)
Fixpoint scan_up (n : nat) (hit : Z -> bool) (j : Z) : option Z :=
  match n with
  | O => None
  | S n' => if hit j then Some j else scan_up n' hit (j + 1)
  end.

(* ------------------------------------------------------------------ *)
(** ** Character classes *)

Definition is_sentence_punct (c : Z) : bool :=
  (c =? ch ".") || (c =? ch "?") || (c =? ch "!").

Definition is_whitespace (c : Z) : bool :=
  (c =? ch " ") || (c =? 9) || (c =? 10) || (c =? 13).

Definition is_alpha (c : Z) : bool :=
  ((ch "a" <=? c) && (c <=? ch "z")) || ((ch "A" <=? c) && (c <=? ch "Z")).

(** <ctype.h> in the C locale. *)
Definition isdigit (c : Z) : bool := (ch "0" <=? c) && (c <=? ch "9").
Definition isupper (c : Z) : bool := (ch "A" <=? c) && (c <=? ch "Z").
Definition islower (c : Z) : bool := (ch "a" <=? c) && (c <=? ch "z").
Definition isspace (c : Z) : bool := (c =? ch " ") || ((9 <=? c) && (c <=? 13)).
Definition tolower (c : Z) : Z := if isupper c then c + 32 else c.

Definition ABBREVS : list string :=
  ["Mr"; "Mrs"; "Ms"; "Dr"; "St"; "etc"; "i.e"; "e.g"; "vs"; "Inc"; "Corp";
   "Ltd"; "Co"; "Jr"; "Sr"; "Ph.D"]%string.

Fixpoint bytes_eqb (a b : list Z) : bool :=
  match a, b with
  | [], [] => true
  | x :: a', y :: b' => (x =? y) && bytes_eqb a' b'
  | _, _ => false
  end.

(** [strcasecmp(a, b) == 0] on two NUL-free byte strings. *)
Definition strcasecmp_eq (a b : list Z) : bool :=
  bytes_eqb (map tolower a) (map tolower b).

(* ------------------------------------------------------------------ *)
(** ** Helpers of pass 1 *)

Definition skip_spaces (text : list Z) (start len : Z) : Z :=
  count_up (Z.to_nat (len - start))
    (fun j => (j <? len) && is_whitespace (char_at text j)) start.

Definition matches_abbreviation (text : list Z) (i : Z) : bool :=
  if i =? 0 then false
  else
    let start :=
      count_down (Z.to_nat (to_int i))
        (fun s => (0 <=? s) && negb (is_whitespace (char_at text s)))
        (to_int i - 1) in
    let abbrev_len := to_int i - (start + 1) in
    if abbrev_len <=? 0 then false
    else if is_alpha (char_at text (i + 1)) then true
    else if (abbrev_len =? 1) && isupper (char_at text (start + 1)) then true
    else if (abbrev_len =? 1) && negb (is_whitespace (char_at text (i + 1)))
    then true
    else if abbrev_len >=? 32 then false
    else
      let buf := slice text (start + 1) abbrev_len in
      existsb (fun a => strcasecmp_eq buf (bytes_of_string a)) ABBREVS.

Definition is_just_digits (text : list Z) (start i : Z) : bool :=
  if i <=? start then false
  else forallb isdigit (slice text start (i - start)).

Definition is_end_of_sentence_heuristic (text : list Z) (i len : Z) : bool :=
  let c := char_at text i in
  if (c =? ch ".") && (0 <? i) && (i <? szsub len 1)
     && isdigit (char_at text (i - 1)) && isdigit (char_at text (i + 1))
  then false
  else if (c =? ch ".") && matches_abbreviation text i then false
  else if c =? ch "." then
    let word_start :=
      count_down (Z.to_nat i)
        (fun w => (0 <? w)
                  && negb (is_whitespace (char_at text (w - 1)))
                  && negb (char_at text (w - 1) =? ch "."))
        i in
    if is_just_digits text word_start i then
      let j := skip_spaces text (i + 1) len in
      if j >=? len then false
      else if isdigit (char_at text j) || islower (char_at text j) then false
      else true
    else true
  else true.

Definition consume_multiple_punctuation (text : list Z) (start_i len : Z) : Z :=
  count_up (Z.to_nat (len - start_i))
    (fun i => (i + 1 <? len) && is_sentence_punct (char_at text (i + 1)))
    start_i.

Definition is_closer (c : Z) : bool :=
  (c =? 34) || (c =? 39) || (c =? ch ")") || (c =? ch "]") || (c =? ch "}")
  || is_sentence_punct c.

Definition consume_trailing_closers (text : list Z) (i len : Z) : Z :=
  count_up (Z.to_nat (len - i))
    (fun i => (i + 1 <? len) && is_closer (char_at text (i + 1))) i.

(* ------------------------------------------------------------------ *)
(** ** Pass 1: a_sentence_chunker *)

Record a_sentence_chunk_t : Type := mk_chunk {
  start_offset : Z;
  length : Z
}.

Definition aml_buffer_append (bh : list a_sentence_chunk_t)
  (sb : a_sentence_chunk_t) : list a_sentence_chunk_t := sb :: bh.

(** The array of the records of a buffer, in the order of their appends. *)
Definition aml_buffer_data (bh : list a_sentence_chunk_t)
  : list a_sentence_chunk_t := rev bh.

Inductive result (A : Type) : Type :=
| Ok (a : A)
| OutOfFuel
| InvalidLastAccess.
Arguments Ok {A} a.
Arguments OutOfFuel {A}.
Arguments InvalidLastAccess {A}.

(** The body of [while (i < len)] followed by the capture of the leftover
    (lines 230-282).  The inner loop that skips the spaces after a boundary
    (lines 256-258) is the loop of [skip_spaces]. *)
Fixpoint sentence_scan (fuel : nat) (text : list Z) (len start_off i : Z)
  (bh : list a_sentence_chunk_t) : result (list a_sentence_chunk_t) :=
  if i <? len then
    match fuel with
    | O => OutOfFuel
    | S fuel' =>
      let c := char_at text i in
      if is_sentence_punct c then
        let last_punct := consume_multiple_punctuation text i len in
        if is_end_of_sentence_heuristic text last_punct len then
          let last_punct := consume_trailing_closers text last_punct len in
          let boundary_len := szsub (last_punct + 1) start_off in
          let bh :=
            if 0 <? boundary_len
            then aml_buffer_append bh (mk_chunk start_off boundary_len)
            else bh in
          let i := last_punct + 1 in
          let start_off := skip_spaces text i len in
          sentence_scan fuel' text len start_off i bh
        else
          sentence_scan fuel' text len start_off (last_punct + 1) bh
      else
        sentence_scan fuel' text len start_off (i + 1) bh
    end
  else if start_off <? len then
    let boundary_len := szsub len start_off in
    if 0 <? boundary_len
    then Ok (aml_buffer_append bh (mk_chunk start_off boundary_len))
    else Ok bh
  else Ok bh.

(** [a_sentence_chunker]: the returned array with its count; [NULL] with a
    count of 0 is the empty list. *)
Definition a_sentence_chunker (text : list Z)
  : result (list a_sentence_chunk_t) :=
  if char_at text 0 =? 0 then Ok []
  else
    let len := strlen text in
    match sentence_scan (Z.to_nat len) text len 0 0 [] with
    | Ok bh => Ok (aml_buffer_data bh)
    | OutOfFuel => OutOfFuel
    | InvalidLastAccess => InvalidLastAccess
    end.

Definition chunk_text (text : list Z) (c : a_sentence_chunk_t) : list Z :=
  slice text (start_offset c) (length c).

(** Pass 1 on a string literal, each chunk rendered as its bytes. *)
Definition S_of (s : string) : option (list (list Z)) :=
  match a_sentence_chunker (bytes_of_string s) with
  | Ok cs => Some (map (chunk_text (bytes_of_string s)) cs)
  | _ => None
  end.

(* ------------------------------------------------------------------ *)
(** ** Pass 2: adjust_for_token_boundary, find_split_point *)

Definition adjust_for_token_boundary (text : list Z)
  (chunk_start chunk_end candidate : Z) : Z :=
  if (candidate <=? chunk_start) || (candidate >=? chunk_end) then candidate
  else
    match scan_down (Z.to_nat (candidate - chunk_start))
            (fun j => is_whitespace (char_at text j)) candidate with
    | Some j => j
    | None =>
      match scan_up (Z.to_nat (chunk_end - candidate))
              (fun j => is_whitespace (char_at text j)) candidate with
      | Some j => j
      | None => 0
      end
    end.

(** What every heuristic of [find_split_point] does with its candidate. *)
Definition adjusted_or_end (text : list Z) (start_offset end_offset i : Z) : Z :=
  let adjusted := adjust_for_token_boundary text start_offset end_offset i in
  if (adjusted >? start_offset) && (adjusted <? end_offset) then adjusted
  else end_offset.

Definition double_newline_at (text : list Z) (search_start end_offset i : Z)
  : bool :=
  (i - 1 >=? search_start) && (i <? end_offset)
  && (char_at text (i - 1) =? 10) && (char_at text i =? 10).

(** [i - 2] is a [size_t] subtraction that no guard bounds: at [i = 1]
    (reached when [search_start] is 0) it wraps and the guard
    [(i - 2) >= search_start] holds, so that [text[i - 2]] is read in front of
    the buffer, where the model has 0. *)
Definition triple_space_at (text : list Z) (search_start end_offset i : Z)
  : bool :=
  (szsub i 2 >=? search_start) && (i <? end_offset)
  && isspace (char_at text (szsub i 2)) && isspace (char_at text (i - 1))
  && isspace (char_at text i).

Definition sentence_seam_at (text : list Z) (end_offset i : Z) : bool :=
  (i <? end_offset)
  && (let prev := char_at text (i - 1) in
      let curr := char_at text i in
      ((prev =? ch ".") || (prev =? ch "!") || (prev =? ch "?"))
      && is_whitespace curr
      && (let j := skip_spaces text (i + 1) end_offset in
          (j <? end_offset) && isupper (char_at text j))).

Definition find_split_point (text : list Z)
  (start_offset length min_length max_length : Z) : Z :=
  let end_offset := szadd start_offset length in
  if length <=? max_length then end_offset
  else
    let search_start := szadd start_offset min_length in
    let valid_split_end := szsub end_offset min_length in
    let search_end := szadd start_offset max_length in
    if search_end >? valid_split_end then end_offset
    else if search_start >=? search_end then end_offset
    else
      let n := Z.to_nat (search_end - search_start) in
      let found := adjusted_or_end text start_offset end_offset in
      match scan_down n (double_newline_at text search_start end_offset)
              search_end with
      | Some i => found i
      | None =>
      match scan_down n (triple_space_at text search_start end_offset)
              search_end with
      | Some i => found i
      | None =>
      match scan_down n (fun i => char_at text i =? 10) search_end with
      | Some i => found i
      | None =>
      match scan_down n (sentence_seam_at text end_offset) search_end with
      | Some i => found i
      | None =>
      match scan_down n (fun i => isspace (char_at text i)) search_end with
      | Some i => found i
      | None => found search_end
      end end end end end.

(* ------------------------------------------------------------------ *)
(** ** Pass 2: a_rechunk_sentences *)

(** Case 3, [while (remaining.length > max_length)] and the append of the
    leftover (lines 534-563). *)
Fixpoint split_loop (fuel : nat) (text : list Z) (min_length max_length : Z)
  (remaining : a_sentence_chunk_t) (buf : list a_sentence_chunk_t)
  : result (list a_sentence_chunk_t) :=
  if length remaining >? max_length then
    match fuel with
    | O => OutOfFuel
    | S fuel' =>
      let split_pt :=
        find_split_point text (start_offset remaining) (length remaining)
          min_length max_length in
      if (split_pt <=? start_offset remaining)
         || (split_pt >=? szadd (start_offset remaining) (length remaining))
      then Ok (aml_buffer_append buf remaining)
      else
        let chunk :=
          mk_chunk (start_offset remaining)
                   (szsub split_pt (start_offset remaining)) in
        let remaining' :=
          mk_chunk split_pt
            (szsub (szadd (start_offset remaining) (length remaining))
                   split_pt) in
        split_loop fuel' text min_length max_length remaining'
          (aml_buffer_append buf chunk)
    end
  else Ok (aml_buffer_append buf remaining).

(** Case 2, the attempt to merge with the last appended record (lines
    497-508): [Ok (Some buf')] when [merged] is set, [Ok None] when it is
    not, and [InvalidLastAccess] when [aml_buffer_end(second_buffer) - 1]
    points before the first record. *)
Definition backward_merge (i : Z) (buf : list a_sentence_chunk_t)
  (current : a_sentence_chunk_t) (max_length : Z)
  : result (option (list a_sentence_chunk_t)) :=
  if 0 <? i then
    match buf with
    | [] => InvalidLastAccess
    | last :: before =>
      let combined_len :=
        szsub (szadd (start_offset current) (length current))
              (start_offset last) in
      if combined_len <=? max_length
      then Ok (Some (mk_chunk (start_offset last) combined_len :: before))
      else Ok None
    end
  else Ok None.

(** The [for] loop over [first_pass_chunks[i .. first_pass_count)]. *)
Fixpoint rechunk_loop (text : list Z) (min_length max_length : Z) (i : Z)
  (first_pass_chunks : list a_sentence_chunk_t)
  (buf : list a_sentence_chunk_t) {struct first_pass_chunks}
  : result (list a_sentence_chunk_t) :=
  match first_pass_chunks with
  | [] => Ok buf
  | current :: rest =>
    let chunk_length := length current in
    if (chunk_length >=? min_length) && (chunk_length <=? max_length) then
      rechunk_loop text min_length max_length (i + 1) rest
        (aml_buffer_append buf current)
    else if chunk_length <? min_length then
      match backward_merge i buf current max_length with
      | Ok (Some buf') =>
        rechunk_loop text min_length max_length (i + 1) rest buf'
      | Ok None =>
        match rest with
        | next :: rest' =>
          let combined_len :=
            szsub (szadd (start_offset next) (length next))
                  (start_offset current) in
          if combined_len <=? max_length then
            rechunk_loop text min_length max_length (i + 1 + 1) rest'
              (aml_buffer_append buf
                 (mk_chunk (start_offset current) combined_len))
          else
            rechunk_loop text min_length max_length (i + 1) rest
              (aml_buffer_append buf current)
        | [] =>
          rechunk_loop text min_length max_length (i + 1) rest
            (aml_buffer_append buf current)
        end
      | OutOfFuel => OutOfFuel
      | InvalidLastAccess => InvalidLastAccess
      end
    else
      match split_loop (Z.to_nat (length current)) text min_length max_length
              current buf with
      | Ok buf' => rechunk_loop text min_length max_length (i + 1) rest buf'
      | OutOfFuel => OutOfFuel
      | InvalidLastAccess => InvalidLastAccess
      end
  end.

Definition a_rechunk_sentences (text : list Z)
  (first_pass_chunks : list a_sentence_chunk_t) (min_length max_length : Z)
  : result (list a_sentence_chunk_t) :=
  match rechunk_loop text min_length max_length 0 first_pass_chunks [] with
  | Ok buf => Ok (aml_buffer_data buf)
  | OutOfFuel => OutOfFuel
  | InvalidLastAccess => InvalidLastAccess
  end.

(* ------------------------------------------------------------------ *)
(** ** Properties of chunk sequences *)

Definition chunk_end (c : a_sentence_chunk_t) : Z := start_offset c + length c.

(** A chunk of a text of length [L]. *)
Definition chunk_in (L : Z) (c : a_sentence_chunk_t) : Prop :=
  0 <= start_offset c /\ 0 < length c /\ chunk_end c <= L.

(** [a] starts strictly before [b] and ends before [b] starts. *)
Definition precedes (a b : a_sentence_chunk_t) : Prop :=
  start_offset a < start_offset b /\ chunk_end a <= start_offset b.

(** The invariants of an emitted sequence (spec section 3). *)
Definition well_formed (L : Z) (cs : list a_sentence_chunk_t) : Prop :=
  Forall (chunk_in L) cs /\ StronglySorted precedes cs.

(** The same for a buffer, whose newest record comes first. *)
Definition buffer_ok (L : Z) (bh : list a_sentence_chunk_t) : Prop :=
  Forall (chunk_in L) bh /\ StronglySorted (fun a b => precedes b a) bh.

Definition covers (k : Z) (c : a_sentence_chunk_t) : bool :=
  (start_offset c <=? k) && (k <? chunk_end c).

(** How many chunks of [cs] cover the byte index [k]. *)
Definition cover_count (k : Z) (cs : list a_sentence_chunk_t) : nat :=
  List.length (filter (covers k) cs).

(** [k] lies in the gap between two consecutive chunks [a] and [b] of [cs0],
    one of them shorter than [mn], and [c] is a chunk of at most [mx] bytes
    that starts before the end of [a] and reaches the end of [b]: what a
    merge of pass 2 produces when it joins [a] and [b] (or a chunk that
    ends with [a], and [b]). *)
Definition bridged (cs0 : list a_sentence_chunk_t) (mn mx : Z)
  (c : a_sentence_chunk_t) (k : Z) : Prop :=
  exists l1 a b l2,
    cs0 = l1 ++ a :: b :: l2
    /\ chunk_end a <= k < start_offset b
    /\ (length a < mn \/ length b < mn)
    /\ length c <= mx
    /\ start_offset c < chunk_end a
    /\ chunk_end b <= chunk_end c.

(** The chunks a scan appends, newest first, when it is entered with the
    candidate start [so]. *)
Definition appended_by_scan (text : list Z) (len so : Z)
  (new : list a_sentence_chunk_t) : Prop :=
  Forall (fun c => so <= start_offset c /\ 0 < length c /\ chunk_end c <= len)
    new
  /\ StronglySorted (fun a b => precedes b a) new
  /\ Forall (fun c => start_offset c = so
                      \/ is_whitespace (char_at text (start_offset c)) = false)
       new.

(** The end of a chunk as the C code computes it. *)
Definition wrapped_end (c : a_sentence_chunk_t) : Z :=
  szadd (start_offset c) (length c).

(** [j] is the start or the end of a chunk of the input sequence [cs0]. *)
Definition input_boundary (cs0 : list a_sentence_chunk_t) (j : Z) : Prop :=
  exists c0, In c0 cs0 /\ (j = start_offset c0 \/ j = wrapped_end c0).

Definition boundary_ok (text : list Z) (cs0 : list a_sentence_chunk_t)
  (j : Z) : Prop :=
  input_boundary cs0 j \/ is_whitespace (char_at text j) = true.

Definition chunk_boundaries_ok (text : list Z)
  (cs0 : list a_sentence_chunk_t) (c : a_sentence_chunk_t) : Prop :=
  boundary_ok text cs0 (start_offset c)
  /\ boundary_ok text cs0 (wrapped_end c).

(** The invariant of the loop of pass 2 for the boundaries: [cs] is what is
    left of the input [cs0], [buf] the output buffer. *)
Definition boundaries_inv (text : list Z) (cs0 : list a_sentence_chunk_t)
  (cs buf : list a_sentence_chunk_t) : Prop :=
  Forall (fun c => 0 <= start_offset c /\ 0 <= length c) cs
  /\ incl cs cs0
  /\ Forall (chunk_boundaries_ok text cs0) buf.

(** The same for the split loop, [r] being [remaining]. *)
Definition boundaries_split_inv (text : list Z)
  (cs0 : list a_sentence_chunk_t) (rest : list a_sentence_chunk_t)
  (r : a_sentence_chunk_t) (buf : list a_sentence_chunk_t) : Prop :=
  boundaries_inv text cs0 rest buf
  /\ 0 <= start_offset r /\ 0 <= length r
  /\ chunk_boundaries_ok text cs0 r.

(** Some chunk of [cs] covers the byte index [k]. *)
Definition covered (k : Z) (cs : list a_sentence_chunk_t) : Prop :=
  exists c, In c cs /\ covers k c = true.

(** [c] lies inside the span from the start of one chunk of [cs0] to the end
    of another. *)
Definition spanned (cs0 : list a_sentence_chunk_t) (c : a_sentence_chunk_t)
  : Prop :=
  exists a b, In a cs0 /\ In b cs0
              /\ start_offset a <= start_offset c
              /\ chunk_end c <= chunk_end b.

(** The invariant of the loop of pass 2 over a well-formed input: [cs] is
    what is left of the input [cs0], [buf] the output buffer. *)
Definition rechunk_inv (L : Z) (cs0 : list a_sentence_chunk_t)
  (cs buf : list a_sentence_chunk_t) : Prop :=
  well_formed L cs /\ buffer_ok L buf /\ incl cs cs0
  /\ (exists f, (forall b, In b buf -> chunk_end b <= f)
                /\ (forall c, In c cs -> f <= start_offset c))
  /\ (forall k, covered k cs0 -> covered k buf \/ covered k cs)
  /\ Forall (spanned cs0) buf.

(** The invariant of the split loop: [r] is [remaining]. *)
Definition rechunk_split_inv (L : Z) (cs0 : list a_sentence_chunk_t)
  (rest : list a_sentence_chunk_t) (r : a_sentence_chunk_t)
  (buf : list a_sentence_chunk_t) : Prop :=
  well_formed L rest /\ buffer_ok L buf /\ incl rest cs0 /\ chunk_in L r
  /\ (forall b, In b buf -> chunk_end b <= start_offset r)
  /\ (forall c, In c rest -> chunk_end r <= start_offset c)
  /\ (forall k, covered k cs0 ->
                covered k buf \/ covers k r = true \/ covered k rest)
  /\ Forall (spanned cs0) buf /\ spanned cs0 r.

(** Every index that the output chunk [c] covers is covered by the input
    [cs0] or lies in a gap that [c] bridges. *)
Definition explained (cs0 : list a_sentence_chunk_t) (mn mx : Z)
  (c : a_sentence_chunk_t) : Prop :=
  forall k, covers k c = true -> covered k cs0 \/ bridged cs0 mn mx c k.

(** [rdone] is the part of the input that the loop has consumed, newest
    first: the newest record of the buffer ends where the chunk consumed
    last ends. *)
Definition handed_over (rdone buf : list a_sentence_chunk_t) : Prop :=
  match rdone, buf with
  | [], [] => True
  | p :: _, last :: _ => chunk_end last = chunk_end p
  | _, _ => False
  end.

(** The invariant of the loop of pass 2 that accounts for every covered
    index. *)
Definition coverage_inv (L : Z) (cs0 : list a_sentence_chunk_t) (mn mx : Z)
  (cs buf : list a_sentence_chunk_t) : Prop :=
  rechunk_inv L cs0 cs buf
  /\ (exists rdone, cs0 = rev rdone ++ cs /\ handed_over rdone buf)
  /\ Forall (explained cs0 mn mx) buf.

(** The same for the split loop: [r] is the rest of the input chunk [cur]. *)
Definition coverage_split_inv (L : Z) (cs0 : list a_sentence_chunk_t)
  (mn mx : Z) (rest : list a_sentence_chunk_t) (r : a_sentence_chunk_t)
  (buf : list a_sentence_chunk_t) : Prop :=
  rechunk_split_inv L cs0 rest r buf
  /\ (exists rdone cur,
         cs0 = rev rdone ++ cur :: rest
         /\ chunk_end r = chunk_end cur
         /\ start_offset cur <= start_offset r)
  /\ Forall (explained cs0 mn mx) buf.

(* ------------------------------------------------------------------ *)
(** ** The bytes the end-of-sentence heuristic reads *)

(** The indices read by [while (cond(j)) j += step], [reads j] being the
    indices one evaluation of [cond(j)] reads. *)
Fixpoint loop_reads (n : nat) (cond : Z -> bool) (reads : Z -> list Z)
  (step j : Z) : list Z :=
  reads j
  ++ match n with
     | O => []
     | S n' => if cond j then loop_reads n' cond reads step (j + step) else []
     end.

(** The indices read by the loop of [is_just_digits], which returns at the
    first byte that is not a digit. *)
Fixpoint digits_reads (n : nat) (text : list Z) (pos : Z) : list Z :=
  match n with
  | O => []
  | S n' =>
    pos :: (if isdigit (char_at text pos)
            then digits_reads n' text (pos + 1) else [])
  end.

(** The indices of [text] that [matches_abbreviation(text, i)] reads, in the
    order of the C code and with the short-circuit evaluation of [&&]. *)
Definition matches_abbreviation_reads (text : list Z) (i : Z) : list Z :=
  if i =? 0 then []
  else
    let cond := fun s => (0 <=? s) && negb (is_whitespace (char_at text s)) in
    let start := count_down (Z.to_nat (to_int i)) cond (to_int i - 1) in
    let abbrev_len := to_int i - (start + 1) in
    loop_reads (Z.to_nat (to_int i)) cond
      (fun s => if 0 <=? s then [s] else []) (-1) (to_int i - 1)
    ++ (if abbrev_len <=? 0 then []
        else
          [i + 1]
          ++ (if is_alpha (char_at text (i + 1)) then []
              else
                (if abbrev_len =? 1 then [start + 1] else [])
                ++ (if (abbrev_len =? 1) && isupper (char_at text (start + 1))
                    then []
                    else
                      (if abbrev_len =? 1 then [i + 1] else [])
                      ++ (if (abbrev_len =? 1)
                             && negb (is_whitespace (char_at text (i + 1)))
                          then []
                          else if abbrev_len >=? 32 then []
                          else
                            map (fun k => start + 1 + Z.of_nat k)
                                (seq 0 (Z.to_nat abbrev_len)))))).

(** The indices of [text] that [is_end_of_sentence_heuristic(text, i, len)]
    reads. *)
Definition heuristic_reads (text : list Z) (i len : Z) : list Z :=
  let c := char_at text i in
  let in_decimal_range := (c =? ch ".") && (0 <? i) && (i <? szsub len 1) in
  [i]
  ++ (if in_decimal_range
      then (i - 1) :: (if isdigit (char_at text (i - 1)) then [i + 1] else [])
      else [])
  ++ (if in_decimal_range
         && isdigit (char_at text (i - 1)) && isdigit (char_at text (i + 1))
      then []
      else
        (if c =? ch "." then matches_abbreviation_reads text i else [])
        ++ (if (c =? ch ".") && matches_abbreviation text i then []
            else if c =? ch "." then
              let wcond := fun w =>
                (0 <? w)
                && negb (is_whitespace (char_at text (w - 1)))
                && negb (char_at text (w - 1) =? ch ".") in
              let word_start := count_down (Z.to_nat i) wcond i in
              loop_reads (Z.to_nat i) wcond
                (fun w => if 0 <? w then [w - 1] else []) (-1) i
              ++ (if i <=? word_start then []
                  else digits_reads (Z.to_nat (i - word_start)) text
                         word_start)
              ++ (if is_just_digits text word_start i then
                    let j := skip_spaces text (i + 1) len in
                    loop_reads (Z.to_nat (len - (i + 1)))
                      (fun j => (j <? len) && is_whitespace (char_at text j))
                      (fun j => if j <? len then [j] else []) 1 (i + 1)
                    ++ (if j >=? len then [] else [j])
                  else [])
            else [])).

Ltac split_reads :=
  repeat match goal with
    | H : In _ (_ ++ _) |- _ => apply in_app_or in H; destruct H as [H|H]
    | H : In _ [] |- _ => destruct H
    | H : In _ (_ :: _) |- _ => destruct H as [H|H]
    | H : In _ (if ?b then _ else _) |- _ => destruct b eqn:?
    end.

Ltac case_if H E :=
  match type of H with
  | In _ (if ?b then _ else _) => destruct b eqn:E
  end.

(** Agreement of two buffers on a list of indices. *)
Definition agree_on (text text' : list Z) (ks : list Z) : Prop :=
  forall k, In k ks -> char_at text k = char_at text' k.

(** [p] is the last byte of a run of sentence punctuation. *)
Definition run_end (text : list Z) (len p : Z) : bool :=
  is_sentence_punct (char_at text p)
  && negb ((p + 1 <? len) && is_sentence_punct (char_at text (p + 1))).

(** A chunk that pass 1 closed at a boundary: [lp] is the end of the first
    punctuation run of the chunk that the heuristic takes for the end of a
    sentence, and the chunk ends with the closers that follow [lp]. *)
Definition closed_chunk (text : list Z) (len : Z) (c : a_sentence_chunk_t)
  : Prop :=
  exists lp,
    start_offset c <= lp
    /\ run_end text len lp = true
    /\ is_end_of_sentence_heuristic text lp len = true
    /\ chunk_end c = consume_trailing_closers text lp len + 1
    /\ (forall p, start_offset c <= p < lp -> run_end text len p = true ->
                  is_end_of_sentence_heuristic text p len = false).

(** The leftover chunk: it runs to the end of the text and no punctuation
    run in it ends a sentence. *)
Definition open_chunk (text : list Z) (len : Z) (c : a_sentence_chunk_t)
  : Prop :=
  chunk_end c = len
  /\ (forall p, start_offset c <= p < len -> run_end text len p = true ->
                is_end_of_sentence_heuristic text p len = false).

(** [c] lies inside a chunk of [cs0] that is longer than [mx]. *)
Definition within_oversize (cs0 : list a_sentence_chunk_t) (mx : Z)
  (c : a_sentence_chunk_t) : Prop :=
  exists a, In a cs0 /\ mx < length a
            /\ start_offset a <= start_offset c
            /\ chunk_end c <= chunk_end a.

(** The chunk [c] has no whitespace byte after its first byte. *)
Definition one_token (text : list Z) (c : a_sentence_chunk_t) : Prop :=
  forall k, start_offset c < k < chunk_end c ->
            is_whitespace (char_at text k) = false.

(* ------------------------------------------------------------------ *)
(** ** The callers (src/tests/src/chunker.c) *)

(** The two passes as both callers chain them: the array of pass 1 is the
    input of pass 2. *)
Definition chunk_pipeline (text : list Z) (min_length max_length : Z)
  : result (list a_sentence_chunk_t) :=
  match a_sentence_chunker text with
  | Ok first_chunks =>
    a_rechunk_sentences text first_chunks min_length max_length
  | OutOfFuel => OutOfFuel
  | InvalidLastAccess => InvalidLastAccess
  end.

(** The bounds check of the callers before they copy a chunk (lines 85-87
    and 213-215): the length that is copied. *)
Definition clamp_length (off ln source_len : Z) : Z :=
  if szadd off ln >? source_len
  then (if off <? source_len then szsub source_len off else 0)
  else ln.

(** The bytes of the sentence that the callers copy out of the text for a
    chunk (lines 82-91 and 206-217). *)
Definition actual_sentence (source_text : list Z) (source_len : Z)
  (c : a_sentence_chunk_t) : list Z :=
  slice source_text (start_offset c)
    (clamp_length (start_offset c) (length c) source_len).

(** [print_with_escaped_newlines]: the bytes it writes for the C string
    held by [str]; 92 and 110 are the backslash and the letter n. *)
Fixpoint print_with_escaped_newlines (str : list Z) : list Z :=
  match str with
  | [] => []
  | c :: rest =>
    if c =? 0 then []
    else if c =? 10 then 92 :: 110 :: print_with_escaped_newlines rest
    else c :: print_with_escaped_newlines rest
  end.

(** What [process_non_json_file] prints for a file whose bytes are
    [content] and whose size is [length]: every sentence of the pipeline
    with [min_length] 5 and [max_length] 250, each followed by a newline. *)
Definition process_non_json_file (content : list Z) (length : Z)
  : result (list Z) :=
  match chunk_pipeline content 5 250 with
  | Ok chunks =>
    Ok (List.concat
          (map (fun c =>
                  print_with_escaped_newlines
                    (actual_sentence content length c) ++ [10])
               chunks))
  | OutOfFuel => OutOfFuel
  | InvalidLastAccess => InvalidLastAccess
  end.

(* ------------------------------------------------------------------ *)
(** A decidable check of the hypothesis that no punctuation byte of the text
    is classified as terminal. *)
Definition no_terminal_punctuation (text : list Z) : bool :=
  forallb
    (fun p => negb (is_sentence_punct (char_at text p)
                    && is_end_of_sentence_heuristic text p (strlen text)))
    (map Z.of_nat (seq 0 (Z.to_nat (strlen text)))).

(* ------------------------------------------------------------------ *)
(** ** Arithmetic and loop lemmas *)

Lemma SIZE_MOD_pos : 0 < SIZE_MOD.
Proof. reflexivity. Qed.

Lemma wrap_small z : 0 <= z < SIZE_MOD -> wrap z = z.
Proof. intros H. unfold wrap. now apply Z.mod_small. Qed.

Lemma wrap_le z : 0 <= z -> wrap z <= z.
Proof.
  intros H. unfold wrap. apply Z.mod_le; [assumption | apply SIZE_MOD_pos].
Qed.

Lemma wrap_range z : 0 <= wrap z < SIZE_MOD.
Proof. unfold wrap. apply Z.mod_pos_bound, SIZE_MOD_pos. Qed.

Lemma wrap_add_sub a b : wrap (a + wrap (b - a)) = wrap b.
Proof.
  unfold wrap. rewrite Zplus_mod_idemp_r. f_equal. lia.
Qed.

Lemma count_up_ge n cond j : j <= count_up n cond j.
Proof.
  revert j. induction n as [|n IH]; intros j; simpl; [lia|].
  destruct (cond j); [|lia]. specialize (IH (j + 1)). lia.
Qed.

Lemma count_up_bound n cond j B :
  (forall k, cond k = true -> k < B) -> j <= B -> count_up n cond j <= B.
Proof.
  intros Hc. revert j. induction n as [|n IH]; intros j Hj; simpl; [lia|].
  destruct (cond j) eqn:E; [|lia]. apply IH. apply Hc in E. lia.
Qed.

Lemma count_up_exit n cond j B :
  (forall k, cond k = true -> k < B) -> B - j <= Z.of_nat n ->
  cond (count_up n cond j) = false.
Proof.
  intros Hc. revert j. induction n as [|n IH]; intros j Hn; simpl.
  - destruct (cond j) eqn:E; [|reflexivity]. apply Hc in E. lia.
  - destruct (cond j) eqn:E; [|assumption]. apply IH. lia.
Qed.

Lemma count_up_between n cond j k :
  j <= k < count_up n cond j -> cond k = true.
Proof.
  revert j. induction n as [|n IH]; intros j Hk; simpl in Hk; [lia|].
  destruct (cond j) eqn:E; [|lia].
  destruct (Z.eq_dec j k) as [->|Hne]; [assumption|]. apply (IH (j + 1)). lia.
Qed.

Lemma count_down_le n cond j : count_down n cond j <= j.
Proof.
  revert j. induction n as [|n IH]; intros j; simpl; [lia|].
  destruct (cond j); [|lia]. specialize (IH (j - 1)). lia.
Qed.

Lemma count_down_bound n cond j B :
  (forall k, cond k = true -> B < k) -> B <= j -> B <= count_down n cond j.
Proof.
  intros Hc. revert j. induction n as [|n IH]; intros j Hj; simpl; [lia|].
  destruct (cond j) eqn:E; [|lia]. apply IH. apply Hc in E. lia.
Qed.

Lemma scan_down_hit n hit i j : scan_down n hit i = Some j -> hit j = true.
Proof.
  revert i. induction n as [|n IH]; intros i H; simpl in H; [discriminate|].
  destruct (hit i) eqn:E; [injection H as <-; assumption | eauto].
Qed.

Lemma scan_up_hit n hit i j : scan_up n hit i = Some j -> hit j = true.
Proof.
  revert i. induction n as [|n IH]; intros i H; simpl in H; [discriminate|].
  destruct (hit i) eqn:E; [injection H as <-; assumption | eauto].
Qed.

Lemma count_down_exit n cond j B :
  (forall k, cond k = true -> B < k) -> j - B <= Z.of_nat n ->
  cond (count_down n cond j) = false.
Proof.
  intros Hc. revert j. induction n as [|n IH]; intros j Hn; simpl.
  - destruct (cond j) eqn:E; [|reflexivity]. apply Hc in E. lia.
  - destruct (cond j) eqn:E; [|assumption]. apply IH. lia.
Qed.

Lemma scan_down_none n hit i k :
  scan_down n hit i = None -> i - Z.of_nat n < k <= i -> hit k = false.
Proof.
  revert i. induction n as [|n IH]; intros i H Hk; [lia|]. simpl in H.
  destruct (hit i) eqn:E; [discriminate|].
  destruct (Z.eq_dec k i) as [->|Hne]; [assumption|].
  apply (IH (i - 1)); [assumption | lia].
Qed.

Lemma scan_up_none n hit j k :
  scan_up n hit j = None -> j <= k < j + Z.of_nat n -> hit k = false.
Proof.
  revert j. induction n as [|n IH]; intros j H Hk; [lia|]. simpl in H.
  destruct (hit j) eqn:E; [discriminate|].
  destruct (Z.eq_dec k j) as [->|Hne]; [assumption|].
  apply (IH (j + 1)); [assumption | lia].
Qed.

Lemma punct_not_whitespace c :
  is_sentence_punct c = true -> is_whitespace c = false.
Proof.
  unfold is_sentence_punct, is_whitespace, ch. simpl. intros H.
  repeat (apply orb_true_iff in H; destruct H as [H|H]);
    apply Z.eqb_eq in H; subst c; reflexivity.
Qed.

Lemma skip_spaces_ge text start len : start <= skip_spaces text start len.
Proof. apply count_up_ge. Qed.

Lemma skip_spaces_le text start len :
  start <= len -> skip_spaces text start len <= len.
Proof.
  intros H. apply count_up_bound; [|assumption].
  intros k Hk. apply andb_true_iff in Hk. destruct Hk as [Hk _].
  now apply Z.ltb_lt in Hk.
Qed.

Lemma skip_spaces_stop text start len :
  start <= len -> skip_spaces text start len < len ->
  is_whitespace (char_at text (skip_spaces text start len)) = false.
Proof.
  intros Hs Hlt.
  pose proof (count_up_exit (Z.to_nat (len - start))
                (fun j => (j <? len) && is_whitespace (char_at text j))
                start len) as E.
  fold (skip_spaces text start len) in E. simpl in E.
  assert (Hc : forall k,
             (k <? len) && is_whitespace (char_at text k) = true -> k < len).
  { intros k Hk. apply andb_true_iff in Hk. destruct Hk as [Hk _].
    now apply Z.ltb_lt in Hk. }
  specialize (E Hc). clear Hc.
  assert (Hn : len - start <= Z.of_nat (Z.to_nat (len - start))) by lia.
  specialize (E Hn). clear Hn.
  apply andb_false_iff in E. destruct E as [E|E]; [|assumption].
  apply Z.ltb_ge in E. lia.
Qed.

Lemma skip_spaces_gap text start len k :
  start <= k < skip_spaces text start len ->
  is_whitespace (char_at text k) = true.
Proof.
  intros Hk. apply count_up_between in Hk. simpl in Hk.
  apply andb_true_iff in Hk. tauto.
Qed.

Lemma consume_multiple_punctuation_range text i len :
  i < len ->
  i <= consume_multiple_punctuation text i len < len.
Proof.
  intros Hi. split; [apply count_up_ge|].
  enough (consume_multiple_punctuation text i len <= len - 1) by lia.
  apply count_up_bound; [|lia].
  intros k Hk. apply andb_true_iff in Hk. destruct Hk as [Hk _].
  apply Z.ltb_lt in Hk. lia.
Qed.

Lemma consume_multiple_punctuation_punct text i len :
  is_sentence_punct (char_at text i) = true ->
  is_sentence_punct
    (char_at text (consume_multiple_punctuation text i len)) = true.
Proof.
  intros Hi.
  set (r := consume_multiple_punctuation text i len).
  assert (Hge : i <= r) by apply count_up_ge.
  destruct (Z.eq_dec i r) as [<-|Hne]; [assumption|].
  assert (Hb : i <= r - 1 < consume_multiple_punctuation text i len)
    by (fold r; lia).
  apply count_up_between in Hb. simpl in Hb.
  apply andb_true_iff in Hb. destruct Hb as [_ Hb].
  now replace (r - 1 + 1) with r in Hb by lia.
Qed.

Lemma consume_trailing_closers_range text i len :
  i < len ->
  i <= consume_trailing_closers text i len < len.
Proof.
  intros Hi. split; [apply count_up_ge|].
  enough (consume_trailing_closers text i len <= len - 1) by lia.
  apply count_up_bound; [|lia].
  intros k Hk. apply andb_true_iff in Hk. destruct Hk as [Hk _].
  apply Z.ltb_lt in Hk. lia.
Qed.

(** The bounded iterations stop where the C loops stop: at their exit the
    loop condition is false. *)
Lemma consume_multiple_punctuation_stop text i len :
  let r := consume_multiple_punctuation text i len in
  (r + 1 <? len) && is_sentence_punct (char_at text (r + 1)) = false.
Proof.
  cbv zeta. unfold consume_multiple_punctuation.
  apply (count_up_exit (Z.to_nat (len - i))
           (fun i => (i + 1 <? len) && is_sentence_punct (char_at text (i + 1)))
           i len); [|lia].
  intros k Hk. apply andb_true_iff in Hk. destruct Hk as [Hk _].
  apply Z.ltb_lt in Hk. lia.
Qed.

Lemma consume_trailing_closers_stop text i len :
  let r := consume_trailing_closers text i len in
  (r + 1 <? len) && is_closer (char_at text (r + 1)) = false.
Proof.
  cbv zeta. unfold consume_trailing_closers.
  apply (count_up_exit (Z.to_nat (len - i))
           (fun i => (i + 1 <? len) && is_closer (char_at text (i + 1)))
           i len); [|lia].
  intros k Hk. apply andb_true_iff in Hk. destruct Hk as [Hk _].
  apply Z.ltb_lt in Hk. lia.
Qed.

Lemma abbreviation_word_start_stop text i :
  let cond := fun s => (0 <=? s) && negb (is_whitespace (char_at text s)) in
  cond (count_down (Z.to_nat (to_int i)) cond (to_int i - 1)) = false.
Proof.
  cbv zeta.
  apply (count_down_exit (Z.to_nat (to_int i))
           (fun s => (0 <=? s) && negb (is_whitespace (char_at text s)))
           (to_int i - 1) (-1)); [|lia].
  intros k Hk. apply andb_true_iff in Hk. destruct Hk as [Hk _].
  apply Z.leb_le in Hk. lia.
Qed.

Lemma ordinal_word_start_stop text i :
  let cond := fun w =>
    (0 <? w) && negb (is_whitespace (char_at text (w - 1)))
    && negb (char_at text (w - 1) =? ch ".") in
  cond (count_down (Z.to_nat i) cond i) = false.
Proof.
  cbv zeta.
  apply (count_down_exit (Z.to_nat i)
           (fun w => (0 <? w) && negb (is_whitespace (char_at text (w - 1)))
                     && negb (char_at text (w - 1) =? ch "."))
           i 0); [|lia].
  intros k Hk. apply andb_true_iff in Hk. destruct Hk as [Hk _].
  apply andb_true_iff in Hk. destruct Hk as [Hk _].
  apply Z.ltb_lt in Hk. lia.
Qed.

(* ------------------------------------------------------------------ *)
(** ** Pass 1: what the scan appends *)

Lemma StronglySorted_snoc {A} (R : A -> A -> Prop) l a :
  StronglySorted R l -> Forall (fun x => R x a) l ->
  StronglySorted R (l ++ [a]).
Proof.
  induction 1 as [|x l Hs IH Hx]; intros Ha; simpl.
  - constructor; constructor.
  - inversion Ha as [|? ? Hxa Hla]; subst. constructor.
    + now apply IH.
    + apply Forall_app. split; [assumption|].
      constructor; [assumption|constructor].
Qed.

Lemma StronglySorted_rev {A} (R : A -> A -> Prop) l :
  StronglySorted (fun a b => R b a) l -> StronglySorted R (rev l).
Proof.
  induction 1 as [|x l Hs IH Hx]; simpl.
  - constructor.
  - apply StronglySorted_snoc; [assumption|].
    apply Forall_rev. assumption.
Qed.

Lemma sentence_scan_spec text len :
  len < SIZE_MOD ->
  forall fuel so i bh,
    0 <= i <= len -> 0 <= so <= len ->
    (forall k, i <= k < so -> is_whitespace (char_at text k) = true) ->
    len - i <= Z.of_nat fuel ->
    exists new,
      sentence_scan fuel text len so i bh = Ok (new ++ bh)
      /\ appended_by_scan text len so new.
Proof.
  intros Hlen. induction fuel as [|fuel IH]; intros so i bh Hi Hso Hgap Hfuel.
  - (* no fuel: the scan is already at the end *)
    assert (i = len) by lia. subst i. cbn [sentence_scan].
    rewrite Z.ltb_irrefl.
    destruct (so <? len) eqn:Eso.
    + apply Z.ltb_lt in Eso. unfold szsub. rewrite wrap_small by lia.
      replace (0 <? len - so) with true by (symmetry; apply Z.ltb_lt; lia).
      exists [mk_chunk so (len - so)]. split; [reflexivity|].
      unfold appended_by_scan, chunk_end; simpl.
      repeat split; repeat constructor; simpl; lia.
    + exists []. split; [reflexivity|]. repeat split; constructor.
  - cbn [sentence_scan]. destruct (i <? len) eqn:Ei.
    + apply Z.ltb_lt in Ei.
      destruct (is_sentence_punct (char_at text i)) eqn:Ep.
      * (* punctuation at i: the candidate start is not ahead of i *)
        assert (Hsoi : so <= i).
        { destruct (Z_le_gt_dec so i) as [|Hgt]; [assumption|].
          apply punct_not_whitespace in Ep. rewrite Hgap in Ep by lia.
          discriminate. }
        pose proof (consume_multiple_punctuation_range text i len Ei) as Hlp.
        set (lp := consume_multiple_punctuation text i len) in *.
        destruct (is_end_of_sentence_heuristic text lp len).
        -- assert (Hlp1 : lp < len) by lia.
           pose proof (consume_trailing_closers_range text lp len Hlp1) as Hlc.
           set (lc := consume_trailing_closers text lp len) in *.
           unfold szsub. rewrite wrap_small by lia.
           replace (0 <? lc + 1 - so) with true
             by (symmetry; apply Z.ltb_lt; lia).
           pose proof (skip_spaces_ge text (lc + 1) len) as Hge.
           pose proof (skip_spaces_le text (lc + 1) len ltac:(lia)) as Hle.
           destruct (IH (skip_spaces text (lc + 1) len) (lc + 1)
                       (aml_buffer_append bh (mk_chunk so (lc + 1 - so))))
             as (new & Heq & Hall & Hsorted & Hclean).
           ++ lia.
           ++ lia.
           ++ intros k Hk. now apply skip_spaces_gap with (lc + 1) len.
           ++ lia.
           ++ exists (new ++ [mk_chunk so (lc + 1 - so)]). split.
              { rewrite Heq. unfold aml_buffer_append.
                now rewrite <- app_assoc. }
              unfold appended_by_scan. repeat split.
              ** apply Forall_app. split.
                 { eapply Forall_impl; [|exact Hall]. simpl. intros c Hc. lia. }
                 { repeat constructor; unfold chunk_end; simpl; lia. }
              ** apply StronglySorted_snoc; [assumption|].
                 eapply Forall_impl; [|exact Hall]. simpl.
                 intros c Hc. unfold precedes, chunk_end. simpl. lia.
              ** apply Forall_app. split.
                 { rewrite Forall_forall in *. intros c Hc. right.
                   destruct (Hclean c Hc) as [Hs|Hs]; [|assumption].
                   rewrite Hs. apply skip_spaces_stop; [lia|].
                   specialize (Hall c Hc). unfold chunk_end in Hall. lia. }
                 { repeat constructor. }
        -- apply IH; intros; lia.
      * apply IH; try lia. intros k Hk. apply Hgap. lia.
    + apply Z.ltb_ge in Ei. assert (i = len) by lia. subst i.
      destruct (so <? len) eqn:Eso.
      * apply Z.ltb_lt in Eso. unfold szsub. rewrite wrap_small by lia.
        replace (0 <? len - so) with true by (symmetry; apply Z.ltb_lt; lia).
        exists [mk_chunk so (len - so)]. split; [reflexivity|].
        unfold appended_by_scan, chunk_end; simpl.
        repeat split; repeat constructor; simpl; lia.
      * exists []. split; [reflexivity|]. repeat split; constructor.
Qed.

(** More fuel does not change what the scan returns. *)
Lemma sentence_scan_more_fuel text len fuel :
  forall fuel' so i bh out,
    (fuel <= fuel')%nat ->
    sentence_scan fuel text len so i bh = Ok out ->
    sentence_scan fuel' text len so i bh = Ok out.
Proof.
  induction fuel as [|fuel IH]; intros fuel' so i bh out Hle H.
  - destruct fuel'; cbn [sentence_scan] in *;
      (destruct (i <? len); [discriminate|assumption]).
  - destruct fuel' as [|fuel']; [lia|]. cbn [sentence_scan] in *.
    destruct (i <? len); [|assumption].
    destruct (is_sentence_punct _); [|apply (IH fuel'); [lia|assumption]].
    destruct (is_end_of_sentence_heuristic _ _ _);
      (apply (IH fuel'); [lia|assumption]).
Qed.

Lemma strlen_nonneg text : 0 <= strlen text.
Proof.
  induction text as [|c rest IH]; cbn [strlen]; [lia|]. destruct (c =? 0); lia.
Qed.

Lemma strlen_pos text : char_at text 0 <> 0 -> 0 < strlen text.
Proof.
  destruct text as [|c rest]; [intros Hc; now elim Hc|].
  change (char_at (c :: rest) 0) with c. cbn [strlen]. intros Hc.
  apply Z.eqb_neq in Hc. rewrite Hc.
  pose proof (strlen_nonneg rest). lia.
Qed.

Lemma strlen_no_nul text :
  Forall (fun c => c <> 0) text -> strlen text = Z.of_nat (List.length text).
Proof.
  induction 1 as [|c rest Hc _ IH]; [reflexivity|].
  cbn [strlen List.length]. apply Z.eqb_neq in Hc. rewrite Hc, IH. lia.
Qed.

Lemma char_at_in text i :
  0 <= i < Z.of_nat (List.length text) -> In (char_at text i) text.
Proof.
  intros Hi. unfold char_at.
  replace (i <? 0) with false by (symmetry; apply Z.ltb_ge; lia).
  apply nth_In. lia.
Qed.

(** Without a terminal punctuation the scan reaches the end of the text with
    the candidate start it was entered with. *)
Lemma sentence_scan_no_boundary text len so :
  (forall p, 0 <= p < len -> is_sentence_punct (char_at text p) = true ->
             is_end_of_sentence_heuristic text p len = false) ->
  forall fuel i bh,
    0 <= i <= len -> len - i <= Z.of_nat fuel ->
    sentence_scan fuel text len so i bh
    = sentence_scan 0 text len so len bh.
Proof.
  intros Hno. induction fuel as [|fuel IH]; intros i bh Hi Hfuel.
  - now replace i with len by lia.
  - cbn [sentence_scan]. destruct (i <? len) eqn:Ei.
    + apply Z.ltb_lt in Ei.
      destruct (is_sentence_punct (char_at text i)) eqn:Ep.
      * pose proof (consume_multiple_punctuation_range text i len Ei) as Hlp.
        pose proof (consume_multiple_punctuation_punct text i len Ep) as Hpp.
        rewrite Hno by (assumption || lia). apply IH; lia.
      * apply IH; lia.
    + apply Z.ltb_ge in Ei. replace i with len by lia.
      now rewrite Z.ltb_irrefl.
Qed.

Lemma single_chunk_of_scan text :
  char_at text 0 <> 0 -> strlen text < SIZE_MOD ->
  (forall p, 0 <= p < strlen text ->
             is_sentence_punct (char_at text p) = true ->
             is_end_of_sentence_heuristic text p (strlen text) = false) ->
  a_sentence_chunker text = Ok [mk_chunk 0 (strlen text)].
Proof.
  intros Hne Hlen Hno. pose proof (strlen_pos text Hne) as Hpos.
  unfold a_sentence_chunker. apply Z.eqb_neq in Hne. rewrite Hne.
  rewrite (sentence_scan_no_boundary text (strlen text) 0 Hno) by lia.
  cbn [sentence_scan]. rewrite Z.ltb_irrefl.
  replace (0 <? strlen text) with true by (symmetry; apply Z.ltb_lt; lia).
  unfold szsub. rewrite wrap_small by lia. rewrite Z.sub_0_r.
  replace (0 <? strlen text) with true by (symmetry; apply Z.ltb_lt; lia).
  reflexivity.
Qed.

Lemma a_sentence_chunker_spec text :
  strlen text < SIZE_MOD ->
  exists cs,
    a_sentence_chunker text = Ok cs
    /\ well_formed (strlen text) cs
    /\ Forall (fun c => start_offset c = 0
                        \/ is_whitespace (char_at text (start_offset c)) = false)
         cs.
Proof.
  intros Hlen. unfold a_sentence_chunker.
  destruct (char_at text 0 =? 0).
  - exists []. repeat split; constructor.
  - pose proof (strlen_nonneg text) as Hnn.
    destruct (sentence_scan_spec text (strlen text) Hlen
                (Z.to_nat (strlen text)) 0 0 [])
      as (new & Heq & Hall & Hsorted & Hclean); try lia.
    rewrite Heq, app_nil_r. exists (rev new). split; [reflexivity|].
    unfold well_formed, aml_buffer_data. repeat split.
    + apply Forall_rev. eapply Forall_impl; [|exact Hall].
      simpl. intros c Hc. unfold chunk_in. lia.
    + now apply StronglySorted_rev.
    + now apply Forall_rev.
Qed.

(* ------------------------------------------------------------------ *)
(** ** Pass 2: split points *)

Lemma adjusted_or_end_spec text s e i :
  0 <= s ->
  adjusted_or_end text s e i = e
  \/ (s < adjusted_or_end text s e i < e
      /\ is_whitespace (char_at text (adjusted_or_end text s e i)) = true).
Proof.
  intros Hs. unfold adjusted_or_end.
  destruct ((adjust_for_token_boundary text s e i >? s)
            && (adjust_for_token_boundary text s e i <? e)) eqn:Eacc;
    [right | now left].
  apply andb_true_iff in Eacc. destruct Eacc as [Hgt Hlt].
  apply Z.gtb_lt in Hgt. apply Z.ltb_lt in Hlt.
  split; [lia|]. revert Hgt Hlt. unfold adjust_for_token_boundary.
  destruct ((i <=? s) || (i >=? e)) eqn:Eout.
  - apply orb_true_iff in Eout. destruct Eout as [E|E].
    + apply Z.leb_le in E. lia.
    + apply Z.geb_le in E. lia.
  - destruct (scan_down _ _ i) as [j|] eqn:Edown.
    + intros _ _. now apply scan_down_hit in Edown.
    + destruct (scan_up _ _ i) as [j|] eqn:Eup.
      * intros _ _. now apply scan_up_hit in Eup.
      * lia.
Qed.

Lemma find_split_point_spec text s l mn mx :
  0 <= s ->
  find_split_point text s l mn mx = szadd s l
  \/ (s < find_split_point text s l mn mx < szadd s l
      /\ is_whitespace (char_at text (find_split_point text s l mn mx)) = true).
Proof.
  intros Hs. unfold find_split_point.
  destruct (l <=? mx); [now left|].
  destruct (_ >? _); [now left|].
  destruct (_ >=? _); [now left|].
  repeat (destruct (scan_down _ _ _); [now apply adjusted_or_end_spec|]).
  now apply adjusted_or_end_spec.
Qed.

(** An accepted split point cuts the remaining chunk into two non-empty
    pieces. *)
Lemma accepted_split text r mn mx :
  0 <= start_offset r -> 0 <= length r ->
  let e := szadd (start_offset r) (length r) in
  let split_pt :=
    find_split_point text (start_offset r) (length r) mn mx in
  (split_pt <=? start_offset r) || (split_pt >=? e) = false ->
  start_offset r < split_pt < e
  /\ e <= start_offset r + length r
  /\ e < SIZE_MOD
  /\ is_whitespace (char_at text split_pt) = true
  /\ szsub split_pt (start_offset r) = split_pt - start_offset r
  /\ szsub e split_pt = e - split_pt.
Proof.
  intros Hs Hl. cbv zeta.
  pose proof (wrap_range (start_offset r + length r)) as Hr.
  pose proof (wrap_le (start_offset r + length r) ltac:(lia)) as Hle.
  fold (szadd (start_offset r) (length r)) in Hr, Hle.
  pose proof (find_split_point_spec text (start_offset r) (length r) mn mx Hs)
    as Hsp.
  revert Hr Hle Hsp.
  generalize (szadd (start_offset r) (length r)) as e.
  generalize (find_split_point text (start_offset r) (length r) mn mx)
    as split_pt.
  intros split_pt e Hr Hle Hsp Hacc.
  apply orb_false_iff in Hacc. destruct Hacc as [H1 H2].
  apply Z.leb_gt in H1. rewrite Z.geb_leb in H2. apply Z.leb_gt in H2.
  destruct Hsp as [Heq | [_ Hws]]; [lia|].
  repeat split; try lia; try assumption.
  - unfold szsub. apply wrap_small. lia.
  - unfold szsub. apply wrap_small. lia.
Qed.

Lemma split_loop_rule text mn mx
  (J : a_sentence_chunk_t -> list a_sentence_chunk_t -> Prop) :
  0 <= mx ->
  (forall r buf, J r buf -> 0 <= start_offset r /\ 0 <= length r) ->
  (forall r buf split_pt,
      J r buf ->
      start_offset r < split_pt < szadd (start_offset r) (length r) ->
      szadd (start_offset r) (length r) <= start_offset r + length r ->
      is_whitespace (char_at text split_pt) = true ->
      J (mk_chunk split_pt
                  (szadd (start_offset r) (length r) - split_pt))
        (mk_chunk (start_offset r) (split_pt - start_offset r) :: buf)) ->
  forall fuel r buf,
    J r buf -> (Z.to_nat (length r) <= fuel)%nat ->
    exists r' buf',
      split_loop fuel text mn mx r buf = Ok (r' :: buf') /\ J r' buf'.
Proof.
  intros Hmx Hrange Hstep.
  induction fuel as [|fuel IH]; intros r buf HJ Hfuel;
    cbn [split_loop]; destruct (Hrange r buf HJ) as [Hs Hl].
  - replace (length r >? mx) with false
      by (symmetry; rewrite Z.gtb_ltb; apply Z.ltb_ge; lia).
    exists r, buf. now split.
  - destruct (length r >? mx); [|exists r, buf; now split].
    destruct (_ || _) eqn:Eacc; [exists r, buf; now split|].
    destruct (accepted_split text r mn mx Hs Hl Eacc)
      as (Hin & Hle & _ & Hws & E1 & E2).
    rewrite E1, E2. apply IH.
    + now apply Hstep.
    + simpl. lia.
Qed.

(* ------------------------------------------------------------------ *)
(** ** Pass 2: the loop over the input chunks *)

(** More fuel does not change what the split loop returns. *)
Lemma split_loop_more_fuel text mn mx fuel :
  forall fuel' r buf out,
    (fuel <= fuel')%nat ->
    split_loop fuel text mn mx r buf = Ok out ->
    split_loop fuel' text mn mx r buf = Ok out.
Proof.
  induction fuel as [|fuel IH]; intros fuel' r buf out Hle H.
  - destruct fuel'; cbn [split_loop] in *;
      (destruct (_ >? _); [discriminate|assumption]).
  - destruct fuel' as [|fuel']; [lia|]. cbn [split_loop] in *.
    destruct (_ >? _); [|assumption].
    destruct (_ || _); [assumption|]. apply (IH fuel'); [lia|assumption].
Qed.

Lemma list_length_ind {A} (P : list A -> Prop) :
  (forall l, (forall l', (List.length l' < List.length l)%nat -> P l') -> P l) ->
  forall l, P l.
Proof.
  intros H l.
  enough (forall n l', (List.length l' < n)%nat -> P l') as Hn
      by (apply H; intros l' _; apply (Hn (S (List.length l'))); lia).
  induction n as [|n IH]; intros l' Hl'; [lia|].
  apply H. intros l'' Hl''. apply IH. lia.
Qed.

Lemma backward_merge_cases i buf current mx :
  (backward_merge i buf current mx = InvalidLastAccess /\ 0 < i /\ buf = [])
  \/ backward_merge i buf current mx = Ok None
  \/ (exists last before,
         buf = last :: before
         /\ backward_merge i buf current mx
            = Ok (Some (mk_chunk (start_offset last)
                          (szsub (szadd (start_offset current) (length current))
                                 (start_offset last)) :: before))).
Proof.
  unfold backward_merge. destruct (0 <? i) eqn:Ei; [|now right; left].
  apply Z.ltb_lt in Ei. destruct buf as [|last before]; [now left|].
  destruct (_ <=? mx); [|now right; left].
  right; right. now exists last, before.
Qed.

(** A proof rule for [rechunk_loop]: an invariant [I] of the remaining input
    and the buffer that every branch of the loop body preserves holds of the
    final buffer, and the loop returns one.  [J] is the invariant of the
    split loop of case 3. *)
Lemma rechunk_loop_rule text mn mx
  (I : list a_sentence_chunk_t -> list a_sentence_chunk_t -> Prop)
  (J : list a_sentence_chunk_t -> a_sentence_chunk_t ->
       list a_sentence_chunk_t -> Prop) :
  0 <= mx ->
  (forall rest r buf, J rest r buf -> 0 <= start_offset r /\ 0 <= length r) ->
  (* cases 1 and 2 without a merge: the current chunk is appended *)
  (forall cur rest buf, I (cur :: rest) buf -> I rest (cur :: buf)) ->
  (* case 2, backward merge *)
  (forall cur rest last before,
      I (cur :: rest) (last :: before) ->
      I rest (mk_chunk (start_offset last)
                (szsub (szadd (start_offset cur) (length cur))
                       (start_offset last)) :: before)) ->
  (* case 2, forward merge *)
  (forall cur next rest buf,
      I (cur :: next :: rest) buf ->
      I rest (mk_chunk (start_offset cur)
                (szsub (szadd (start_offset next) (length next))
                       (start_offset cur)) :: buf)) ->
  (* case 3 *)
  (forall cur rest buf, I (cur :: rest) buf -> J rest cur buf) ->
  (forall rest r buf split_pt,
      J rest r buf ->
      start_offset r < split_pt < szadd (start_offset r) (length r) ->
      szadd (start_offset r) (length r) <= start_offset r + length r ->
      is_whitespace (char_at text split_pt) = true ->
      J rest
        (mk_chunk split_pt (szadd (start_offset r) (length r) - split_pt))
        (mk_chunk (start_offset r) (split_pt - start_offset r) :: buf)) ->
  (forall rest r buf, J rest r buf -> I rest (r :: buf)) ->
  forall cs i buf,
    I cs buf -> (0 < i -> buf <> []) ->
    exists out, rechunk_loop text mn mx i cs buf = Ok out /\ I [] out.
Proof.
  intros Hmx HJrange Happend Hback Hfwd Hinit Hstep Hdone.
  induction cs as [cs IH] using list_length_ind. intros i buf HI Hbuf.
  destruct cs as [|cur rest]; [exists buf; now split|].
  cbn [rechunk_loop].
  destruct (_ && _).
  { apply IH; [simpl; lia | now apply Happend | discriminate]. }
  destruct (length cur <? mn).
  - destruct (backward_merge_cases i buf cur mx)
      as [(_ & Hi & ->) | [-> | (last & before & -> & ->)]].
    + now elim (Hbuf Hi).
    + destruct rest as [|next rest'].
      * apply IH; [simpl; lia | now apply Happend | discriminate].
      * destruct (_ <=? mx).
        -- apply IH; [simpl; lia | now apply Hfwd | discriminate].
        -- apply IH; [simpl; lia | now apply Happend | discriminate].
    + apply IH; [simpl; lia | now apply Hback | discriminate].
  - destruct (split_loop_rule text mn mx (J rest) Hmx (HJrange rest)
                (Hstep rest) (Z.to_nat (length cur)) cur buf
                (Hinit _ _ _ HI) (le_n _))
      as (r' & buf' & -> & HJ).
    apply IH; [simpl; lia | now apply Hdone | discriminate].
Qed.

Lemma split_loop_result fuel text mn mx r buf :
  split_loop fuel text mn mx r buf = OutOfFuel
  \/ exists r' buf', split_loop fuel text mn mx r buf = Ok (r' :: buf').
Proof.
  revert r buf. induction fuel as [|fuel IH]; intros r buf; cbn [split_loop].
  - destruct (_ >? _); [now left | right; now exists r, buf].
  - destruct (_ >? _); [|right; now exists r, buf].
    destruct (_ || _); [right; now exists r, buf | apply IH].
Qed.

Lemma rechunk_loop_last_valid text mn mx cs :
  forall i buf,
    (0 < i -> buf <> []) ->
    rechunk_loop text mn mx i cs buf <> InvalidLastAccess.
Proof.
  induction cs as [cs IH] using list_length_ind. intros i buf Hbuf.
  destruct cs as [|cur rest]; [discriminate|].
  cbn [rechunk_loop].
  destruct (_ && _).
  { apply IH; [simpl; lia | discriminate]. }
  destruct (length cur <? mn).
  - destruct (backward_merge_cases i buf cur mx)
      as [(_ & Hi & ->) | [-> | (last & before & -> & ->)]].
    + now elim (Hbuf Hi).
    + destruct rest as [|next rest'].
      * apply IH; [simpl; lia | discriminate].
      * destruct (_ <=? mx); apply IH; simpl; (lia || discriminate).
    + apply IH; [simpl; lia | discriminate].
  - destruct (split_loop_result (Z.to_nat (length cur)) text mn mx cur buf)
      as [-> | (r' & buf' & ->)]; [discriminate|].
    apply IH; [simpl; lia | discriminate].
Qed.

(* ------------------------------------------------------------------ *)
(** ** Pass 2: where the boundaries of the output lie *)

Lemma wrap_wrap z : wrap (wrap z) = wrap z.
Proof. unfold wrap. apply Z.mod_mod. discriminate. Qed.

Section Boundaries.
Variable text : list Z.
Variable cs0 : list a_sentence_chunk_t.

Lemma input_chunk_boundaries_ok c :
  In c cs0 -> chunk_boundaries_ok text cs0 c.
Proof.
  intros Hc. split; left; exists c; auto.
Qed.

Lemma merged_boundaries_ok a b :
  boundary_ok text cs0 (start_offset a) ->
  boundary_ok text cs0 (wrapped_end b) ->
  chunk_boundaries_ok text cs0
    (mk_chunk (start_offset a)
              (szsub (szadd (start_offset b) (length b)) (start_offset a))).
Proof.
  intros Ha Hb. split; [exact Ha|].
  unfold wrapped_end, szadd, szsub. simpl.
  rewrite wrap_add_sub, wrap_wrap. exact Hb.
Qed.

Lemma boundaries_preserved mn mx i :
  0 <= mx ->
  Forall (fun c => 0 <= start_offset c /\ 0 <= length c) cs0 ->
  (0 < i -> False) ->
  exists out,
    rechunk_loop text mn mx i cs0 [] = Ok out
    /\ Forall (chunk_boundaries_ok text cs0) out.
Proof.
  intros Hmx Hrange Hi.
  destruct (rechunk_loop_rule text mn mx (boundaries_inv text cs0)
              (boundaries_split_inv text cs0)
              Hmx) with (cs := cs0) (i := i)
                        (buf := @nil a_sentence_chunk_t)
    as (out & Heq & _ & _ & Hout).
  - intros rest r buf (_ & Hs & Hl & _). now split.
  - intros cur rest buf (Hr & Hincl & Hbuf).
    inversion Hr; subst. repeat split; [assumption | | ].
    + intros x Hx. apply Hincl. now right.
    + constructor; [|assumption].
      apply input_chunk_boundaries_ok, Hincl. now left.
  - intros cur rest last before (Hr & Hincl & Hbuf).
    inversion Hr; subst. inversion Hbuf as [|? ? [Hls _] Hbefore]; subst.
    repeat split; [assumption | | ].
    + intros x Hx. apply Hincl. now right.
    + constructor; [|assumption]. apply merged_boundaries_ok; [assumption|].
      apply input_chunk_boundaries_ok, Hincl. now left.
  - intros cur next rest buf (Hr & Hincl & Hbuf).
    inversion Hr as [|? ? _ Hr']; subst. inversion Hr'; subst.
    repeat split; [assumption | | ].
    + intros x Hx. apply Hincl. now right; right.
    + constructor; [|assumption]. apply merged_boundaries_ok.
      * apply input_chunk_boundaries_ok, Hincl. now left.
      * apply input_chunk_boundaries_ok, Hincl. right; now left.
  - intros cur rest buf (Hr & Hincl & Hbuf).
    inversion Hr as [|? ? [Hs Hl] Hr']; subst.
    repeat split; try assumption.
    + intros x Hx. apply Hincl. now right.
    + left. exists cur. split; [apply Hincl; now left | now left].
    + left. exists cur. split; [apply Hincl; now left | now right].
  - intros rest r buf split_pt ((Hr & Hincl & Hbuf) & Hs & Hl & Hrs & Hre)
      Hsplit Hle Hws.
    pose proof (wrap_range (start_offset r + length r)) as Hrange'.
    fold (szadd (start_offset r) (length r)) in Hrange'.
    repeat split; simpl; try assumption; try lia.
    + constructor; [|assumption]. split; simpl; [assumption|].
      right. unfold wrapped_end, szadd. simpl.
      replace (start_offset r + (split_pt - start_offset r)) with split_pt
        by lia.
      rewrite wrap_small by lia. assumption.
    + now right.
    + unfold wrapped_end, szadd in *. simpl.
      replace (split_pt + (wrap (start_offset r + length r) - split_pt))
        with (wrap (start_offset r + length r)) by lia.
      rewrite wrap_wrap. assumption.
  - intros rest r buf ((Hr & Hincl & Hbuf) & Hs & Hl & Hok).
    repeat split; try assumption. now constructor.
  - repeat split; [assumption | apply incl_refl | constructor].
  - intros Hpos. now elim (Hi Hpos).
  - exists out. now split.
Qed.
End Boundaries.

(* ------------------------------------------------------------------ *)
(** ** Pass 2: well-formedness and coverage *)

Lemma covers_iff k c :
  covers k c = true <-> start_offset c <= k < chunk_end c.
Proof.
  unfold covers. rewrite andb_true_iff, Z.leb_le, Z.ltb_lt. tauto.
Qed.

Lemma szadd_chunk_end L c :
  L < SIZE_MOD -> chunk_in L c ->
  szadd (start_offset c) (length c) = chunk_end c.
Proof.
  intros HL (Hs & Hl & He). unfold szadd, chunk_end in *.
  apply wrap_small. lia.
Qed.

Lemma well_formed_inv L c cs :
  well_formed L (c :: cs) ->
  chunk_in L c /\ well_formed L cs /\ (forall x, In x cs -> precedes c x).
Proof.
  intros [Hall Hs]. inversion Hall; subst.
  apply StronglySorted_inv in Hs. destruct Hs as [Hs Hc].
  split; [assumption|]. split; [now split|]. now apply Forall_forall.
Qed.

Lemma buffer_ok_inv L b buf :
  buffer_ok L (b :: buf) ->
  chunk_in L b /\ buffer_ok L buf /\ (forall x, In x buf -> precedes x b).
Proof.
  intros [Hall Hs]. inversion Hall; subst.
  apply StronglySorted_inv in Hs. destruct Hs as [Hs Hc].
  split; [assumption|]. split; [now split|].
  rewrite Forall_forall in Hc. exact Hc.
Qed.

Lemma buffer_ok_in L buf b : buffer_ok L buf -> In b buf -> chunk_in L b.
Proof.
  intros [Hall _] Hb. rewrite Forall_forall in Hall. now apply Hall.
Qed.

Lemma buffer_ok_cons L buf c :
  buffer_ok L buf -> chunk_in L c ->
  (forall b, In b buf -> chunk_end b <= start_offset c) ->
  buffer_ok L (c :: buf).
Proof.
  intros Hbuf Hc Hends. split.
  - constructor; [assumption | apply Hbuf].
  - constructor; [apply Hbuf|]. apply Forall_forall. intros b Hb.
    pose proof (buffer_ok_in L buf b Hbuf Hb) as (_ & Hl & _).
    specialize (Hends b Hb). unfold precedes, chunk_end in *. lia.
Qed.

Lemma buffer_ok_array L buf : buffer_ok L buf -> well_formed L (rev buf).
Proof.
  intros [Hall Hs]. split; [now apply Forall_rev|].
  now apply StronglySorted_rev.
Qed.

Lemma covered_rev k cs : covered k (rev cs) <-> covered k cs.
Proof.
  unfold covered. split; intros (c & Hc & Hk); exists c;
    (split; [|assumption]).
  - now apply in_rev in Hc.
  - now apply in_rev in Hc.
Qed.

Section Rechunk.
Variable text : list Z.
Variable L : Z.
Variable cs0 : list a_sentence_chunk_t.
Hypothesis HL : L < SIZE_MOD.

Lemma inv_init cur rest buf :
  rechunk_inv L cs0 (cur :: rest) buf -> rechunk_split_inv L cs0 rest cur buf.
Proof.
  intros (Hwf & Hbuf & Hincl & (f & Hf1 & Hf2) & Hcov & Hsp).
  destruct (well_formed_inv _ _ _ Hwf) as (Hcur & Hrest & Hprec).
  assert (Hin : In cur cs0) by (apply Hincl; now left).
  unfold rechunk_inv, rechunk_split_inv.
  repeat match goal with |- _ /\ _ => split end; try assumption.
  - intros x Hx. apply Hincl. now right.
  - intros b Hb. specialize (Hf1 b Hb).
    specialize (Hf2 cur (or_introl eq_refl)).
    lia.
  - intros c Hc. apply Hprec in Hc. apply Hc.
  - intros k Hk. destruct (Hcov k Hk) as [H|(c & [<-|Hc] & Hck)].
    + now left.
    + right; now left.
    + right; right. now exists c.
  - exists cur, cur. repeat split; try assumption; lia.
Qed.

Lemma inv_done rest r buf :
  rechunk_split_inv L cs0 rest r buf -> rechunk_inv L cs0 rest (r :: buf).
Proof.
  intros (Hrest & Hbuf & Hincl & Hr & Hb & Hc & Hcov & Hsp & Hspr).
  unfold rechunk_inv, rechunk_split_inv.
  repeat match goal with |- _ /\ _ => split end; try assumption.
  - now apply buffer_ok_cons.
  - exists (chunk_end r). split; [|assumption].
    intros b [<-|Hin]; [lia|]. specialize (Hb b Hin).
    destruct Hr as (_ & Hl & _). unfold chunk_end in *. lia.
  - intros k Hk. destruct (Hcov k Hk) as [(b & Hin & Hbk)|[H|H]].
    + left. exists b. split; [now right | assumption].
    + left. exists r. split; [now left | assumption].
    + now right.
  - now constructor.
Qed.

Lemma inv_append cur rest buf :
  rechunk_inv L cs0 (cur :: rest) buf -> rechunk_inv L cs0 rest (cur :: buf).
Proof. intros H. now apply inv_done, inv_init. Qed.

Lemma inv_split rest r buf split_pt :
  rechunk_split_inv L cs0 rest r buf ->
  start_offset r < split_pt < szadd (start_offset r) (length r) ->
  rechunk_split_inv L cs0 rest
    (mk_chunk split_pt (szadd (start_offset r) (length r) - split_pt))
    (mk_chunk (start_offset r) (split_pt - start_offset r) :: buf).
Proof.
  intros (Hrest & Hbuf & Hincl & Hr & Hb & Hc & Hcov & Hsp & Hspr).
  rewrite (szadd_chunk_end L r HL Hr). intros Hsplit.
  assert (Hr' := Hr). destruct Hr' as (Hs & Hl & He).
  assert (Hleft : chunk_in L
                    (mk_chunk (start_offset r) (split_pt - start_offset r)))
    by (unfold chunk_in, chunk_end in *; simpl; lia).
  destruct Hspr as (a & b & Ha & Hb' & Hsa & Heb).
  unfold rechunk_inv, rechunk_split_inv.
  repeat match goal with |- _ /\ _ => split end; try assumption.
  - now apply buffer_ok_cons.
  - unfold chunk_in, chunk_end in *. simpl. lia.
  - intros x [<-|Hx]; unfold chunk_end; simpl; [lia|].
    specialize (Hb x Hx). unfold chunk_end in *. lia.
  - intros c Hin. specialize (Hc c Hin). unfold chunk_end in *. simpl. lia.
  - intros k Hk. destruct (Hcov k Hk) as [(x & Hin & Hxk)|[H|H]].
    + left. exists x. split; [now right | assumption].
    + apply covers_iff in H.
      destruct (Z_lt_ge_dec k split_pt) as [Hlt|Hge].
      * left. eexists. split; [now left|]. apply covers_iff.
        unfold chunk_end; simpl. lia.
      * right; left. apply covers_iff. unfold chunk_end in *; simpl. lia.
    + now right; right.
  - constructor; [|assumption]. exists a, b.
    unfold chunk_end in *. simpl. repeat split; try assumption; lia.
  - exists a, b. unfold chunk_end in *. simpl.
    repeat split; try assumption; lia.
Qed.

Lemma inv_backward cur rest last before :
  rechunk_inv L cs0 (cur :: rest) (last :: before) ->
  rechunk_inv L cs0 rest
    (mk_chunk (start_offset last)
       (szsub (szadd (start_offset cur) (length cur)) (start_offset last))
     :: before).
Proof.
  intros (Hwf & Hbuf & Hincl & (f & Hf1 & Hf2) & Hcov & Hsp).
  destruct (well_formed_inv _ _ _ Hwf) as (Hcur & Hrest & Hprec).
  destruct (buffer_ok_inv _ _ _ Hbuf) as (Hlast & Hbefore & Hbprec).
  rewrite (szadd_chunk_end L cur HL Hcur).
  pose proof (Hf1 last (or_introl eq_refl)) as Hlf.
  pose proof (Hf2 cur (or_introl eq_refl)) as Hfc.
  assert (Hcur' := Hcur). destruct Hcur' as (Hcs & Hcl & Hce).
  assert (Hlast' := Hlast). destruct Hlast' as (Hls & Hll & Hle).
  unfold szsub. rewrite wrap_small by (unfold chunk_end in *; lia).
  assert (Hin : In cur cs0) by (apply Hincl; now left).
  assert (Hnew : chunk_in L (mk_chunk (start_offset last)
                               (chunk_end cur - start_offset last)))
    by (unfold chunk_in, chunk_end in *; simpl; lia).
  unfold rechunk_inv.
  repeat match goal with |- _ /\ _ => split end; try assumption.
  - apply buffer_ok_cons; try assumption.
    intros b Hb. apply Hbprec in Hb. apply Hb.
  - intros x Hx. apply Hincl. now right.
  - exists (chunk_end cur). split.
    + intros b [<-|Hb]; [unfold chunk_end; simpl; lia|].
      specialize (Hf1 b (or_intror Hb)). unfold chunk_end in *. lia.
    + intros c Hc. apply Hprec in Hc. apply Hc.
  - intros k Hk.
    destruct (Hcov k Hk) as [(b & [<-|Hb] & Hbk)|(c & [<-|Hc] & Hck)].
    + left. eexists. split; [now left|]. apply covers_iff in Hbk.
      apply covers_iff. unfold chunk_end in *; simpl. lia.
    + left. exists b. split; [now right | assumption].
    + left. eexists. split; [now left|]. apply covers_iff in Hck.
      apply covers_iff. unfold chunk_end in *; simpl. lia.
    + right. now exists c.
  - inversion Hsp as [|? ? (a & b & Ha & Hb & Hsa & Heb) Hsp']; subst.
    constructor; [|assumption]. exists a, cur.
    unfold chunk_end in *. simpl. repeat split; try assumption; lia.
Qed.

Lemma inv_forward cur next rest buf :
  rechunk_inv L cs0 (cur :: next :: rest) buf ->
  rechunk_inv L cs0 rest
    (mk_chunk (start_offset cur)
       (szsub (szadd (start_offset next) (length next)) (start_offset cur))
     :: buf).
Proof.
  intros (Hwf & Hbuf & Hincl & (f & Hf1 & Hf2) & Hcov & Hsp).
  destruct (well_formed_inv _ _ _ Hwf) as (Hcur & Hwf' & Hprec).
  destruct (well_formed_inv _ _ _ Hwf') as (Hnext & Hrest & Hprec').
  rewrite (szadd_chunk_end L next HL Hnext).
  pose proof (Hprec next (or_introl eq_refl)) as [Hcn1 Hcn2].
  pose proof (Hf2 cur (or_introl eq_refl)) as Hfc.
  assert (Hcur' := Hcur). destruct Hcur' as (Hcs & Hcl & Hce).
  assert (Hnext' := Hnext). destruct Hnext' as (Hns & Hnl & Hne).
  unfold szsub. rewrite wrap_small by (unfold chunk_end in *; lia).
  assert (Hnew : chunk_in L (mk_chunk (start_offset cur)
                               (chunk_end next - start_offset cur)))
    by (unfold chunk_in, chunk_end in *; simpl; lia).
  unfold rechunk_inv.
  repeat match goal with |- _ /\ _ => split end; try assumption.
  - apply buffer_ok_cons; try assumption.
    intros b Hb. specialize (Hf1 b Hb). simpl. lia.
  - intros x Hx. apply Hincl. now right; right.
  - exists (chunk_end next). split.
    + intros b [<-|Hb]; [unfold chunk_end; simpl; lia|].
      specialize (Hf1 b Hb). unfold chunk_end in *. lia.
    + intros c Hc. apply Hprec' in Hc. apply Hc.
  - intros k Hk.
    destruct (Hcov k Hk) as [(b & Hb & Hbk)|(c & [<-|[<-|Hc]] & Hck)].
    + left. exists b. split; [now right | assumption].
    + left. eexists. split; [now left|]. apply covers_iff in Hck.
      apply covers_iff. unfold chunk_end in *; simpl. lia.
    + left. eexists. split; [now left|]. apply covers_iff in Hck.
      apply covers_iff. unfold chunk_end in *; simpl. lia.
    + right. now exists c.
  - constructor; [|assumption]. exists cur, next.
    unfold chunk_end in *. simpl.
    repeat split; try lia; apply Hincl; [now left | right; now left].
Qed.

(** Pass 2 on a well-formed input: it returns, its output is well
    formed, covers what the input covers, and every output chunk lies
    inside the span of the input chunks it was made from. *)
Lemma rechunk_spec mn mx :
  0 <= mx -> well_formed L cs0 ->
  exists out,
    a_rechunk_sentences text cs0 mn mx = Ok out
    /\ well_formed L out
    /\ (forall k, covered k cs0 -> covered k out)
    /\ Forall (spanned cs0) out.
Proof.
  intros Hmx Hwf.
  destruct (rechunk_loop_rule text mn mx (rechunk_inv L cs0)
              (rechunk_split_inv L cs0) Hmx)
    with (cs := cs0) (i := 0) (buf := @nil a_sentence_chunk_t)
    as (out & Heq & _ & Hout & _ & _ & Hcov & Hsp).
  - intros rest r buf (_ & _ & _ & (Hs & Hl & _) & _). lia.
  - exact inv_append.
  - exact inv_backward.
  - exact inv_forward.
  - exact inv_init.
  - intros rest r buf split_pt HJ Hsplit _ _. now apply inv_split.
  - exact inv_done.
  - unfold rechunk_inv.
    repeat match goal with |- _ /\ _ => split end; try assumption.
    + split; constructor.
    + apply incl_refl.
    + exists 0. split; [intros b []|].
      intros c Hc. destruct Hwf as [Hall _].
      rewrite Forall_forall in Hall. apply Hall in Hc. apply Hc.
    + intros k Hk. now right.
    + constructor.
  - lia.
  - unfold a_rechunk_sentences. rewrite Heq. exists (aml_buffer_data out).
    unfold aml_buffer_data. split; [reflexivity|].
    split; [now apply buffer_ok_array|]. split.
    + intros k Hk. apply covered_rev. destruct (Hcov k Hk) as [H|(c & [] & _)].
      exact H.
    + now apply Forall_rev.
Qed.
End Rechunk.

Lemma loop_reads_in n cond reads step j k :
  In k (loop_reads n cond reads step j) ->
  exists m : nat, In k (reads (j + Z.of_nat m * step)).
Proof.
  revert j. induction n as [|n IH]; intros j Hk; cbn [loop_reads] in Hk;
    apply in_app_or in Hk; destruct Hk as [Hk|Hk].
  - exists 0%nat. now replace (j + Z.of_nat 0 * step) with j by lia.
  - destruct Hk.
  - exists 0%nat. now replace (j + Z.of_nat 0 * step) with j by lia.
  - destruct (cond j); [|destruct Hk].
    destruct (IH _ Hk) as (m & Hm). exists (S m).
    now replace (j + Z.of_nat (S m) * step)
      with (j + step + Z.of_nat m * step) by lia.
Qed.

Lemma digits_reads_in n text pos k :
  In k (digits_reads n text pos) -> pos <= k < pos + Z.of_nat n.
Proof.
  revert pos. induction n as [|n IH]; intros pos Hk; cbn [digits_reads] in Hk;
    [destruct Hk|].
  destruct Hk as [<-|Hk]; [lia|].
  destruct (isdigit _); [|destruct Hk]. apply IH in Hk. lia.
Qed.

Lemma to_int_le i : 0 <= i -> to_int i <= i.
Proof.
  intros Hi. unfold to_int.
  pose proof (Z.mod_le (i + 2 ^ 31) (2 ^ 32) ltac:(lia) ltac:(lia)). lia.
Qed.

Lemma matches_abbreviation_reads_bound text i k :
  0 <= i -> In k (matches_abbreviation_reads text i) -> 0 <= k <= i + 1.
Proof.
  intros Hi. unfold matches_abbreviation_reads.
  destruct (i =? 0); [intros []|]. cbv zeta.
  pose proof (to_int_le i Hi) as Hti.
  pose proof (count_down_le (Z.to_nat (to_int i))
                (fun s => (0 <=? s) && negb (is_whitespace (char_at text s)))
                (to_int i - 1)) as Hsle.
  assert (Hsge : 0 <= to_int i ->
                 -1 <= count_down (Z.to_nat (to_int i))
                         (fun s => (0 <=? s)
                                   && negb (is_whitespace (char_at text s)))
                         (to_int i - 1)).
  { intros Hge. apply count_down_bound; [|lia].
    intros s Hs. apply andb_true_iff in Hs. destruct Hs as [Hs _].
    apply Z.leb_le in Hs. lia. }
  assert (Hzero : to_int i < 0 ->
                  count_down (Z.to_nat (to_int i))
                    (fun s => (0 <=? s)
                              && negb (is_whitespace (char_at text s)))
                    (to_int i - 1) = to_int i - 1).
  { intros Hlt. now replace (Z.to_nat (to_int i)) with 0%nat by lia. }
  revert Hsle Hsge Hzero.
  generalize (count_down (Z.to_nat (to_int i))
                (fun s => (0 <=? s) && negb (is_whitespace (char_at text s)))
                (to_int i - 1)) as start.
  intros start Hsle Hsge Hzero Hk.
  apply in_app_or in Hk. destruct Hk as [Hk|Hk].
  - apply loop_reads_in in Hk. destruct Hk as (m & Hm).
    destruct (0 <=? _) eqn:E; [|destruct Hm]. apply Z.leb_le in E.
    destruct Hm as [<-|[]]. lia.
  - destruct (to_int i - (start + 1) <=? 0) eqn:Elen; [destruct Hk|].
    apply Z.leb_gt in Elen.
    assert (0 <= to_int i) by (destruct (Z_lt_ge_dec (to_int i) 0) as [Hlt|];
                               [apply Hzero in Hlt|]; lia).
    specialize (Hsge ltac:(assumption)).
    split_reads; subst; try lia.
    apply in_map_iff in Hk. destruct Hk as (x & <- & Hx).
    apply in_seq in Hx. lia.
Qed.

Lemma heuristic_reads_bound text i len k :
  0 <= i < len -> In k (heuristic_reads text i len) ->
  0 <= k <= len
  /\ (k = len -> i = len - 1 /\ In k (matches_abbreviation_reads text i)).
Proof.
  intros Hi Hk.
  enough (0 <= k < len
          \/ (0 <= k <= i + 1 /\ In k (matches_abbreviation_reads text i)))
    as [Hlt | [Hle Hin]]
      by (split; [lia | intros ->; first [lia | split; [lia | assumption]]]).
  unfold heuristic_reads in Hk. cbv zeta in Hk.
  apply in_app_or in Hk. destruct Hk as [Hk|Hk].
  { destruct Hk as [<-|[]]. left. lia. }
  apply in_app_or in Hk. destruct Hk as [Hk|Hk].
  { case_if Hk E; [|destruct Hk].
    apply andb_true_iff in E. destruct E as [E E3].
    apply andb_true_iff in E. destruct E as [_ E2].
    apply Z.ltb_lt in E2, E3.
    pose proof (wrap_le (len - 1) ltac:(lia)) as Hw. unfold szsub in E3.
    destruct Hk as [<-|Hk]; [left; lia|].
    case_if Hk E; [|destruct Hk]. destruct Hk as [<-|[]]. left. lia. }
  case_if Hk Edec; [destruct Hk|].
  apply in_app_or in Hk. destruct Hk as [Hk|Hk].
  { case_if Hk E; [|destruct Hk].
    right. split; [|assumption].
    apply matches_abbreviation_reads_bound in Hk; lia. }
  case_if Hk Eabb; [destruct Hk|].
  case_if Hk Edot; [|destruct Hk].
  assert (Hws : 0 <= count_down (Z.to_nat i)
                       (fun w => (0 <? w)
                                 && negb (is_whitespace (char_at text (w - 1)))
                                 && negb (char_at text (w - 1) =? ch "."))
                       i).
  { apply count_down_bound; [|lia]. intros w Hw.
    apply andb_true_iff in Hw. destruct Hw as [Hw _].
    apply andb_true_iff in Hw. destruct Hw as [Hw _].
    apply Z.ltb_lt in Hw. lia. }
  revert Hws Hk.
  generalize (count_down (Z.to_nat i)
                (fun w => (0 <? w)
                          && negb (is_whitespace (char_at text (w - 1)))
                          && negb (char_at text (w - 1) =? ch "."))
                i) as word_start.
  intros word_start Hws Hk.
  apply in_app_or in Hk. destruct Hk as [Hk|Hk].
  { apply loop_reads_in in Hk. destruct Hk as (m & Hm).
    case_if Hm E; [|destruct Hm]. apply Z.ltb_lt in E.
    destruct Hm as [<-|[]]. left. lia. }
  apply in_app_or in Hk. destruct Hk as [Hk|Hk].
  { case_if Hk E; [destruct Hk|]. apply Z.leb_gt in E.
    apply digits_reads_in in Hk. left. lia. }
  case_if Hk Edig; [|destruct Hk].
  apply in_app_or in Hk. destruct Hk as [Hk|Hk].
  { apply loop_reads_in in Hk. destruct Hk as (m & Hm).
    case_if Hm E; [|destruct Hm]. apply Z.ltb_lt in E.
    destruct Hm as [<-|[]]. left. lia. }
  case_if Hk E; [destruct Hk|]. rewrite Z.geb_leb in E. apply Z.leb_gt in E.
  pose proof (skip_spaces_ge text (i + 1) len).
  destruct Hk as [<-|[]]. left. lia.
Qed.

Lemma agree_on_app text text' l1 l2 :
  agree_on text text' (l1 ++ l2) ->
  agree_on text text' l1 /\ agree_on text text' l2.
Proof.
  intros H. split; intros k Hk; apply H, in_or_app; auto.
Qed.

Lemma agree_on_cons text text' x l :
  agree_on text text' (x :: l) ->
  char_at text x = char_at text' x /\ agree_on text text' l.
Proof.
  intros H. split; [apply H; now left | intros k Hk; apply H; now right].
Qed.

Lemma count_loop_agree text text' n cond cond' reads :
  (forall s, agree_on text text' (reads s) -> cond s = cond' s) ->
  forall j,
    (agree_on text text' (loop_reads n cond reads (-1) j) ->
     count_down n cond j = count_down n cond' j)
    /\ (agree_on text text' (loop_reads n cond reads 1 j) ->
        count_up n cond j = count_up n cond' j).
Proof.
  intros Hc. induction n as [|n IH]; intros j; [now split|].
  cbn [loop_reads count_down count_up].
  split; intros H; apply agree_on_app in H; destruct H as [H1 H2];
    rewrite <- (Hc j H1); destruct (cond j); try reflexivity.
  - replace (j - 1) with (j + -1) by lia. now apply IH.
  - now apply IH.
Qed.

Lemma slice_agree text text' from n :
  agree_on text text'
    (map (fun k => from + Z.of_nat k) (seq 0 (Z.to_nat n))) ->
  slice text from n = slice text' from n.
Proof.
  intros H. unfold slice. apply map_ext_in. intros k Hk. apply H.
  apply in_map_iff. now exists k.
Qed.

Lemma digits_agree text text' n :
  forall pos,
    agree_on text text' (digits_reads n text pos) ->
    forallb isdigit (map (fun k => char_at text (pos + Z.of_nat k)) (seq 0 n))
    = forallb isdigit
        (map (fun k => char_at text' (pos + Z.of_nat k)) (seq 0 n)).
Proof.
  induction n as [|n IH]; intros pos H; [reflexivity|].
  cbn [digits_reads] in H. apply agree_on_cons in H. destruct H as [H0 H].
  cbn [seq map forallb]. replace (pos + Z.of_nat 0) with pos by lia.
  rewrite <- H0. destruct (isdigit (char_at text pos)); [|reflexivity].
  cbn [andb]. rewrite <- !seq_shift, !map_map. specialize (IH (pos + 1) H).
  erewrite map_ext; [rewrite IH|]; [apply f_equal, map_ext|]; intros k;
    cbv beta; f_equal; lia.
Qed.

Lemma is_just_digits_agree text text' start i :
  agree_on text text'
    (if i <=? start then []
     else digits_reads (Z.to_nat (i - start)) text start) ->
  is_just_digits text start i = is_just_digits text' start i.
Proof.
  unfold is_just_digits, slice. destruct (i <=? start); [reflexivity|].
  apply digits_agree.
Qed.

Lemma matches_abbreviation_agree text text' i :
  agree_on text text' (matches_abbreviation_reads text i) ->
  matches_abbreviation text i = matches_abbreviation text' i.
Proof.
  unfold matches_abbreviation_reads, matches_abbreviation.
  destruct (i =? 0); [reflexivity|]. cbv zeta. intros H.
  apply agree_on_app in H. destruct H as [Hloop H].
  assert (Hstart :
            count_down (Z.to_nat (to_int i))
              (fun s => (0 <=? s) && negb (is_whitespace (char_at text s)))
              (to_int i - 1)
            = count_down (Z.to_nat (to_int i))
                (fun s => (0 <=? s) && negb (is_whitespace (char_at text' s)))
                (to_int i - 1)).
  { refine (proj1 (count_loop_agree text text' _ _ _ _ _ _) Hloop).
    intros s Hs. cbv beta. destruct (0 <=? s); [|reflexivity].
    apply agree_on_cons in Hs. destruct Hs as [-> _]. reflexivity. }
  rewrite <- Hstart. clear Hstart Hloop. revert H.
  generalize (count_down (Z.to_nat (to_int i))
                (fun s => (0 <=? s) && negb (is_whitespace (char_at text s)))
                (to_int i - 1)) as start.
  intros start H.
  destruct (to_int i - (start + 1) <=? 0); [reflexivity|].
  apply agree_on_cons in H. destruct H as [Hnext H]. rewrite <- Hnext.
  destruct (is_alpha (char_at text (i + 1))); [reflexivity|].
  apply agree_on_app in H. destruct H as [Hfirst H].
  destruct (to_int i - (start + 1) =? 1).
  - apply agree_on_cons in Hfirst. destruct Hfirst as [Hfirst _].
    rewrite <- Hfirst. cbn [andb] in *.
    destruct (isupper (char_at text (start + 1))); [reflexivity|].
    destruct (negb (is_whitespace (char_at text (i + 1)))); [reflexivity|].
    apply agree_on_app in H. destruct H as [_ H].
    destruct (_ >=? 32); [reflexivity|].
    now rewrite (slice_agree text text' _ _ H).
  - cbn [andb] in *. apply agree_on_app in H. destruct H as [_ H].
    destruct (_ >=? 32); [reflexivity|].
    now rewrite (slice_agree text text' _ _ H).
Qed.

(** The verdict of the heuristic only depends on the bytes at the indices
    listed by [heuristic_reads]. *)
Lemma heuristic_reads_sound text text' i len :
  agree_on text text' (heuristic_reads text i len) ->
  is_end_of_sentence_heuristic text i len
  = is_end_of_sentence_heuristic text' i len.
Proof.
  unfold heuristic_reads, is_end_of_sentence_heuristic. cbv zeta. intros H.
  apply agree_on_cons in H. destruct H as [Hc H]. rewrite <- Hc.
  apply agree_on_app in H. destruct H as [Hdec H].
  assert (Edec :
            (char_at text i =? ch ".") && (0 <? i) && (i <? szsub len 1)
            && isdigit (char_at text (i - 1)) && isdigit (char_at text (i + 1))
            = (char_at text i =? ch ".") && (0 <? i) && (i <? szsub len 1)
              && isdigit (char_at text' (i - 1))
              && isdigit (char_at text' (i + 1))).
  { destruct ((char_at text i =? ch ".") && (0 <? i) && (i <? szsub len 1));
      [|reflexivity].
    apply agree_on_cons in Hdec. destruct Hdec as [Hp Hdec]. rewrite <- Hp.
    destruct (isdigit (char_at text (i - 1))); [|reflexivity].
    apply agree_on_cons in Hdec. destruct Hdec as [Hn _]. now rewrite <- Hn. }
  rewrite <- Edec. clear Edec Hdec.
  destruct (_ && isdigit (char_at text (i + 1))); [reflexivity|].
  apply agree_on_app in H. destruct H as [Habb H].
  destruct (char_at text i =? ch "."); [|reflexivity]. cbn [andb] in *.
  rewrite <- (matches_abbreviation_agree text text' i Habb).
  destruct (matches_abbreviation text i); [reflexivity|].
  apply agree_on_app in H. destruct H as [Hloop H].
  assert (Hstart :
            count_down (Z.to_nat i)
              (fun w => (0 <? w)
                        && negb (is_whitespace (char_at text (w - 1)))
                        && negb (char_at text (w - 1) =? ch "."))
              i
            = count_down (Z.to_nat i)
                (fun w => (0 <? w)
                          && negb (is_whitespace (char_at text' (w - 1)))
                          && negb (char_at text' (w - 1) =? ch "."))
                i).
  { refine (proj1 (count_loop_agree text text' _ _ _ _ _ _) Hloop).
    intros w Hw. cbv beta. destruct (0 <? w); [|reflexivity].
    apply agree_on_cons in Hw. destruct Hw as [-> _]. reflexivity. }
  rewrite <- Hstart. clear Hstart Hloop. revert H.
  generalize (count_down (Z.to_nat i)
                (fun w => (0 <? w)
                          && negb (is_whitespace (char_at text (w - 1)))
                          && negb (char_at text (w - 1) =? ch "."))
                i) as word_start.
  intros word_start H.
  apply agree_on_app in H. destruct H as [Hdig H].
  rewrite <- (is_just_digits_agree text text' word_start i Hdig).
  destruct (is_just_digits text word_start i); [|reflexivity].
  apply agree_on_app in H. destruct H as [Hskip H].
  assert (Hj : skip_spaces text (i + 1) len = skip_spaces text' (i + 1) len).
  { unfold skip_spaces.
    refine (proj2 (count_loop_agree text text' _ _ _ _ _ _) Hskip).
    intros j Hj. cbv beta. destruct (j <? len); [|reflexivity].
    apply agree_on_cons in Hj. destruct Hj as [-> _]. reflexivity. }
  rewrite <- Hj.
  destruct (skip_spaces text (i + 1) len >=? len); [reflexivity|].
  apply agree_on_cons in H. destruct H as [-> _]. reflexivity.
Qed.

(* ------------------------------------------------------------------ *)
(** ** Coverage counts *)

Lemma cover_count_pos k cs : (0 < cover_count k cs)%nat <-> covered k cs.
Proof.
  unfold cover_count, covered. induction cs as [|c cs IH]; simpl.
  - split; [lia | intros (c & [] & _)].
  - destruct (covers k c) eqn:E; simpl.
    + split; [|lia]. intros _. exists c. split; [now left | assumption].
    + rewrite IH. split.
      * intros (x & Hx & Hk). exists x. split; [now right | assumption].
      * intros (x & [<-|Hx] & Hk); [congruence|]. now exists x.
Qed.

Lemma cover_count_sorted k cs :
  StronglySorted precedes cs -> (cover_count k cs <= 1)%nat.
Proof.
  unfold cover_count. induction 1 as [|c cs Hs IH Hc]; simpl; [lia|].
  destruct (covers k c) eqn:E; [|assumption]. simpl.
  enough (filter (covers k) cs = []) as -> by (simpl; lia).
  apply covers_iff in E. rewrite Forall_forall in Hc.
  clear IH Hs. induction cs as [|x cs IH]; [reflexivity|]. simpl.
  destruct (covers k x) eqn:Ex.
  - apply covers_iff in Ex. destruct (Hc x (or_introl eq_refl)). lia.
  - apply IH. intros y Hy. apply Hc. now right.
Qed.

Lemma char_at_strlen text : char_at text (strlen text) = 0.
Proof.
  induction text as [|c rest IH]; [reflexivity|]. cbn [strlen].
  destruct (c =? 0) eqn:Ec.
  - apply Z.eqb_eq in Ec. now subst c.
  - pose proof (strlen_nonneg rest) as Hn. unfold char_at in *.
    replace (1 + strlen rest <? 0) with false by (symmetry; apply Z.ltb_ge; lia).
    replace (strlen rest <? 0) with false in IH
      by (symmetry; apply Z.ltb_ge; lia).
    replace (Z.to_nat (1 + strlen rest)) with (S (Z.to_nat (strlen rest)))
      by lia.
    exact IH.
Qed.

Lemma whitespace_not_punct c :
  is_whitespace c = true -> is_sentence_punct c = false.
Proof.
  intros Hw. destruct (is_sentence_punct c) eqn:Ep; [|reflexivity].
  apply punct_not_whitespace in Ep. congruence.
Qed.

Lemma whitespace_not_nul c : is_whitespace c = true -> c <> 0.
Proof. intros Hw ->. discriminate. Qed.

Lemma no_terminal_punctuation_spec text :
  no_terminal_punctuation text = true ->
  forall p, 0 <= p < strlen text ->
            is_sentence_punct (char_at text p) = true ->
            is_end_of_sentence_heuristic text p (strlen text) = false.
Proof.
  unfold no_terminal_punctuation. rewrite forallb_forall.
  intros H p Hp Hpunct. specialize (H p).
  rewrite Hpunct in H. simpl in H. apply negb_true_iff. apply H.
  apply in_map_iff. exists (Z.to_nat p). split; [lia|].
  apply in_seq. lia.
Qed.

(* ------------------------------------------------------------------ *)
(** ** The scenarios of the spec on which the embedding agrees *)

Example scenario_two_sentences :
  S_of "Hello world. This is a test."
  = Some [bytes_of_string "Hello world."; bytes_of_string "This is a test."].
Proof. vm_compute. reflexivity. Qed.

Example scenario_decimal :
  S_of "Pi is 3.14 exactly. Right?"
  = Some [bytes_of_string "Pi is 3.14 exactly."; bytes_of_string "Right?"].
Proof. vm_compute. reflexivity. Qed.

Example scenario_abbreviations :
  S_of "Dr. Smith met Mr. Jones on St. Paul Ave."
  = Some [bytes_of_string "Dr. Smith met Mr. Jones on St. Paul Ave."].
Proof. vm_compute. reflexivity. Qed.

Example scenario_punctuation_runs :
  S_of "Wait... Really?! Yes."
  = Some [bytes_of_string "Wait..."; bytes_of_string "Really?!";
          bytes_of_string "Yes."].
Proof. vm_compute. reflexivity. Qed.

Example scenario_short_chunk_kept :
  a_rechunk_sentences (bytes_of_string "Hi. It works fine now.")
    [mk_chunk 0 3; mk_chunk 4 18] 5 20
  = Ok [mk_chunk 0 3; mk_chunk 4 18].
Proof. vm_compute. reflexivity. Qed.

Example scenario_long_chunk_split :
  a_rechunk_sentences
    (bytes_of_string "alpha beta gamma delta epsilon zeta eta theta")
    [mk_chunk 0 44] 5 20
  = Ok [mk_chunk 0 16; mk_chunk 16 19; mk_chunk 35 9].
Proof. vm_compute. reflexivity. Qed.

(* ------------------------------------------------------------------ *)
(** ** The properties of the spec *)

(** C1, as the spec states it, fails: on the text "Hi. Yo." pass 1 emits the
    chunks (0,3) and (4,3), and pass 2 with min_length 5 and max_length 20
    merges them forward into (0,7), which covers the byte 3 of the gap that
    no input chunk covers.  The amended property is proved in the last part
    of the file, from the loop rule with the guards of the branches. *)
Lemma rechunk_coverage_counterexample :
  let text := bytes_of_string "Hi. Yo." in
  let cs := [mk_chunk 0 3; mk_chunk 4 3] in
  a_sentence_chunker text = Ok cs
  /\ a_rechunk_sentences text cs 5 20 = Ok [mk_chunk 0 7]
  /\ ~ (forall k, cover_count k [mk_chunk 0 7] = cover_count k cs).
Proof.
  split; [vm_compute; reflexivity|]. split; [vm_compute; reflexivity|].
  intros H. specialize (H 3). vm_compute in H. discriminate H.
Qed.

(** C2, as the spec states it, fails for pass 2: the chunks (3,2) and (0,2)
    both lie within the text "ab cd", pass 2 with min_length 0 and max_length
    5 appends each unchanged (case 1), and the output is not increasing. *)
Lemma rechunk_unsorted_input_counterexample :
  let text := bytes_of_string "ab cd" in
  let cs := [mk_chunk 3 2; mk_chunk 0 2] in
  Forall (fun c => 0 <= start_offset c /\ 0 < length c
                   /\ chunk_end c <= strlen text) cs
  /\ a_rechunk_sentences text cs 0 5 = Ok cs
  /\ ~ StronglySorted precedes cs.
Proof.
  split; [repeat constructor; vm_compute; congruence|].
  split; [vm_compute; reflexivity|].
  intros H. apply StronglySorted_inv in H. destruct H as [_ H].
  inversion H as [|? ? [H1 _] _]; subst. simpl in H1. lia.
Qed.

(** C2 (amended).  For every text of length [L], every chunk [(s, l)] that
    pass 1 emits satisfies [s + l <= L] and [l > 0], and the emitted sequence
    is strictly increasing in [start_offset] with non-overlapping ranges; the
    same holds of what pass 2 emits when its input sequence itself has these
    properties. *)
Theorem emitted_chunks_well_formed text :
  strlen text < SIZE_MOD ->
  (exists cs,
      a_sentence_chunker text = Ok cs /\ well_formed (strlen text) cs)
  /\ (forall cs mn mx,
         in_size_t mn -> in_size_t mx -> well_formed (strlen text) cs ->
         exists out,
           a_rechunk_sentences text cs mn mx = Ok out
           /\ well_formed (strlen text) out).
Proof.
  intros HL. split.
  - destruct (a_sentence_chunker_spec text HL) as (cs & Heq & Hwf & _).
    now exists cs.
  - intros cs mn mx _ [Hmx _] Hwf.
    destruct (rechunk_spec text (strlen text) cs HL mn mx Hmx Hwf)
      as (out & Heq & Hout & _).
    now exists out.
Qed.

Lemma emitted_chunks_well_formed_witness :
  let text := bytes_of_string "Hi. It works fine now." in
  strlen text < SIZE_MOD
  /\ (exists cs,
         a_sentence_chunker text = Ok cs /\ well_formed (strlen text) cs)
  /\ (forall cs mn mx,
         in_size_t mn -> in_size_t mx -> well_formed (strlen text) cs ->
         exists out,
           a_rechunk_sentences text cs mn mx = Ok out
           /\ well_formed (strlen text) out).
Proof.
  split; [vm_compute; reflexivity|].
  apply (emitted_chunks_well_formed
           (bytes_of_string "Hi. It works fine now.")).
  vm_compute. reflexivity.
Defined.

(** C3, as the spec states it, fails: pass 1 does not return the single chunk
    (0,29) on "1. First item 2. Second item.". *)
Lemma ordinal_scenario_counterexample :
  a_sentence_chunker (bytes_of_string "1. First item 2. Second item.")
  <> Ok [mk_chunk 0 29].
Proof. intros H. vm_compute in H. discriminate H. Qed.

(** C3 (amended).  Pass 1 applied to "1. First item 2. Second item." returns
    the three chunks "1.", "First item 2." and "Second item.": the ordinal
    rule declares a dot after an all-digit word not terminal only when the
    next non-whitespace byte is at the end of the text, a digit or lower-case,
    and here it is the upper-case 'F' and 'S', so both dots are terminal.
    With lower-case items the dots are suppressed and the result is one chunk
    covering the whole string. *)
Theorem ordinal_scenario :
  let text := bytes_of_string "1. First item 2. Second item." in
  a_sentence_chunker text = Ok [mk_chunk 0 2; mk_chunk 3 13; mk_chunk 17 12]
  /\ is_end_of_sentence_heuristic text 1 29 = true
  /\ is_end_of_sentence_heuristic text 15 29 = true
  /\ a_sentence_chunker (bytes_of_string "1. first item 2. second item.")
     = Ok [mk_chunk 0 29].
Proof. repeat split; vm_compute; reflexivity. Qed.

(** C4, as the spec states it, fails: on the text of three spaces pass 1
    does not return the empty sequence. *)
Lemma whitespace_only_counterexample :
  let text := bytes_of_string "   " in
  text <> []
  /\ forallb is_whitespace text = true
  /\ a_sentence_chunker text <> Ok [].
Proof.
  split; [discriminate|]. split; [vm_compute; reflexivity|].
  intros H. vm_compute in H. discriminate H.
Qed.

(** C4 (amended).  For every non-empty text consisting entirely of whitespace
    bytes, pass 1 returns exactly one chunk, which covers the whole text: the
    scan emits nothing and the leftover path only requires
    [start_off < len]. *)
Theorem whitespace_only_text_single_chunk text :
  text <> [] ->
  Forall (fun c => is_whitespace c = true) text ->
  Z.of_nat (List.length text) < SIZE_MOD ->
  a_sentence_chunker text = Ok [mk_chunk 0 (Z.of_nat (List.length text))].
Proof.
  intros Hne Hws HL.
  assert (Hlen : strlen text = Z.of_nat (List.length text)).
  { apply strlen_no_nul. eapply Forall_impl; [|exact Hws].
    intros c. apply whitespace_not_nul. }
  rewrite <- Hlen in *. apply single_chunk_of_scan; [|assumption|].
  - destruct text as [|c rest]; [congruence|].
    change (char_at (c :: rest) 0) with c.
    inversion Hws; subst. now apply whitespace_not_nul.
  - intros p Hp Hpunct. rewrite Hlen in Hp.
    pose proof (char_at_in text p Hp) as Hin.
    rewrite Forall_forall in Hws. apply Hws in Hin.
    apply whitespace_not_punct in Hin. congruence.
Qed.

Lemma whitespace_only_text_single_chunk_witness :
  a_sentence_chunker (bytes_of_string "   ") = Ok [mk_chunk 0 3].
Proof.
  apply (whitespace_only_text_single_chunk (bytes_of_string "   ")).
  - discriminate.
  - repeat constructor.
  - vm_compute. reflexivity.
Defined.

(** C5, as the spec states it, fails: the text " a" has no punctuation at
    all, its first non-whitespace byte is at index 1, and the single chunk
    pass 1 returns starts at 0, not at 1. *)
Lemma leading_whitespace_counterexample :
  let text := bytes_of_string " a" in
  no_terminal_punctuation text = true
  /\ skip_spaces text 0 (strlen text) = 1
  /\ a_sentence_chunker text = Ok [mk_chunk 0 2]
  /\ a_sentence_chunker text
     <> Ok [mk_chunk (skip_spaces text 0 (strlen text))
                     (strlen text - skip_spaces text 0 (strlen text))].
Proof.
  repeat split; try (vm_compute; reflexivity).
  intros H. vm_compute in H. discriminate H.
Qed.

(** C5 (amended).  For every non-empty text in which no punctuation byte is
    classified as terminal by the end-of-sentence heuristic, pass 1 returns
    exactly one chunk, which spans the whole text from index 0 to its end,
    leading whitespace included. *)
Theorem no_terminal_punctuation_single_chunk text :
  char_at text 0 <> 0 -> strlen text < SIZE_MOD ->
  (forall p, 0 <= p < strlen text ->
             is_sentence_punct (char_at text p) = true ->
             is_end_of_sentence_heuristic text p (strlen text) = false) ->
  a_sentence_chunker text = Ok [mk_chunk 0 (strlen text)].
Proof. exact (single_chunk_of_scan text). Qed.

Lemma no_terminal_punctuation_single_chunk_witness :
  a_sentence_chunker (bytes_of_string " Pi is 3.14")
  = Ok [mk_chunk 0 (strlen (bytes_of_string " Pi is 3.14"))].
Proof.
  apply (no_terminal_punctuation_single_chunk
           (bytes_of_string " Pi is 3.14")).
  - vm_compute. discriminate.
  - vm_compute. reflexivity.
  - apply no_terminal_punctuation_spec. vm_compute. reflexivity.
Defined.

(** C6.  Every boundary of the output of pass 2 (the start or the end of an
    output chunk) that is not already a boundary of the input sequence lies
    on a whitespace byte of the text, so that [text[j-1]] and [text[j]] are
    never both non-whitespace there: no split cuts a token. *)
Theorem split_boundaries_on_whitespace text cs mn mx :
  Forall (fun c => in_size_t (start_offset c) /\ in_size_t (length c)) cs ->
  in_size_t mn -> in_size_t mx ->
  exists out,
    a_rechunk_sentences text cs mn mx = Ok out
    /\ forall c j,
        In c out -> j = start_offset c \/ j = wrapped_end c ->
        input_boundary cs j
        \/ (is_whitespace (char_at text j) = true
            /\ ~ (is_whitespace (char_at text (j - 1)) = false
                  /\ is_whitespace (char_at text j) = false)).
Proof.
  intros Hcs _ [Hmx _].
  destruct (boundaries_preserved text cs mn mx 0 Hmx) as (buf & Heq & Hbuf).
  - eapply Forall_impl; [|exact Hcs]. intros c [[Hs _] [Hl _]]. now split.
  - lia.
  - unfold a_rechunk_sentences. rewrite Heq. exists (aml_buffer_data buf).
    split; [reflexivity|]. intros c j Hc Hj.
    unfold aml_buffer_data in Hc. apply in_rev in Hc.
    rewrite Forall_forall in Hbuf. destruct (Hbuf c Hc) as [Hstart Hend].
    assert (Hok : boundary_ok text cs j) by (destruct Hj; now subst j).
    destruct Hok as [Hin|Hws]; [now left | right].
    split; [assumption|]. intros [_ Hfalse]. congruence.
Qed.

Lemma split_boundaries_on_whitespace_witness :
  exists out,
    a_rechunk_sentences
      (bytes_of_string "alpha beta gamma delta epsilon zeta eta theta")
      [mk_chunk 0 44] 5 20 = Ok out
    /\ forall c j,
        In c out -> j = start_offset c \/ j = wrapped_end c ->
        input_boundary [mk_chunk 0 44] j
        \/ (is_whitespace
              (char_at
                 (bytes_of_string
                    "alpha beta gamma delta epsilon zeta eta theta") j) = true
            /\ ~ (is_whitespace
                    (char_at
                       (bytes_of_string
                          "alpha beta gamma delta epsilon zeta eta theta")
                       (j - 1)) = false
                  /\ is_whitespace
                       (char_at
                          (bytes_of_string
                             "alpha beta gamma delta epsilon zeta eta theta")
                          j) = false)).
Proof.
  apply (split_boundaries_on_whitespace
           (bytes_of_string "alpha beta gamma delta epsilon zeta eta theta")
           [mk_chunk 0 44] 5 20).
  - repeat constructor; vm_compute; congruence.
  - split; vm_compute; congruence.
  - split; vm_compute; congruence.
Defined.

(** C7, as the spec states it, fails: for the dot at the last index 5 of
    "Hello." the abbreviation check reads [text[6]], the byte at index
    [L = 6]. *)
Lemma heuristic_reads_terminator_counterexample :
  let text := bytes_of_string "Hello." in
  strlen text = 6
  /\ In 6 (matches_abbreviation_reads text 5)
  /\ ~ (forall k, In k (heuristic_reads text 5 (strlen text)) ->
                  k < strlen text).
Proof.
  split; [vm_compute; reflexivity|]. split.
  - vm_compute. tauto.
  - intros H. specialize (H 6). vm_compute in H.
    assert (Hlt : (6 ?= 6) = Lt) by (apply H; tauto). discriminate Hlt.
Qed.

(** C7 (amended).  For every text of length [L] and every index [p < L],
    every byte the end-of-sentence heuristic reads at [p] lies at an index in
    [0, L], inside the NUL-terminated buffer; the index [L], which holds the
    terminator, is read only when [p = L - 1] and only by the abbreviation
    check, whose [text[p+1]] has no bound to compare with.  (By
    [heuristic_reads_sound] the verdict of the heuristic depends on no other
    byte than those listed by [heuristic_reads].) *)
Theorem heuristic_reads_within_terminated_text text p k :
  0 <= p < strlen text ->
  In k (heuristic_reads text p (strlen text)) ->
  0 <= k <= strlen text
  /\ (k = strlen text ->
      p = strlen text - 1
      /\ In k (matches_abbreviation_reads text p)
      /\ char_at text k = 0).
Proof.
  intros Hp Hk.
  destruct (heuristic_reads_bound text p (strlen text) k Hp Hk) as [Hr Hl].
  split; [assumption|]. intros ->. destruct (Hl eq_refl) as [Hlast Hin].
  repeat split; try assumption. apply char_at_strlen.
Qed.

Lemma heuristic_reads_within_terminated_text_witness :
  let text := bytes_of_string "Hello." in
  0 <= 6 <= strlen text
  /\ (6 = strlen text ->
      5 = strlen text - 1
      /\ In 6 (matches_abbreviation_reads text 5)
      /\ char_at text 6 = 0).
Proof.
  apply (heuristic_reads_within_terminated_text
           (bytes_of_string "Hello.") 5 6).
  - vm_compute. split; congruence.
  - vm_compute. tauto.
Defined.

(** C8.  In pass 2 the record before [aml_buffer_end(second_buffer)] is only
    accessed when the buffer holds a record: every iteration of the loop over
    the input leaves the buffer non-empty, so the guard [i > 0] of the
    backward merge implies that a last record exists. *)
Theorem backward_merge_access_valid text cs mn mx :
  a_rechunk_sentences text cs mn mx <> InvalidLastAccess.
Proof.
  unfold a_rechunk_sentences.
  pose proof (rechunk_loop_last_valid text mn mx cs 0 [] ltac:(lia)) as H.
  destruct (rechunk_loop text mn mx 0 cs []); congruence.
Qed.

(** C9.  The split loop of case 3 terminates: run for at least
    [remaining.length] rounds it returns a buffer, because a split point that
    the loop accepts lies strictly between the start and the end of the
    remaining chunk, which leaves a remaining length that is positive and
    strictly smaller. *)
Theorem split_loop_terminates text mn mx r buf :
  in_size_t (start_offset r) -> in_size_t (length r) ->
  in_size_t mn -> in_size_t mx ->
  (forall fuel, (Z.to_nat (length r) <= fuel)%nat ->
                exists out, split_loop fuel text mn mx r buf = Ok out)
  /\ (let split_pt :=
        find_split_point text (start_offset r) (length r) mn mx in
      (split_pt <=? start_offset r)
      || (split_pt >=? szadd (start_offset r) (length r)) = false ->
      start_offset r < split_pt < start_offset r + length r
      /\ 0 < szsub (szadd (start_offset r) (length r)) split_pt < length r).
Proof.
  intros [Hs _] [Hl _] _ [Hmx _]. split.
  - intros fuel Hfuel.
    destruct (split_loop_rule text mn mx
                (fun r _ => 0 <= start_offset r /\ 0 <= length r) Hmx)
      with (fuel := fuel) (r := r) (buf := buf) as (r' & buf' & Heq & _).
    + tauto.
    + intros r0 buf0 split_pt [Hs0 Hl0] Hsplit Hle _. simpl. lia.
    + now split.
    + assumption.
    + now exists (r' :: buf').
  - cbv zeta. intros Hacc.
    destruct (accepted_split text r mn mx Hs Hl Hacc)
      as (Hin & Hle & _ & _ & _ & E2).
    rewrite E2. lia.
Qed.

Lemma split_loop_terminates_witness :
  let text :=
    bytes_of_string "alpha beta gamma delta epsilon zeta eta theta" in
  let r := mk_chunk 0 44 in
  (forall fuel, (Z.to_nat (length r) <= fuel)%nat ->
                exists out, split_loop fuel text 5 20 r [] = Ok out)
  /\ (let split_pt :=
        find_split_point text (start_offset r) (length r) 5 20 in
      (split_pt <=? start_offset r)
      || (split_pt >=? szadd (start_offset r) (length r)) = false ->
      start_offset r < split_pt < start_offset r + length r
      /\ 0 < szsub (szadd (start_offset r) (length r)) split_pt < length r).
Proof.
  apply (split_loop_terminates
           (bytes_of_string "alpha beta gamma delta epsilon zeta eta theta")
           5 20 (mk_chunk 0 44) []);
    split; vm_compute; congruence.
Defined.

(** C10.  Every chunk that pass 1 emits other than the first begins with a
    non-whitespace byte: after a terminal punctuation the next chunk's start
    is moved past all whitespace.  (The first chunk starts at index 0,
    whatever byte is there.) *)
Theorem later_chunks_start_non_whitespace text :
  strlen text < SIZE_MOD ->
  exists cs,
    a_sentence_chunker text = Ok cs
    /\ forall n c,
        nth_error cs (S n) = Some c ->
        is_whitespace (char_at text (start_offset c)) = false.
Proof.
  intros HL.
  destruct (a_sentence_chunker_spec text HL) as (cs & Heq & Hwf & Hclean).
  exists cs. split; [assumption|]. intros n c Hn.
  destruct cs as [|c0 rest]; [discriminate|]. simpl in Hn.
  apply nth_error_In in Hn.
  destruct (well_formed_inv _ _ _ Hwf) as ((Hs0 & _) & _ & Hprec).
  destruct (Hprec c Hn) as [Hlt _].
  rewrite Forall_forall in Hclean.
  destruct (Hclean c (or_intror Hn)) as [H0|Hw]; [lia | assumption].
Qed.

Lemma later_chunks_start_non_whitespace_witness :
  let text := bytes_of_string "  Wait...   Really?!  Yes." in
  exists cs,
    a_sentence_chunker text = Ok cs
    /\ forall n c,
        nth_error cs (S n) = Some c ->
        is_whitespace (char_at text (start_offset c)) = false.
Proof.
  apply (later_chunks_start_non_whitespace
           (bytes_of_string "  Wait...   Really?!  Yes.")).
  vm_compute. reflexivity.
Defined.

(** The first chunk may begin with whitespace: leading whitespace is never
    skipped. *)
Example first_chunk_keeps_leading_whitespace :
  a_sentence_chunker (bytes_of_string "  Wait...   Really?!  Yes.")
  = Ok [mk_chunk 0 9; mk_chunk 12 8; mk_chunk 22 4].
Proof. vm_compute. reflexivity. Qed.

(* ================================================================== *)
(** * Further properties of the code *)

(* ------------------------------------------------------------------ *)
(** ** Pass 1: a proof rule for the scan *)

(** An invariant [I] of the candidate start, the cursor and the buffer that
    the three branches of the loop body preserve holds when the loop ends,
    where the capture of the leftover turns it into [F]; and the scan
    returns. *)
Lemma sentence_scan_rule text len
  (I : Z -> Z -> list a_sentence_chunk_t -> Prop)
  (F : list a_sentence_chunk_t -> Prop) :
  len < SIZE_MOD ->
  (forall so i bh,
      I so i bh -> 0 <= i < len -> 0 <= so <= len ->
      is_sentence_punct (char_at text i) = false ->
      I so (i + 1) bh) ->
  (forall so i bh,
      I so i bh -> 0 <= so <= i -> i < len ->
      is_sentence_punct (char_at text i) = true ->
      is_end_of_sentence_heuristic text
        (consume_multiple_punctuation text i len) len = false ->
      I so (consume_multiple_punctuation text i len + 1) bh) ->
  (forall so i bh,
      I so i bh -> 0 <= so <= i -> i < len ->
      is_sentence_punct (char_at text i) = true ->
      is_end_of_sentence_heuristic text
        (consume_multiple_punctuation text i len) len = true ->
      let lc :=
        consume_trailing_closers text
          (consume_multiple_punctuation text i len) len in
      I (skip_spaces text (lc + 1) len) (lc + 1)
        (mk_chunk so (lc + 1 - so) :: bh)) ->
  (forall so bh,
      I so len bh -> 0 <= so < len -> F (mk_chunk so (len - so) :: bh)) ->
  (forall bh, I len len bh -> F bh) ->
  forall fuel so i bh,
    0 <= i <= len -> 0 <= so <= len ->
    (forall k, i <= k < so -> is_whitespace (char_at text k) = true) ->
    len - i <= Z.of_nat fuel ->
    I so i bh ->
    exists out, sentence_scan fuel text len so i bh = Ok out /\ F out.
Proof.
  intros Hlen Hbyte Hskip Hcut Hleft Hnone.
  assert (Hend : forall fuel so bh,
             0 <= so <= len -> I so len bh ->
             exists out,
               sentence_scan fuel text len so len bh = Ok out /\ F out).
  { intros fuel so bh Hso HI.
    assert (E : sentence_scan fuel text len so len bh
                = sentence_scan 0 text len so len bh).
    { destruct fuel; cbn [sentence_scan]; now rewrite Z.ltb_irrefl. }
    rewrite E. cbn [sentence_scan]. rewrite Z.ltb_irrefl.
    destruct (so <? len) eqn:Eso.
    - apply Z.ltb_lt in Eso. unfold szsub. rewrite wrap_small by lia.
      replace (0 <? len - so) with true by (symmetry; apply Z.ltb_lt; lia).
      eexists. split; [reflexivity|]. apply Hleft; [assumption | lia].
    - apply Z.ltb_ge in Eso. assert (so = len) by lia. subst so.
      eexists. split; [reflexivity|]. now apply Hnone. }
  induction fuel as [|fuel IH]; intros so i bh Hi Hso Hgap Hfuel HI.
  - assert (i = len) by lia. subst i. now apply Hend.
  - destruct (Z.eq_dec i len) as [->|Hne]; [now apply Hend|].
    assert (Ei : i < len) by lia. cbn [sentence_scan].
    replace (i <? len) with true by (symmetry; apply Z.ltb_lt; lia).
    destruct (is_sentence_punct (char_at text i)) eqn:Ep.
    + assert (Hsoi : so <= i).
      { destruct (Z_le_gt_dec so i) as [|Hgt]; [assumption|].
        apply punct_not_whitespace in Ep. rewrite Hgap in Ep by lia.
        discriminate. }
      pose proof (consume_multiple_punctuation_range text i len Ei) as Hlp.
      destruct (is_end_of_sentence_heuristic text
                  (consume_multiple_punctuation text i len) len) eqn:Eh.
      * pose proof (consume_trailing_closers_range text
                      (consume_multiple_punctuation text i len) len
                      ltac:(lia)) as Hlc.
        specialize (Hcut so i bh HI ltac:(lia) Ei Ep Eh). cbv zeta in Hcut.
        revert Hlc Hcut.
        generalize (consume_trailing_closers text
                      (consume_multiple_punctuation text i len) len) as lc.
        intros lc Hlc Hcut.
        unfold szsub. rewrite wrap_small by lia.
        replace (0 <? lc + 1 - so) with true
          by (symmetry; apply Z.ltb_lt; lia).
        pose proof (skip_spaces_ge text (lc + 1) len) as Hge.
        pose proof (skip_spaces_le text (lc + 1) len ltac:(lia)) as Hle.
        apply IH; try lia; [|exact Hcut].
        intros k Hk. now apply skip_spaces_gap with (lc + 1) len.
      * apply IH; try lia.
        apply Hskip; (assumption || lia).
    + apply IH; try lia.
      * intros k Hk. apply Hgap. lia.
      * apply Hbyte; (assumption || lia).
Qed.

Lemma strlen_empty text : char_at text 0 = 0 -> strlen text = 0.
Proof.
  destruct text as [|c rest]; [reflexivity|].
  change (char_at (c :: rest) 0) with c. intros ->. reflexivity.
Qed.

Lemma covered_cons k c cs : covered k cs -> covered k (c :: cs).
Proof. intros (x & Hx & Hk). exists x. split; [now right | assumption]. Qed.

Lemma covered_here k c cs :
  start_offset c <= k < chunk_end c -> covered k (c :: cs).
Proof. intros Hk. exists c. split; [now left | now apply covers_iff]. Qed.

(** Pass 1 leaves out whitespace only. *)
Lemma sentence_scan_covers text :
  strlen text < SIZE_MOD ->
  exists out,
    sentence_scan (Z.to_nat (strlen text)) text (strlen text) 0 0 [] = Ok out
    /\ forall k, 0 <= k < strlen text ->
                 is_whitespace (char_at text k) = false -> covered k out.
Proof.
  intros HL. pose proof (strlen_nonneg text) as Hnn.
  apply (sentence_scan_rule text (strlen text)
           (fun so _ bh =>
              forall k, 0 <= k < so ->
                        is_whitespace (char_at text k) = false ->
                        covered k bh));
    try assumption; try lia.
  - intros so i bh HI _ _ _. exact HI.
  - intros so i bh HI _ _ _ _. exact HI.
  - intros so i bh HI Hso Hi Hp _ lc k Hk Hws. subst lc.
    pose proof (consume_multiple_punctuation_range text i _ Hi) as Hlp.
    pose proof (consume_trailing_closers_range text
                  (consume_multiple_punctuation text i (strlen text))
                  (strlen text) ltac:(lia)) as Hlc.
    revert Hlc Hk.
    generalize (consume_trailing_closers text
                  (consume_multiple_punctuation text i (strlen text))
                  (strlen text)) as lc.
    intros lc Hlc Hk.
    destruct (Z_lt_ge_dec k so) as [Hlt|Hge].
    + apply covered_cons, HI; [lia | assumption].
    + destruct (Z_le_gt_dec k lc) as [Hle|Hgt].
      * apply covered_here. unfold chunk_end. simpl. lia.
      * rewrite (skip_spaces_gap text (lc + 1) (strlen text) k) in Hws by lia.
        discriminate.
  - intros so bh HI Hso k Hk Hws.
    destruct (Z_lt_ge_dec k so) as [Hlt|Hge].
    + apply covered_cons, HI; [lia | assumption].
    + apply covered_here. unfold chunk_end. simpl. lia.
  - intros bh HI. exact HI.
Qed.

(** A non-empty text yields a buffer whose oldest record starts at 0. *)
Lemma sentence_scan_first text :
  strlen text < SIZE_MOD -> 0 < strlen text ->
  exists out,
    sentence_scan (Z.to_nat (strlen text)) text (strlen text) 0 0 [] = Ok out
    /\ exists pre c0, out = pre ++ [c0] /\ start_offset c0 = 0.
Proof.
  intros HL Hpos.
  apply (sentence_scan_rule text (strlen text)
           (fun so _ bh =>
              (bh = [] /\ so = 0)
              \/ exists pre c0, bh = pre ++ [c0] /\ start_offset c0 = 0));
    try assumption; try lia.
  - intros so i bh HI _ _ _. exact HI.
  - intros so i bh HI _ _ _ _. exact HI.
  - intros so i bh HI _ _ _ _ lc. right.
    destruct HI as [[-> ->] | (pre & c0 & -> & H0)].
    + now exists [], (mk_chunk 0 (lc + 1 - 0)).
    + now exists (mk_chunk so (lc + 1 - so) :: pre), c0.
  - intros so bh HI _.
    destruct HI as [[-> ->] | (pre & c0 & -> & H0)].
    + now exists [], (mk_chunk 0 (strlen text - 0)).
    + now exists (mk_chunk so (strlen text - so) :: pre), c0.
  - intros bh [[_ H0] | H]; [lia | exact H].
  - now left.
Qed.

Lemma run_end_of_run text i len :
  i < len -> is_sentence_punct (char_at text i) = true ->
  run_end text len (consume_multiple_punctuation text i len) = true.
Proof.
  intros Hi Hp. unfold run_end.
  rewrite (consume_multiple_punctuation_punct text i len Hp).
  pose proof (consume_multiple_punctuation_stop text i len) as Hs.
  cbv zeta in Hs. rewrite Hs. reflexivity.
Qed.

Lemma inside_run_not_end text i len p :
  i <= p < consume_multiple_punctuation text i len ->
  run_end text len p = false.
Proof.
  intros Hp. apply count_up_between in Hp. cbv beta in Hp.
  unfold run_end. rewrite Hp. apply andb_false_r.
Qed.

(** Every record of the buffer of pass 1 is a closed chunk or the leftover. *)
Lemma sentence_scan_chunks text :
  strlen text < SIZE_MOD ->
  exists out,
    sentence_scan (Z.to_nat (strlen text)) text (strlen text) 0 0 [] = Ok out
    /\ Forall (fun c => closed_chunk text (strlen text) c
                        \/ open_chunk text (strlen text) c) out.
Proof.
  intros HL. pose proof (strlen_nonneg text) as Hnn.
  apply (sentence_scan_rule text (strlen text)
           (fun so i bh =>
              (forall p, so <= p < i ->
                         run_end text (strlen text) p = true ->
                         is_end_of_sentence_heuristic text p (strlen text)
                         = false)
              /\ Forall (fun c => closed_chunk text (strlen text) c
                                  \/ open_chunk text (strlen text) c) bh));
    try assumption; try lia.
  - intros so i bh [Hpend Hbh] Hi _ Hp. split; [|assumption].
    intros p Hpi Hre. destruct (Z.eq_dec p i) as [->|Hne].
    + unfold run_end in Hre. rewrite Hp in Hre. discriminate.
    + apply Hpend; [lia | assumption].
  - intros so i bh [Hpend Hbh] Hso Hi Hp Hh. split; [|assumption].
    intros p Hpi Hre.
    destruct (Z_lt_ge_dec p i) as [Hlt|Hge]; [apply Hpend; [lia|assumption]|].
    destruct (Z.eq_dec p (consume_multiple_punctuation text i (strlen text)))
      as [->|Hne]; [assumption|].
    rewrite (inside_run_not_end text i (strlen text) p) in Hre by lia.
    discriminate.
  - intros so i bh [Hpend Hbh] Hso Hi Hp Hh lc. split.
    + intros p Hpi. pose proof (skip_spaces_ge text (lc + 1) (strlen text)).
      lia.
    + constructor; [|assumption]. left.
      exists (consume_multiple_punctuation text i (strlen text)).
      pose proof (consume_multiple_punctuation_range text i _ Hi) as Hlp.
      simpl. split; [lia|]. split; [now apply run_end_of_run|].
      split; [assumption|]. split; [unfold chunk_end; simpl; subst lc; lia|].
      intros p Hpi Hre.
      destruct (Z_lt_ge_dec p i) as [Hlt|Hge];
        [apply Hpend; [lia|assumption]|].
      rewrite (inside_run_not_end text i (strlen text) p) in Hre by lia.
      discriminate.
  - intros so bh [Hpend Hbh] Hso. constructor; [|assumption]. right.
    split; [unfold chunk_end; simpl; lia|]. exact Hpend.
  - intros bh [_ Hbh]. exact Hbh.
  - split; [intros; lia | constructor].
Qed.

Lemma a_sentence_chunker_of_scan text (F : list a_sentence_chunk_t -> Prop) :
  F [] ->
  (exists out,
      sentence_scan (Z.to_nat (strlen text)) text (strlen text) 0 0 [] = Ok out
      /\ F (rev out)) ->
  exists cs, a_sentence_chunker text = Ok cs /\ F cs.
Proof.
  intros Hnil (out & Heq & Hout). unfold a_sentence_chunker.
  destruct (char_at text 0 =? 0); [now exists []|].
  rewrite Heq. now exists (rev out).
Qed.

Lemma closers_after text lp len k :
  lp < k <= consume_trailing_closers text lp len ->
  is_closer (char_at text k) = true.
Proof.
  intros Hk.
  assert (Hb : lp <= k - 1 < consume_trailing_closers text lp len) by lia.
  apply count_up_between in Hb. cbv beta in Hb.
  apply andb_true_iff in Hb. destruct Hb as [_ Hb].
  now replace (k - 1 + 1) with k in Hb by lia.
Qed.

Lemma punct_is_closer c :
  is_sentence_punct c = true -> is_closer c = true.
Proof.
  intros H. unfold is_closer. rewrite H. now rewrite !orb_true_r.
Qed.

Lemma closer_not_digit c : is_closer c = true -> isdigit c = false.
Proof.
  unfold is_closer, is_sentence_punct. intros H.
  repeat (apply orb_true_iff in H; destruct H as [H|H]);
    apply Z.eqb_eq in H; subst c; reflexivity.
Qed.

Lemma run_end_punct text len p :
  run_end text len p = true -> is_sentence_punct (char_at text p) = true.
Proof. unfold run_end. intros H. apply andb_true_iff in H. tauto. Qed.

Lemma heuristic_decimal text i len :
  0 < len < SIZE_MOD -> 0 < i -> i + 1 < len ->
  char_at text i = ch "." ->
  isdigit (char_at text (i - 1)) = true ->
  isdigit (char_at text (i + 1)) = true ->
  is_end_of_sentence_heuristic text i len = false.
Proof.
  intros Hlen Hi Hn Hc Hp Hs. unfold is_end_of_sentence_heuristic.
  rewrite Hc, Hp, Hs. unfold szsub. rewrite wrap_small by lia.
  replace (0 <? i) with true by (symmetry; apply Z.ltb_lt; lia).
  replace (i <? len - 1) with true by (symmetry; apply Z.ltb_lt; lia).
  reflexivity.
Qed.

Lemma a_sentence_chunker_chunks text :
  strlen text < SIZE_MOD ->
  exists cs,
    a_sentence_chunker text = Ok cs
    /\ Forall (fun c => closed_chunk text (strlen text) c
                        \/ open_chunk text (strlen text) c) cs.
Proof.
  intros HL. apply a_sentence_chunker_of_scan; [constructor|].
  destruct (sentence_scan_chunks text HL) as (out & Heq & Hout).
  exists out. split; [assumption | now apply Forall_rev].
Qed.

Lemma a_sentence_chunker_covers text :
  strlen text < SIZE_MOD ->
  exists cs,
    a_sentence_chunker text = Ok cs
    /\ forall k, 0 <= k < strlen text ->
                 is_whitespace (char_at text k) = false -> covered k cs.
Proof.
  intros HL. unfold a_sentence_chunker.
  destruct (char_at text 0 =? 0) eqn:E0.
  - exists []. split; [reflexivity|]. apply Z.eqb_eq, strlen_empty in E0.
    intros k Hk. lia.
  - destruct (sentence_scan_covers text HL) as (out & -> & Hout).
    exists (aml_buffer_data out). split; [reflexivity|].
    intros k Hk Hws. apply covered_rev. now apply Hout.
Qed.

(** X1.  Pass 1 leaves out whitespace only: every byte of the text that is
    not whitespace lies in a chunk. *)
Theorem sentence_chunker_covers_non_whitespace text :
  strlen text < SIZE_MOD ->
  exists cs,
    a_sentence_chunker text = Ok cs
    /\ forall k, 0 <= k < strlen text ->
                 is_whitespace (char_at text k) = false -> covered k cs.
Proof. exact (a_sentence_chunker_covers text). Qed.

Lemma sentence_chunker_covers_non_whitespace_witness :
  let text := bytes_of_string "  Wait...   Really?!  Yes." in
  exists cs,
    a_sentence_chunker text = Ok cs
    /\ forall k, 0 <= k < strlen text ->
                 is_whitespace (char_at text k) = false -> covered k cs.
Proof.
  apply (sentence_chunker_covers_non_whitespace
           (bytes_of_string "  Wait...   Really?!  Yes.")).
  vm_compute. reflexivity.
Defined.

(** X2.  Pass 1 returns no chunk exactly when the text is empty; for a
    non-empty text the first chunk starts at offset 0, whatever the first
    byte is. *)
Theorem sentence_chunker_first_chunk text :
  strlen text < SIZE_MOD ->
  (char_at text 0 = 0 -> a_sentence_chunker text = Ok [])
  /\ (char_at text 0 <> 0 ->
      exists c rest,
        a_sentence_chunker text = Ok (c :: rest) /\ start_offset c = 0).
Proof.
  intros HL. unfold a_sentence_chunker. split; intros H0.
  - rewrite H0. reflexivity.
  - pose proof (strlen_pos text H0) as Hpos. apply Z.eqb_neq in H0.
    rewrite H0.
    destruct (sentence_scan_first text HL Hpos)
      as (out & -> & pre & c0 & -> & Hc0).
    exists c0, (rev pre). split; [|assumption].
    unfold aml_buffer_data. now rewrite rev_unit.
Qed.

Lemma sentence_chunker_first_chunk_witness :
  let text := bytes_of_string "  Wait...   Really?!  Yes." in
  (char_at text 0 = 0 -> a_sentence_chunker text = Ok [])
  /\ (char_at text 0 <> 0 ->
      exists c rest,
        a_sentence_chunker text = Ok (c :: rest) /\ start_offset c = 0).
Proof.
  apply (sentence_chunker_first_chunk
           (bytes_of_string "  Wait...   Really?!  Yes.")).
  vm_compute. reflexivity.
Defined.

(** X3.  A chunk of pass 1 does not continue past the end of a sentence: if
    the last byte [p] of a punctuation run inside a chunk is classified as
    terminal by the heuristic, every byte of the chunk after [p] is a closer
    (a quote, a closing bracket or more punctuation). *)
Theorem no_chunk_continues_past_terminal text :
  strlen text < SIZE_MOD ->
  exists cs,
    a_sentence_chunker text = Ok cs
    /\ forall c p k,
        In c cs -> start_offset c <= p < k -> k < chunk_end c ->
        run_end text (strlen text) p = true ->
        is_end_of_sentence_heuristic text p (strlen text) = true ->
        is_closer (char_at text k) = true.
Proof.
  intros HL. destruct (a_sentence_chunker_chunks text HL) as (cs & Heq & Hcs).
  exists cs. split; [assumption|]. intros c p k Hc Hp Hk Hre Hh.
  rewrite Forall_forall in Hcs.
  destruct (Hcs c Hc) as [(lp & Hs & _ & _ & He & Hbefore) | [He Hnone]].
  - destruct (Z_lt_ge_dec p lp) as [Hlt|Hge].
    + rewrite Hbefore in Hh by (assumption || lia). discriminate.
    + apply closers_after with lp (strlen text). lia.
  - rewrite Hnone in Hh by (assumption || lia). discriminate.
Qed.

Lemma no_chunk_continues_past_terminal_witness :
  let text := bytes_of_string "Stop.) Go on" in
  exists cs,
    a_sentence_chunker text = Ok cs
    /\ forall c p k,
        In c cs -> start_offset c <= p < k -> k < chunk_end c ->
        run_end text (strlen text) p = true ->
        is_end_of_sentence_heuristic text p (strlen text) = true ->
        is_closer (char_at text k) = true.
Proof.
  apply (no_chunk_continues_past_terminal (bytes_of_string "Stop.) Go on")).
  vm_compute. reflexivity.
Defined.

(** X4.  Every chunk of pass 1 that ends before the end of the text ends
    with a closer byte (sentence punctuation, a quote or a closing bracket)
    and is followed by a byte that is not a closer. *)
Theorem inner_chunks_end_with_closer text :
  strlen text < SIZE_MOD ->
  exists cs,
    a_sentence_chunker text = Ok cs
    /\ forall c,
        In c cs -> chunk_end c < strlen text ->
        is_closer (char_at text (chunk_end c - 1)) = true
        /\ is_closer (char_at text (chunk_end c)) = false.
Proof.
  intros HL. destruct (a_sentence_chunker_chunks text HL) as (cs & Heq & Hcs).
  exists cs. split; [assumption|]. intros c Hc Hend.
  rewrite Forall_forall in Hcs.
  destruct (Hcs c Hc) as [(lp & Hs & Hre & _ & He & _) | [He _]]; [|lia].
  pose proof (consume_trailing_closers_stop text lp (strlen text)) as Hstop.
  cbv zeta in Hstop.
  assert (Hge : lp <= consume_trailing_closers text lp (strlen text))
    by apply count_up_ge.
  pose proof (fun k => closers_after text lp (strlen text) k) as Hcl.
  rewrite He in *. revert Hge Hstop Hend Hcl.
  generalize (consume_trailing_closers text lp (strlen text)) as lc.
  intros lc Hge Hstop Hend Hcl. replace (lc + 1 - 1) with lc by lia. split.
  - destruct (Z.eq_dec lc lp) as [->|Hne].
    + now apply punct_is_closer, run_end_punct with (strlen text).
    + apply Hcl. lia.
  - replace (lc + 1 <? strlen text) with true in Hstop
      by (symmetry; apply Z.ltb_lt; lia).
    exact Hstop.
Qed.

Lemma inner_chunks_end_with_closer_witness :
  let text := bytes_of_string "Stop.) Go on" in
  exists cs,
    a_sentence_chunker text = Ok cs
    /\ forall c,
        In c cs -> chunk_end c < strlen text ->
        is_closer (char_at text (chunk_end c - 1)) = true
        /\ is_closer (char_at text (chunk_end c)) = false.
Proof.
  apply (inner_chunks_end_with_closer (bytes_of_string "Stop.) Go on")).
  vm_compute. reflexivity.
Defined.

(** X5.  Pass 1 never ends a chunk inside a decimal number: no chunk ends
    right after a dot that stands between two digit bytes. *)
Theorem no_chunk_ends_inside_decimal text :
  strlen text < SIZE_MOD ->
  exists cs,
    a_sentence_chunker text = Ok cs
    /\ forall c,
        In c cs -> chunk_end c < strlen text ->
        ~ (char_at text (chunk_end c - 1) = ch "."
           /\ isdigit (char_at text (chunk_end c - 2)) = true
           /\ isdigit (char_at text (chunk_end c)) = true).
Proof.
  intros HL. destruct (a_sentence_chunker_chunks text HL) as (cs & Heq & Hcs).
  exists cs. split; [assumption|]. intros c Hc Hend (Hdot & Hprev & Hnext).
  rewrite Forall_forall in Hcs.
  destruct (Hcs c Hc) as [(lp & Hs & Hre & Hh & He & _) | [He _]]; [|lia].
  assert (Hge : lp <= consume_trailing_closers text lp (strlen text))
    by apply count_up_ge.
  pose proof (fun k => closers_after text lp (strlen text) k) as Hcl.
  rewrite He in *. revert Hge Hend Hcl Hdot Hprev Hnext.
  generalize (consume_trailing_closers text lp (strlen text)) as lc.
  intros lc Hge Hend Hcl.
  replace (lc + 1 - 1) with lc by lia. replace (lc + 1 - 2) with (lc - 1) by lia.
  intros Hdot Hprev Hnext.
  destruct (Z.eq_dec lc lp) as [->|Hne].
  - assert (Hpos : 0 < lp).
    { destruct (Z_lt_ge_dec 0 lp) as [|Hle]; [assumption|].
      unfold char_at in Hprev.
      replace (lp - 1 <? 0) with true in Hprev
        by (symmetry; apply Z.ltb_lt; lia).
      discriminate. }
    rewrite (heuristic_decimal text lp (strlen text)) in Hh
      by (assumption || lia).
    discriminate.
  - assert (Hc1 : is_closer (char_at text (lc - 1)) = true).
    { destruct (Z.eq_dec (lc - 1) lp) as [->|Hne'].
      - now apply punct_is_closer, run_end_punct with (strlen text).
      - apply Hcl. lia. }
    apply closer_not_digit in Hc1. congruence.
Qed.

Lemma no_chunk_ends_inside_decimal_witness :
  let text := bytes_of_string "Pi is 3.14 exactly. Right?" in
  exists cs,
    a_sentence_chunker text = Ok cs
    /\ forall c,
        In c cs -> chunk_end c < strlen text ->
        ~ (char_at text (chunk_end c - 1) = ch "."
           /\ isdigit (char_at text (chunk_end c - 2)) = true
           /\ isdigit (char_at text (chunk_end c)) = true).
Proof.
  apply (no_chunk_ends_inside_decimal
           (bytes_of_string "Pi is 3.14 exactly. Right?")).
  vm_compute. reflexivity.
Defined.

Lemma heuristic_not_dot text p len :
  char_at text p <> ch "." -> is_end_of_sentence_heuristic text p len = true.
Proof.
  intros Hc. unfold is_end_of_sentence_heuristic.
  apply Z.eqb_neq in Hc. rewrite Hc. reflexivity.
Qed.

(** X6.  Pass 1 always splits after a question mark or an exclamation
    mark: when such a byte ends its punctuation run, the chunk that holds it
    continues after it with closers only. *)
Theorem question_and_exclamation_end_chunks text :
  strlen text < SIZE_MOD ->
  exists cs,
    a_sentence_chunker text = Ok cs
    /\ forall p,
        0 <= p < strlen text ->
        char_at text p = ch "?" \/ char_at text p = ch "!" ->
        (p + 1 <? strlen text) && is_sentence_punct (char_at text (p + 1))
        = false ->
        exists c,
          In c cs /\ start_offset c <= p < chunk_end c
          /\ forall k, p < k < chunk_end c ->
                       is_closer (char_at text k) = true.
Proof.
  intros HL. destruct (a_sentence_chunker_chunks text HL) as (cs & Heq & Hcs).
  destruct (a_sentence_chunker_covers text HL) as (cs' & Heq' & Hcov).
  rewrite Heq in Heq'. injection Heq' as <-.
  exists cs. split; [assumption|]. intros p Hp Hmark Hlast.
  assert (Hpunct : is_sentence_punct (char_at text p) = true)
    by (destruct Hmark as [-> | ->]; reflexivity).
  assert (Hh : is_end_of_sentence_heuristic text p (strlen text) = true)
    by (apply heuristic_not_dot; destruct Hmark as [-> | ->]; discriminate).
  assert (Hre : run_end text (strlen text) p = true)
    by (unfold run_end; now rewrite Hpunct, Hlast).
  destruct (Hcov p Hp (punct_not_whitespace _ Hpunct)) as (c & Hc & Hpc).
  apply covers_iff in Hpc. exists c. split; [assumption|].
  split; [assumption|]. intros k Hk.
  rewrite Forall_forall in Hcs.
  destruct (Hcs c Hc) as [(lp & Hs & _ & _ & He & Hbefore) | [He Hnone]].
  - destruct (Z_lt_ge_dec p lp) as [Hlt|Hge].
    + rewrite Hbefore in Hh by (assumption || lia). discriminate.
    + apply closers_after with lp (strlen text). lia.
  - rewrite Hnone in Hh by (assumption || lia). discriminate.
Qed.

Lemma question_and_exclamation_end_chunks_witness :
  let text := bytes_of_string "Really?!) Yes" in
  exists cs,
    a_sentence_chunker text = Ok cs
    /\ forall p,
        0 <= p < strlen text ->
        char_at text p = ch "?" \/ char_at text p = ch "!" ->
        (p + 1 <? strlen text) && is_sentence_punct (char_at text (p + 1))
        = false ->
        exists c,
          In c cs /\ start_offset c <= p < chunk_end c
          /\ forall k, p < k < chunk_end c ->
                       is_closer (char_at text k) = true.
Proof.
  apply (question_and_exclamation_end_chunks
           (bytes_of_string "Really?!) Yes")).
  vm_compute. reflexivity.
Defined.

(* ------------------------------------------------------------------ *)
(** ** The helpers of pass 1 *)

Lemma count_down_to n cond j B :
  B <= j -> j - B <= Z.of_nat n ->
  (forall k, B < k <= j -> cond k = true) -> cond B = false ->
  count_down n cond j = B.
Proof.
  revert j. induction n as [|n IH]; intros j Hj Hn Hk HB; simpl.
  - lia.
  - destruct (Z.eq_dec j B) as [->|Hne]; [now rewrite HB|].
    rewrite Hk by lia. apply IH; try lia; [|assumption].
    intros k Hkk. apply Hk. lia.
Qed.

Lemma to_int_small i : 0 <= i < 2 ^ 31 -> to_int i = i.
Proof.
  intros Hi. unfold to_int. rewrite Z.mod_small by lia. lia.
Qed.

Lemma is_just_digits_spec text start i :
  is_just_digits text start i = true
  <-> start < i /\ forall k, start <= k < i -> isdigit (char_at text k) = true.
Proof.
  unfold is_just_digits, slice. destruct (i <=? start) eqn:E.
  - apply Z.leb_le in E. split; [discriminate | lia].
  - apply Z.leb_gt in E. rewrite forallb_forall. split.
    + intros H. split; [assumption|]. intros k Hk. apply H.
      apply in_map_iff. exists (Z.to_nat (k - start)). split.
      * f_equal. lia.
      * apply in_seq. lia.
    + intros [_ H] x Hx. apply in_map_iff in Hx.
      destruct Hx as (n & <- & Hn). apply in_seq in Hn. apply H. lia.
Qed.

(** The word before the dot at [i] starts at [w]: [start] of
    [matches_abbreviation] stops on the byte before it. *)
Lemma abbreviation_word_start text i w :
  0 <= w <= i -> i < 2 ^ 31 ->
  (forall k, w <= k < i -> is_whitespace (char_at text k) = false) ->
  w = 0 \/ is_whitespace (char_at text (w - 1)) = true ->
  count_down (Z.to_nat (to_int i))
    (fun s => (0 <=? s) && negb (is_whitespace (char_at text s)))
    (to_int i - 1) = w - 1.
Proof.
  intros Hw Hi Hword Hbefore. rewrite to_int_small by lia.
  apply count_down_to; try lia.
  - intros k Hk. rewrite Hword by lia.
    replace (0 <=? k) with true by (symmetry; apply Z.leb_le; lia).
    reflexivity.
  - destruct Hbefore as [-> | Hws]; [reflexivity|].
    rewrite Hws. apply andb_false_r.
Qed.

Lemma bytes_eqb_length a b :
  bytes_eqb a b = true -> List.length a = List.length b.
Proof.
  revert b. induction a as [|x a IH]; intros [|y b] H; simpl in H;
    try discriminate; [reflexivity|].
  apply andb_true_iff in H. destruct H as [_ H]. simpl. f_equal. now apply IH.
Qed.

Lemma abbrevs_short a :
  In a ABBREVS -> (List.length (bytes_of_string a) <= 4)%nat.
Proof.
  revert a. apply Forall_forall. repeat constructor.
Qed.

(** The three ways in which [matches_abbreviation] accepts the word
    [text[w .. i)] before the dot at [i]. *)
Lemma matches_abbreviation_word text i w :
  0 <= w < i -> i < 2 ^ 31 ->
  (forall k, w <= k < i -> is_whitespace (char_at text k) = false) ->
  w = 0 \/ is_whitespace (char_at text (w - 1)) = true ->
  is_alpha (char_at text (i + 1)) = true
  \/ (i - w = 1 /\ isupper (char_at text w) = true)
  \/ (exists a, In a ABBREVS
                /\ strcasecmp_eq (slice text w (i - w)) (bytes_of_string a)
                   = true) ->
  matches_abbreviation text i = true.
Proof.
  intros Hw Hi Hword Hbefore Hcase. unfold matches_abbreviation.
  replace (i =? 0) with false by (symmetry; apply Z.eqb_neq; lia).
  cbv zeta.
  rewrite (abbreviation_word_start text i w) by (assumption || lia).
  rewrite to_int_small by lia.
  replace (w - 1 + 1) with w by lia.
  replace (i - w <=? 0) with false by (symmetry; apply Z.leb_gt; lia).
  destruct (is_alpha (char_at text (i + 1))); [reflexivity|].
  destruct Hcase as [Hc | [[H1 Hup] | (a & Ha & Heq)]]; [discriminate| |].
  - rewrite H1, Hup. reflexivity.
  - destruct ((i - w =? 1) && isupper (char_at text w)); [reflexivity|].
    destruct ((i - w =? 1) && negb (is_whitespace (char_at text (i + 1))));
      [reflexivity|].
    assert (Hlen : i - w <= 4).
    { pose proof (abbrevs_short a Ha) as Hs.
      apply bytes_eqb_length in Heq. rewrite !length_map in Heq.
      unfold slice in Heq. rewrite length_map, length_seq in Heq. lia. }
    replace (i - w >=? 32) with false
      by (symmetry; rewrite Z.geb_leb; apply Z.leb_gt; lia).
    apply existsb_exists. now exists a.
Qed.

Lemma heuristic_abbreviation text i len :
  char_at text i = ch "." -> matches_abbreviation text i = true ->
  is_end_of_sentence_heuristic text i len = false.
Proof.
  intros Hc Hm. unfold is_end_of_sentence_heuristic. rewrite Hc, Hm.
  destruct (_ && _ && _ && _ && _); reflexivity.
Qed.

Lemma digit_not_whitespace c : isdigit c = true -> is_whitespace c = false.
Proof.
  unfold isdigit, is_whitespace, ch. simpl. intros H.
  apply andb_true_iff in H. destruct H as [H1 H2].
  apply Z.leb_le in H1, H2.
  repeat (apply orb_false_iff; split); apply Z.eqb_neq; lia.
Qed.

Lemma digit_not_dot c : isdigit c = true -> (c =? ch ".") = false.
Proof.
  unfold isdigit, ch. simpl. intros H.
  apply andb_true_iff in H. destruct H as [H1 H2].
  apply Z.leb_le in H1, H2. apply Z.eqb_neq. lia.
Qed.

Lemma matches_abbreviation_letter text i :
  0 < i < 2 ^ 31 ->
  is_whitespace (char_at text (i - 1)) = false ->
  is_alpha (char_at text (i + 1)) = true ->
  matches_abbreviation text i = true.
Proof.
  intros Hi Hprev Hnext. unfold matches_abbreviation.
  replace (i =? 0) with false by (symmetry; apply Z.eqb_neq; lia).
  cbv zeta. rewrite to_int_small by lia. rewrite Hnext.
  replace (Z.to_nat i) with (S (Z.to_nat (i - 1))) by lia.
  cbn [count_down]. rewrite Hprev.
  replace (0 <=? i - 1) with true by (symmetry; apply Z.leb_le; lia).
  cbn [andb negb].
  pose proof (count_down_le (Z.to_nat (i - 1))
                (fun s => (0 <=? s) && negb (is_whitespace (char_at text s)))
                (i - 1 - 1)) as Hle.
  destruct (_ <=? 0) eqn:E; [|reflexivity]. apply Z.leb_le in E. lia.
Qed.

Lemma upper_not_whitespace c : isupper c = true -> is_whitespace c = false.
Proof.
  unfold isupper, is_whitespace, ch. simpl. intros H.
  apply andb_true_iff in H. destruct H as [H1 H2].
  apply Z.leb_le in H1, H2.
  repeat (apply orb_false_iff; split); apply Z.eqb_neq; lia.
Qed.

(** X7.  [skip_spaces] returns the index of the next non-whitespace byte at
    or after [start], or [len] if there is none. *)
Theorem skip_spaces_next_non_whitespace text start len :
  start <= len ->
  start <= skip_spaces text start len <= len
  /\ (forall k, start <= k < skip_spaces text start len ->
                is_whitespace (char_at text k) = true)
  /\ (skip_spaces text start len < len ->
      is_whitespace (char_at text (skip_spaces text start len)) = false).
Proof.
  intros H. split; [split; [apply skip_spaces_ge | now apply skip_spaces_le]|].
  split; [intros k; apply skip_spaces_gap | now apply skip_spaces_stop].
Qed.

Lemma skip_spaces_next_non_whitespace_witness :
  let text := bytes_of_string "ab   cd" in
  2 <= skip_spaces text 2 7 <= 7
  /\ (forall k, 2 <= k < skip_spaces text 2 7 ->
                is_whitespace (char_at text k) = true)
  /\ (skip_spaces text 2 7 < 7 ->
      is_whitespace (char_at text (skip_spaces text 2 7)) = false).
Proof.
  apply (skip_spaces_next_non_whitespace (bytes_of_string "ab   cd") 2 7).
  lia.
Defined.

(** X8.  [consume_multiple_punctuation] returns the index of the last byte
    of the maximal run of sentence punctuation that follows [start_i]. *)
Theorem consume_multiple_punctuation_last_of_run text start_i len :
  start_i < len ->
  start_i <= consume_multiple_punctuation text start_i len < len
  /\ (forall k, start_i < k <= consume_multiple_punctuation text start_i len ->
                is_sentence_punct (char_at text k) = true)
  /\ (consume_multiple_punctuation text start_i len + 1 < len ->
      is_sentence_punct
        (char_at text (consume_multiple_punctuation text start_i len + 1))
      = false).
Proof.
  intros H. split; [now apply consume_multiple_punctuation_range|]. split.
  - intros k Hk.
    assert (Hb : start_i <= k - 1
                 < consume_multiple_punctuation text start_i len) by lia.
    apply count_up_between in Hb. cbv beta in Hb.
    apply andb_true_iff in Hb. destruct Hb as [_ Hb].
    now replace (k - 1 + 1) with k in Hb by lia.
  - intros Hlt.
    pose proof (consume_multiple_punctuation_stop text start_i len) as Hs.
    cbv zeta in Hs. apply andb_false_iff in Hs.
    destruct Hs as [Hs|Hs]; [apply Z.ltb_ge in Hs; lia | assumption].
Qed.

Lemma consume_multiple_punctuation_last_of_run_witness :
  let text := bytes_of_string "Really?!! Yes" in
  6 <= consume_multiple_punctuation text 6 13 < 13
  /\ (forall k, 6 < k <= consume_multiple_punctuation text 6 13 ->
                is_sentence_punct (char_at text k) = true)
  /\ (consume_multiple_punctuation text 6 13 + 1 < 13 ->
      is_sentence_punct
        (char_at text (consume_multiple_punctuation text 6 13 + 1)) = false).
Proof.
  apply (consume_multiple_punctuation_last_of_run
           (bytes_of_string "Really?!! Yes") 6 13).
  lia.
Defined.

(** X9.  [consume_trailing_closers] returns the index of the last byte of
    the maximal run of closers (quotes, closing brackets, sentence
    punctuation) that follows [i]. *)
Theorem consume_trailing_closers_last_of_run text i len :
  i < len ->
  i <= consume_trailing_closers text i len < len
  /\ (forall k, i < k <= consume_trailing_closers text i len ->
                is_closer (char_at text k) = true)
  /\ (consume_trailing_closers text i len + 1 < len ->
      is_closer (char_at text (consume_trailing_closers text i len + 1))
      = false).
Proof.
  intros H. split; [now apply consume_trailing_closers_range|]. split.
  - intros k. apply closers_after.
  - intros Hlt.
    pose proof (consume_trailing_closers_stop text i len) as Hs.
    cbv zeta in Hs. apply andb_false_iff in Hs.
    destruct Hs as [Hs|Hs]; [apply Z.ltb_ge in Hs; lia | assumption].
Qed.

Lemma consume_trailing_closers_last_of_run_witness :
  let text := bytes_of_string "(Stop.)] Go" in
  5 <= consume_trailing_closers text 5 11 < 11
  /\ (forall k, 5 < k <= consume_trailing_closers text 5 11 ->
                is_closer (char_at text k) = true)
  /\ (consume_trailing_closers text 5 11 + 1 < 11 ->
      is_closer (char_at text (consume_trailing_closers text 5 11 + 1))
      = false).
Proof.
  apply (consume_trailing_closers_last_of_run
           (bytes_of_string "(Stop.)] Go") 5 11).
  lia.
Defined.

(** X10.  A dot that directly follows a non-whitespace byte and is directly
    followed by a letter is never the end of a sentence ("example.com",
    "e.g"). *)
Theorem dot_before_letter_not_terminal text i len :
  0 < i < 2 ^ 31 ->
  char_at text i = ch "." ->
  is_whitespace (char_at text (i - 1)) = false ->
  is_alpha (char_at text (i + 1)) = true ->
  is_end_of_sentence_heuristic text i len = false.
Proof.
  intros Hi Hc Hprev Hnext. apply heuristic_abbreviation; [assumption|].
  now apply matches_abbreviation_letter.
Qed.

Lemma dot_before_letter_not_terminal_witness :
  is_end_of_sentence_heuristic (bytes_of_string "see example.com now") 11 19
  = false.
Proof.
  apply (dot_before_letter_not_terminal
           (bytes_of_string "see example.com now") 11 19).
  - lia.
  - vm_compute. reflexivity.
  - vm_compute. reflexivity.
  - vm_compute. reflexivity.
Defined.

(** X11.  A dot at an index below 2^31 after a word that equals an entry of
    the abbreviation table up to the case of its letters is never the end of
    a sentence.  The word is the run of non-whitespace bytes [text[w .. i)]
    before the dot.  The bound is that of [(int)i] in
    [matches_abbreviation], which is negative from 2^31 on. *)
Theorem known_abbreviation_not_terminal text i len w a :
  0 <= w < i -> i < 2 ^ 31 ->
  char_at text i = ch "." ->
  (forall k, w <= k < i -> is_whitespace (char_at text k) = false) ->
  w = 0 \/ is_whitespace (char_at text (w - 1)) = true ->
  In a ABBREVS ->
  strcasecmp_eq (slice text w (i - w)) (bytes_of_string a) = true ->
  is_end_of_sentence_heuristic text i len = false.
Proof.
  intros Hw Hi Hc Hword Hbefore Ha Heq.
  apply heuristic_abbreviation; [assumption|].
  apply (matches_abbreviation_word text i w); try assumption.
  right; right. now exists a.
Qed.

Lemma known_abbreviation_not_terminal_witness :
  is_end_of_sentence_heuristic (bytes_of_string "See DR. Who") 6 11 = false.
Proof.
  apply (known_abbreviation_not_terminal
           (bytes_of_string "See DR. Who") 6 11 4 "Dr"%string).
  - lia.
  - lia.
  - vm_compute. reflexivity.
  - intros k Hk. assert (Hcase : k = 4 \/ k = 5) by lia.
    destruct Hcase as [-> | ->]; vm_compute; reflexivity.
  - right. vm_compute. reflexivity.
  - simpl. tauto.
  - vm_compute. reflexivity.
Defined.

(** X12.  A dot at an index below 2^31 after a single upper-case letter
    that stands alone (an initial, as in "J. Smith") is never the end of a
    sentence.  The bound is that of [(int)i] in [matches_abbreviation]. *)
Theorem initial_not_terminal text i len :
  0 < i < 2 ^ 31 ->
  char_at text i = ch "." ->
  isupper (char_at text (i - 1)) = true ->
  i = 1 \/ is_whitespace (char_at text (i - 2)) = true ->
  is_end_of_sentence_heuristic text i len = false.
Proof.
  intros Hi Hc Hup Hbefore. apply heuristic_abbreviation; [assumption|].
  apply (matches_abbreviation_word text i (i - 1)); try lia.
  - intros k Hk. replace k with (i - 1) by lia.
    now apply upper_not_whitespace.
  - destruct Hbefore as [-> | Hws]; [now left | right].
    now replace (i - 1 - 1) with (i - 2) by lia.
  - right; left. split; [lia | assumption].
Qed.

Lemma initial_not_terminal_witness :
  is_end_of_sentence_heuristic (bytes_of_string "by J. Smith") 4 11 = false.
Proof.
  apply (initial_not_terminal (bytes_of_string "by J. Smith") 4 11).
  - lia.
  - vm_compute. reflexivity.
  - vm_compute. reflexivity.
  - right. vm_compute. reflexivity.
Defined.

(** X13.  The ordinal rule: a dot after a word of digits only (the word
    starts at the beginning of the text, after whitespace or after another
    dot) is not the end of a sentence when the next non-whitespace byte is a
    digit or a lower-case letter, or when only whitespace follows. *)
Theorem ordinal_not_terminal text i len w :
  0 <= w < i ->
  char_at text i = ch "." ->
  (forall k, w <= k < i -> isdigit (char_at text k) = true) ->
  w = 0 \/ is_whitespace (char_at text (w - 1)) = true
  \/ char_at text (w - 1) = ch "." ->
  len <= skip_spaces text (i + 1) len
  \/ isdigit (char_at text (skip_spaces text (i + 1) len)) = true
  \/ islower (char_at text (skip_spaces text (i + 1) len)) = true ->
  is_end_of_sentence_heuristic text i len = false.
Proof.
  intros Hw Hc Hdigits Hbefore Hnext. unfold is_end_of_sentence_heuristic.
  rewrite Hc. destruct (_ && _ && _ && _ && _); [reflexivity|].
  destruct (_ && matches_abbreviation text i); [reflexivity|].
  change (ch "." =? ch ".") with true. cbv iota zeta.
  assert (Hstart :
            count_down (Z.to_nat i)
              (fun w0 => (0 <? w0)
                         && negb (is_whitespace (char_at text (w0 - 1)))
                         && negb (char_at text (w0 - 1) =? ch "."))
              i = w).
  { apply count_down_to; try lia.
    - intros k Hk.
      replace (0 <? k) with true by (symmetry; apply Z.ltb_lt; lia).
      rewrite (digit_not_whitespace _ (Hdigits (k - 1) ltac:(lia))).
      rewrite (digit_not_dot _ (Hdigits (k - 1) ltac:(lia))). reflexivity.
    - destruct Hbefore as [-> | [Hws | Hdot]].
      + reflexivity.
      + rewrite Hws. now rewrite andb_false_r.
      + rewrite Hdot. change (ch "." =? ch ".") with true.
        now rewrite andb_false_r. }
  rewrite Hstart.
  replace (is_just_digits text w i) with true
    by (symmetry; apply is_just_digits_spec; split; [lia | assumption]).
  destruct (skip_spaces text (i + 1) len >=? len) eqn:Ej; [reflexivity|].
  rewrite Z.geb_leb in Ej. apply Z.leb_gt in Ej.
  destruct Hnext as [Hend | [Hd | Hl]]; [lia | |].
  - rewrite Hd. reflexivity.
  - rewrite Hl. now rewrite orb_true_r.
Qed.

Lemma ordinal_not_terminal_witness :
  is_end_of_sentence_heuristic (bytes_of_string "12. next one") 2 12 = false.
Proof.
  apply (ordinal_not_terminal (bytes_of_string "12. next one") 2 12 0).
  - lia.
  - vm_compute. reflexivity.
  - intros k Hk. assert (Hcase : k = 0 \/ k = 1) by lia.
    destruct Hcase as [-> | ->]; vm_compute; reflexivity.
  - now left.
  - right; right. vm_compute. reflexivity.
Defined.

(* ------------------------------------------------------------------ *)
(** ** Pass 2: what the split point is *)

Lemma scan_down_first n hit i j :
  scan_down n hit i = Some j ->
  i - Z.of_nat n < j <= i
  /\ hit j = true /\ forall k, j < k <= i -> hit k = false.
Proof.
  revert i. induction n as [|n IH]; intros i H; [discriminate|].
  cbn [scan_down] in H. destruct (hit i) eqn:E.
  - injection H as <-. repeat split; try lia; assumption.
  - destruct (IH _ H) as (Hr & Hj & Hk).
    repeat split; try lia; try assumption.
    intros k Hkk. destruct (Z.eq_dec k i) as [->|Hne]; [assumption|].
    apply Hk. lia.
Qed.

Lemma scan_up_first n hit i j :
  scan_up n hit i = Some j ->
  i <= j < i + Z.of_nat n
  /\ hit j = true /\ forall k, i <= k < j -> hit k = false.
Proof.
  revert i. induction n as [|n IH]; intros i H; [discriminate|].
  cbn [scan_up] in H. destruct (hit i) eqn:E.
  - injection H as <-. repeat split; try lia; assumption.
  - destruct (IH _ H) as (Hr & Hj & Hk).
    repeat split; try lia; try assumption.
    intros k Hkk. destruct (Z.eq_dec k i) as [->|Hne]; [assumption|].
    apply Hk. lia.
Qed.

Lemma scan_down_finds n hit top i :
  top - Z.of_nat n < i <= top -> hit i = true ->
  (forall k, i < k <= top -> hit k = false) ->
  scan_down n hit top = Some i.
Proof.
  revert top. induction n as [|n IH]; intros top Hi Hhit Hk; [lia|].
  cbn [scan_down]. destruct (Z.eq_dec i top) as [->|Hne].
  - now rewrite Hhit.
  - rewrite Hk by lia. apply IH; try lia; [assumption|].
    intros k Hkk. apply Hk. lia.
Qed.

Lemma adjust_nearest text s e cand :
  s < cand < e ->
  (s < adjust_for_token_boundary text s e cand <= cand
   /\ is_whitespace
        (char_at text (adjust_for_token_boundary text s e cand)) = true
   /\ forall k, adjust_for_token_boundary text s e cand < k <= cand ->
                is_whitespace (char_at text k) = false)
  \/ (cand < adjust_for_token_boundary text s e cand < e
      /\ is_whitespace
           (char_at text (adjust_for_token_boundary text s e cand)) = true
      /\ forall k, s < k < adjust_for_token_boundary text s e cand ->
                   is_whitespace (char_at text k) = false)
  \/ (adjust_for_token_boundary text s e cand = 0
      /\ forall k, s < k < e -> is_whitespace (char_at text k) = false).
Proof.
  intros Hc. unfold adjust_for_token_boundary.
  replace ((cand <=? s) || (cand >=? e)) with false.
  2:{ symmetry. apply orb_false_iff. split; [apply Z.leb_gt; lia|].
      rewrite Z.geb_leb. apply Z.leb_gt. lia. }
  destruct (scan_down _ _ cand) as [j|] eqn:Edown.
  - left. apply scan_down_first in Edown.
    destruct Edown as (Hr & Hj & Hk). repeat split; try lia; assumption.
  - right.
    assert (Hback : forall k, s < k <= cand ->
                              is_whitespace (char_at text k) = false).
    { intros k Hk.
      apply (scan_down_none _ _ _ k Edown). lia. }
    destruct (scan_up _ _ cand) as [j|] eqn:Eup.
    + left. apply scan_up_first in Eup. destruct Eup as (Hr & Hj & Hk).
      assert (j <> cand) by (intros ->; rewrite Hback in Hj by lia;
                             discriminate).
      repeat split; try lia; [assumption|].
      intros k Hkk. destruct (Z_le_gt_dec k cand); [apply Hback | apply Hk];
        lia.
    + right. split; [reflexivity|]. intros k Hk.
      destruct (Z_le_gt_dec k cand); [apply Hback; lia|].
      apply (scan_up_none _ _ _ k Eup). lia.
Qed.

Lemma adjusted_or_end_bound text s e cand top :
  0 <= s -> cand <= top ->
  adjusted_or_end text s e cand = e
  \/ adjusted_or_end text s e cand <= top
  \/ forall k, s < k <= top -> is_whitespace (char_at text k) = false.
Proof.
  intros Hs Htop. unfold adjusted_or_end.
  destruct (_ && _) eqn:Eacc; [|now left]. right.
  apply andb_true_iff in Eacc. destruct Eacc as [Hgt Hlt].
  apply Z.gtb_lt in Hgt. apply Z.ltb_lt in Hlt.
  destruct (Z_lt_ge_dec s cand) as [Hsc|Hsc].
  2:{ left. revert Hgt Hlt. unfold adjust_for_token_boundary.
      replace (cand <=? s) with true by (symmetry; apply Z.leb_le; lia).
      cbn [orb]. lia. }
  destruct (Z_lt_ge_dec cand e) as [Hce|Hce].
  2:{ left. revert Hgt Hlt. unfold adjust_for_token_boundary.
      replace (cand >=? e) with true
        by (symmetry; rewrite Z.geb_leb; apply Z.leb_le; lia).
      rewrite orb_true_r. lia. }
  destruct (adjust_nearest text s e cand ltac:(lia))
    as [(Hr & _) | [(Hr & _ & Hk) | (H0 & _)]].
  - left. lia.
  - destruct (Z_le_gt_dec (adjust_for_token_boundary text s e cand) top).
    + now left.
    + right. intros k Hkk. apply Hk. lia.
  - lia.
Qed.

Lemma adjusted_or_end_accepts text s e cand top :
  0 <= s -> cand <= top ->
  adjusted_or_end text s e cand <> e ->
  s < adjusted_or_end text s e cand < e
  /\ is_whitespace (char_at text (adjusted_or_end text s e cand)) = true
  /\ (adjusted_or_end text s e cand <= top
      \/ forall k, s < k <= top -> is_whitespace (char_at text k) = false).
Proof.
  intros Hs Htop Hne.
  destruct (adjusted_or_end_spec text s e cand Hs) as [He | [Hr Hws]];
    [contradiction|].
  destruct (adjusted_or_end_bound text s e cand top Hs Htop) as [He | Hb];
    [contradiction|].
  now repeat split.
Qed.

(** The checks that precede the search of [find_split_point], for a chunk
    that lies below [SIZE_MOD] and a window with [mn <= mx]. *)
Lemma find_split_point_unfold text s l mn mx :
  in_size_t s -> in_size_t l -> 0 <= mn <= mx -> s + l < SIZE_MOD ->
  find_split_point text s l mn mx =
  if (l <=? mx) || (s + mx >? s + l - mn) || (s + mn >=? s + mx)
  then s + l
  else
    let n := Z.to_nat (s + mx - (s + mn)) in
    let found := adjusted_or_end text s (s + l) in
    match scan_down n (double_newline_at text (s + mn) (s + l)) (s + mx) with
    | Some i => found i
    | None =>
    match scan_down n (triple_space_at text (s + mn) (s + l)) (s + mx) with
    | Some i => found i
    | None =>
    match scan_down n (fun i => char_at text i =? 10) (s + mx) with
    | Some i => found i
    | None =>
    match scan_down n (sentence_seam_at text (s + l)) (s + mx) with
    | Some i => found i
    | None =>
    match scan_down n (fun i => isspace (char_at text i)) (s + mx) with
    | Some i => found i
    | None => found (s + mx)
    end end end end end.
Proof.
  intros [Hs _] [Hl _] Hmn HL. unfold find_split_point, szadd, szsub.
  rewrite (wrap_small (s + l)) by lia.
  destruct (l <=? mx) eqn:El; [reflexivity|]. apply Z.leb_gt in El.
  cbn [orb].
  rewrite (wrap_small (s + mn)) by lia. rewrite (wrap_small (s + mx)) by lia.
  rewrite (wrap_small (s + l - mn)) by lia.
  destruct (s + mx >? s + l - mn); cbn [orb]; [reflexivity|].
  destruct (s + mn >=? s + mx); reflexivity.
Qed.

(** X15.  [find_split_point], called with [min_length <= max_length] on a
    chunk that lies within the address range, only splits a chunk of at
    least [min_length + max_length] bytes, and only at a whitespace byte
    strictly inside it.  The first piece has at most [max_length] bytes
    (and the rest then at least [min_length]) unless the chunk has no
    whitespace byte among its first [max_length] bytes after the first
    one. *)
Theorem find_split_point_window text s l mn mx :
  in_size_t s -> in_size_t l -> 0 <= mn <= mx -> s + l < SIZE_MOD ->
  find_split_point text s l mn mx <> s + l ->
  mn < mx /\ mx + mn <= l
  /\ s < find_split_point text s l mn mx < s + l
  /\ is_whitespace (char_at text (find_split_point text s l mn mx)) = true
  /\ (find_split_point text s l mn mx <= s + mx
      \/ forall k, s < k <= s + mx ->
                   is_whitespace (char_at text k) = false).
Proof.
  intros Hs Hl Hmn HL.
  rewrite (find_split_point_unfold text s l mn mx Hs Hl Hmn HL).
  destruct (_ || _ || _) eqn:Echeck; [intros H; now elim H|].
  apply orb_false_iff in Echeck. destruct Echeck as [Echeck E3].
  apply orb_false_iff in Echeck. destruct Echeck as [E1 E2].
  apply Z.leb_gt in E1. rewrite Z.gtb_ltb in E2. apply Z.ltb_ge in E2.
  rewrite Z.geb_leb in E3. apply Z.leb_gt in E3. cbv zeta.
  assert (Hfound : forall cand,
             cand <= s + mx ->
             adjusted_or_end text s (s + l) cand <> s + l ->
             mn < mx /\ mx + mn <= l
             /\ s < adjusted_or_end text s (s + l) cand < s + l
             /\ is_whitespace
                  (char_at text (adjusted_or_end text s (s + l) cand)) = true
             /\ (adjusted_or_end text s (s + l) cand <= s + mx
                 \/ forall k, s < k <= s + mx ->
                              is_whitespace (char_at text k) = false)).
  { intros cand Hc Hne. split; [lia|]. split; [lia|].
    apply adjusted_or_end_accepts; (assumption || apply Hs). }
  repeat match goal with
         | |- context [scan_down ?n ?h ?t] =>
           let E := fresh "E" in
           destruct (scan_down n h t) as [?i|] eqn:E;
             [apply scan_down_first in E; apply Hfound; lia|]
         end.
  apply Hfound. lia.
Qed.

Lemma find_split_point_window_witness :
  let text := bytes_of_string "alpha beta gamma delta epsilon zeta" in
  5 < 20 /\ 20 + 5 <= 35
  /\ 0 < find_split_point text 0 35 5 20 < 0 + 35
  /\ is_whitespace (char_at text (find_split_point text 0 35 5 20)) = true
  /\ (find_split_point text 0 35 5 20 <= 0 + 20
      \/ forall k, 0 < k <= 0 + 20 ->
                   is_whitespace (char_at text k) = false).
Proof.
  apply (find_split_point_window
           (bytes_of_string "alpha beta gamma delta epsilon zeta") 0 35 5 20).
  - split; vm_compute; congruence.
  - split; vm_compute; congruence.
  - lia.
  - vm_compute. reflexivity.
  - vm_compute. congruence.
Defined.

(** X16.  When the search window holds a paragraph break (two consecutive
    newlines, the first one not before [start + min_length]),
    [find_split_point] splits at the rightmost one: the second newline
    starts the next piece. *)
Theorem find_split_point_paragraph_break text s l mn mx i :
  in_size_t s -> in_size_t l -> 0 <= mn <= mx -> s + l < SIZE_MOD ->
  mx < l -> mx + mn <= l ->
  s + mn < i <= s + mx -> s + mn <= i - 1 ->
  char_at text (i - 1) = 10 -> char_at text i = 10 ->
  (forall k, i < k <= s + mx ->
             ~ (char_at text (k - 1) = 10 /\ char_at text k = 10)) ->
  find_split_point text s l mn mx = i.
Proof.
  intros Hs Hl Hmn HL Hlong Hfit Hi Hi1 Hp Hc Hright.
  rewrite (find_split_point_unfold text s l mn mx Hs Hl Hmn HL).
  replace (l <=? mx) with false by (symmetry; apply Z.leb_gt; lia).
  replace (s + mx >? s + l - mn) with false
    by (symmetry; rewrite Z.gtb_ltb; apply Z.ltb_ge; lia).
  replace (s + mn >=? s + mx) with false
    by (symmetry; rewrite Z.geb_leb; apply Z.leb_gt; lia).
  cbn [orb]. cbv zeta.
  rewrite (scan_down_finds _ _ (s + mx) i).
  - unfold adjusted_or_end.
    assert (Hadj : adjust_for_token_boundary text s (s + l) i = i).
    { unfold adjust_for_token_boundary.
      replace ((i <=? s) || (i >=? s + l)) with false.
      2:{ symmetry. apply orb_false_iff. split; [apply Z.leb_gt; lia|].
          rewrite Z.geb_leb. apply Z.leb_gt. lia. }
      rewrite (scan_down_finds _ _ i i); [reflexivity | lia | | intros; lia].
      rewrite Hc. reflexivity. }
    rewrite Hadj.
    replace (i >? s) with true by (symmetry; apply Z.gtb_lt; lia).
    replace (i <? s + l) with true by (symmetry; apply Z.ltb_lt; lia).
    reflexivity.
  - lia.
  - unfold double_newline_at. rewrite Hp, Hc.
    replace (i - 1 >=? s + mn) with true
      by (symmetry; rewrite Z.geb_leb; apply Z.leb_le; lia).
    replace (i <? s + l) with true by (symmetry; apply Z.ltb_lt; lia).
    reflexivity.
  - intros k Hk. unfold double_newline_at.
    destruct (char_at text (k - 1) =? 10) eqn:E1;
      [|now rewrite andb_false_r].
    destruct (char_at text k =? 10) eqn:E2; [|now rewrite andb_false_r].
    apply Z.eqb_eq in E1, E2. elim (Hright k Hk). now split.
Qed.

Lemma find_split_point_paragraph_break_witness :
  let text :=
    bytes_of_string "abcdefgh" ++ [10; 10]
    ++ bytes_of_string "ijklmnopqrstuvwxyz" in
  find_split_point text 0 28 2 12 = 9.
Proof.
  apply (find_split_point_paragraph_break
           (bytes_of_string "abcdefgh" ++ [10; 10]
            ++ bytes_of_string "ijklmnopqrstuvwxyz") 0 28 2 12 9).
  - split; vm_compute; congruence.
  - split; vm_compute; congruence.
  - lia.
  - vm_compute. reflexivity.
  - lia.
  - lia.
  - lia.
  - lia.
  - vm_compute. reflexivity.
  - vm_compute. reflexivity.
  - intros k Hk [_ H].
    assert (Hcase : k = 10 \/ k = 11 \/ k = 12) by lia.
    destruct Hcase as [-> | [-> | ->]]; vm_compute in H; discriminate H.
Defined.

(** X14.  [adjust_for_token_boundary], for a candidate strictly inside the
    chunk, returns the nearest whitespace byte at or before the candidate;
    if there is none after the start of the chunk, the nearest one after the
    candidate; and 0 if the chunk has no whitespace byte after its first
    byte. *)
Theorem adjust_for_token_boundary_nearest text s e cand :
  s < cand < e ->
  (s < adjust_for_token_boundary text s e cand <= cand
   /\ is_whitespace
        (char_at text (adjust_for_token_boundary text s e cand)) = true
   /\ forall k, adjust_for_token_boundary text s e cand < k <= cand ->
                is_whitespace (char_at text k) = false)
  \/ (cand < adjust_for_token_boundary text s e cand < e
      /\ is_whitespace
           (char_at text (adjust_for_token_boundary text s e cand)) = true
      /\ forall k, s < k < adjust_for_token_boundary text s e cand ->
                   is_whitespace (char_at text k) = false)
  \/ (adjust_for_token_boundary text s e cand = 0
      /\ forall k, s < k < e -> is_whitespace (char_at text k) = false).
Proof. exact (adjust_nearest text s e cand). Qed.

Lemma adjust_for_token_boundary_nearest_witness :
  let text := bytes_of_string "alpha beta gamma" in
  (0 < adjust_for_token_boundary text 0 16 8 <= 8
   /\ is_whitespace
        (char_at text (adjust_for_token_boundary text 0 16 8)) = true
   /\ forall k, adjust_for_token_boundary text 0 16 8 < k <= 8 ->
                is_whitespace (char_at text k) = false)
  \/ (8 < adjust_for_token_boundary text 0 16 8 < 16
      /\ is_whitespace
           (char_at text (adjust_for_token_boundary text 0 16 8)) = true
      /\ forall k, 0 < k < adjust_for_token_boundary text 0 16 8 ->
                   is_whitespace (char_at text k) = false)
  \/ (adjust_for_token_boundary text 0 16 8 = 0
      /\ forall k, 0 < k < 16 -> is_whitespace (char_at text k) = false).
Proof.
  apply (adjust_for_token_boundary_nearest
           (bytes_of_string "alpha beta gamma") 0 16 8).
  lia.
Defined.

(* ------------------------------------------------------------------ *)
(** ** Pass 2: further properties of the loop *)

Lemma rechunk_loop_in_range text mn mx cs :
  Forall (fun c => mn <= length c <= mx) cs ->
  forall i buf, rechunk_loop text mn mx i cs buf = Ok (rev cs ++ buf).
Proof.
  induction 1 as [|c cs Hc _ IH]; intros i buf; [reflexivity|].
  cbn [rechunk_loop].
  replace ((length c >=? mn) && (length c <=? mx)) with true.
  2:{ symmetry. apply andb_true_iff. split.
      - rewrite Z.geb_leb. apply Z.leb_le. lia.
      - apply Z.leb_le. lia. }
  rewrite IH. unfold aml_buffer_append. cbn [rev].
  now rewrite <- app_assoc.
Qed.

(** X17.  Pass 2 returns its input unchanged when every chunk already has a
    length within [min_length, max_length]. *)
Theorem rechunk_in_range_unchanged text cs mn mx :
  Forall (fun c => mn <= length c <= mx) cs ->
  a_rechunk_sentences text cs mn mx = Ok cs.
Proof.
  intros H. unfold a_rechunk_sentences.
  rewrite (rechunk_loop_in_range text mn mx cs H).
  unfold aml_buffer_data. now rewrite app_nil_r, rev_involutive.
Qed.

Lemma rechunk_in_range_unchanged_witness :
  a_rechunk_sentences (bytes_of_string "Hello world. This is a test.")
    [mk_chunk 0 12; mk_chunk 13 15] 5 20
  = Ok [mk_chunk 0 12; mk_chunk 13 15].
Proof.
  apply (rechunk_in_range_unchanged
           (bytes_of_string "Hello world. This is a test.")
           [mk_chunk 0 12; mk_chunk 13 15] 5 20).
  repeat constructor; simpl; lia.
Defined.

(** The rule of [rechunk_loop] with the guards of the branches: what the
    length tests and the merge tests establish is available to the
    invariant. *)
Lemma rechunk_loop_guarded_rule text mn mx
  (I : list a_sentence_chunk_t -> list a_sentence_chunk_t -> Prop)
  (J : list a_sentence_chunk_t -> a_sentence_chunk_t ->
       list a_sentence_chunk_t -> Prop) :
  0 <= mx ->
  (forall rest r buf, J rest r buf -> 0 <= start_offset r /\ 0 <= length r) ->
  (forall cur rest buf,
      I (cur :: rest) buf ->
      mn <= length cur <= mx \/ length cur < mn ->
      I rest (cur :: buf)) ->
  (forall cur rest last before,
      I (cur :: rest) (last :: before) -> length cur < mn ->
      szsub (szadd (start_offset cur) (length cur)) (start_offset last)
      <= mx ->
      I rest (mk_chunk (start_offset last)
                (szsub (szadd (start_offset cur) (length cur))
                       (start_offset last)) :: before)) ->
  (forall cur next rest buf,
      I (cur :: next :: rest) buf -> length cur < mn ->
      szsub (szadd (start_offset next) (length next)) (start_offset cur)
      <= mx ->
      I rest (mk_chunk (start_offset cur)
                (szsub (szadd (start_offset next) (length next))
                       (start_offset cur)) :: buf)) ->
  (forall cur rest buf,
      I (cur :: rest) buf -> mx < length cur -> J rest cur buf) ->
  (forall rest r buf split_pt,
      J rest r buf ->
      start_offset r < split_pt < szadd (start_offset r) (length r) ->
      szadd (start_offset r) (length r) <= start_offset r + length r ->
      is_whitespace (char_at text split_pt) = true ->
      J rest
        (mk_chunk split_pt (szadd (start_offset r) (length r) - split_pt))
        (mk_chunk (start_offset r) (split_pt - start_offset r) :: buf)) ->
  (forall rest r buf, J rest r buf -> I rest (r :: buf)) ->
  forall cs i buf,
    I cs buf -> (0 < i -> buf <> []) ->
    exists out, rechunk_loop text mn mx i cs buf = Ok out /\ I [] out.
Proof.
  intros Hmx HJrange Happend Hback Hfwd Hinit Hstep Hdone.
  induction cs as [cs IH] using list_length_ind. intros i buf HI Hbuf.
  destruct cs as [|cur rest]; [exists buf; now split|].
  cbn [rechunk_loop].
  destruct (_ && _) eqn:Erange.
  { apply andb_true_iff in Erange. destruct Erange as [E1 E2].
    rewrite Z.geb_leb in E1. apply Z.leb_le in E1, E2.
    apply IH; [simpl; lia | apply Happend; [assumption | lia]
               | discriminate]. }
  destruct (length cur <? mn) eqn:Eshort.
  - apply Z.ltb_lt in Eshort. unfold backward_merge.
    assert (Hforward :
              exists out,
                match rest with
                | [] =>
                  rechunk_loop text mn mx (i + 1) rest
                    (aml_buffer_append buf cur)
                | next :: rest' =>
                  if szsub (szadd (start_offset next) (length next))
                           (start_offset cur) <=? mx
                  then
                    rechunk_loop text mn mx (i + 1 + 1) rest'
                      (aml_buffer_append buf
                         (mk_chunk (start_offset cur)
                            (szsub (szadd (start_offset next) (length next))
                                   (start_offset cur))))
                  else
                    rechunk_loop text mn mx (i + 1) rest
                      (aml_buffer_append buf cur)
                end = Ok out /\ I [] out).
    { destruct rest as [|next rest'].
      - apply IH; [simpl; lia | apply Happend; [assumption | lia]
                   | discriminate].
      - destruct (szsub (szadd (start_offset next) (length next))
                        (start_offset cur) <=? mx) eqn:Efit.
        + apply Z.leb_le in Efit.
          apply IH; [simpl; lia | now apply Hfwd | discriminate].
        + apply IH; [simpl; lia | apply Happend; [assumption | lia]
                     | discriminate]. }
    destruct (0 <? i) eqn:Ei; [|exact Hforward].
    apply Z.ltb_lt in Ei. destruct buf as [|last before];
      [now elim (Hbuf Ei)|].
    destruct (szsub (szadd (start_offset cur) (length cur))
                    (start_offset last) <=? mx) eqn:Efit; [|exact Hforward].
    apply Z.leb_le in Efit.
    apply IH; [simpl; lia | now apply Hback | discriminate].
  - apply Z.ltb_ge in Eshort.
    assert (Hlong : mx < length cur).
    { apply andb_false_iff in Erange. destruct Erange as [E|E].
      - rewrite Z.geb_leb in E. apply Z.leb_gt in E. lia.
      - apply Z.leb_gt in E. lia. }
    destruct (split_loop_rule text mn mx (J rest) Hmx (HJrange rest)
                (Hstep rest) (Z.to_nat (length cur)) cur buf
                (Hinit _ _ _ HI Hlong) (le_n _))
      as (r' & buf' & -> & HJ).
    apply IH; [simpl; lia | now apply Hdone | discriminate].
Qed.

Lemma backward_combined L cs0 cur rest last before :
  L < SIZE_MOD ->
  rechunk_inv L cs0 (cur :: rest) (last :: before) ->
  szsub (szadd (start_offset cur) (length cur)) (start_offset last)
  = chunk_end cur - start_offset last
  /\ chunk_in L cur /\ chunk_in L last
  /\ chunk_end last <= start_offset cur /\ In cur cs0.
Proof.
  intros HL (Hwf & Hbuf & Hincl & (f & Hf1 & Hf2) & _).
  destruct (well_formed_inv _ _ _ Hwf) as (Hcur & _ & _).
  destruct (buffer_ok_inv _ _ _ Hbuf) as (Hlast & _ & _).
  rewrite (szadd_chunk_end L cur HL Hcur).
  pose proof (Hf1 last (or_introl eq_refl)) as Hlf.
  pose proof (Hf2 cur (or_introl eq_refl)) as Hfc.
  assert (Hcur' := Hcur). destruct Hcur' as (Hcs & Hcl & Hce).
  assert (Hlast' := Hlast). destruct Hlast' as (Hls & Hll & Hle).
  unfold szsub. rewrite wrap_small by (unfold chunk_end in *; lia).
  repeat split; try assumption; try lia. apply Hincl. now left.
Qed.

Lemma forward_combined L cs0 cur next rest buf :
  L < SIZE_MOD ->
  rechunk_inv L cs0 (cur :: next :: rest) buf ->
  szsub (szadd (start_offset next) (length next)) (start_offset cur)
  = chunk_end next - start_offset cur
  /\ chunk_in L cur /\ chunk_in L next
  /\ chunk_end cur <= start_offset next.
Proof.
  intros HL (Hwf & _).
  destruct (well_formed_inv _ _ _ Hwf) as (Hcur & Hwf' & Hprec).
  destruct (well_formed_inv _ _ _ Hwf') as (Hnext & _ & _).
  rewrite (szadd_chunk_end L next HL Hnext).
  pose proof (Hprec next (or_introl eq_refl)) as [Hcn1 Hcn2].
  assert (Hcur' := Hcur). destruct Hcur' as (Hcs & Hcl & Hce).
  assert (Hnext' := Hnext). destruct Hnext' as (Hns & Hnl & Hne).
  unfold szsub. rewrite wrap_small by (unfold chunk_end in *; lia).
  repeat split; try assumption; lia.
Qed.

Section Guarded.
Variable text : list Z.
Variable L : Z.
Variable cs0 : list a_sentence_chunk_t.
Variables mn mx : Z.
Hypothesis HL : L < SIZE_MOD.
Hypothesis Hmx : 0 <= mx.

Lemma merges_respect_max :
  well_formed L cs0 ->
  exists out,
    rechunk_loop text mn mx 0 cs0 [] = Ok out
    /\ Forall (fun c => length c <= mx \/ within_oversize cs0 mx c) out.
Proof.
  intros Hwf.
  destruct (rechunk_loop_guarded_rule text mn mx
              (fun cs buf =>
                 rechunk_inv L cs0 cs buf
                 /\ Forall (fun c => length c <= mx
                                     \/ within_oversize cs0 mx c) buf)
              (fun rest r buf =>
                 rechunk_split_inv L cs0 rest r buf
                 /\ Forall (fun c => length c <= mx
                                     \/ within_oversize cs0 mx c) buf
                 /\ within_oversize cs0 mx r) Hmx)
    with (cs := cs0) (i := 0) (buf := @nil a_sentence_chunk_t)
    as (out & Heq & _ & Hout).
  - intros rest r buf ((_ & _ & _ & (Hs & Hl & _) & _) & _). lia.
  - intros cur rest buf [Hinv Hbuf] _. split; [now apply inv_append|].
    constructor; [|assumption].
    destruct (Z_le_gt_dec (length cur) mx) as [|Hgt]; [now left | right].
    exists cur. destruct Hinv as (_ & _ & Hincl & _).
    repeat split; try lia. apply Hincl. now left.
  - intros cur rest last before [Hinv Hbuf] _ Hfit.
    split; [now apply inv_backward|].
    inversion Hbuf; subst. constructor; [now left | assumption].
  - intros cur next rest buf [Hinv Hbuf] _ Hfit.
    split; [now apply inv_forward|]. constructor; [now left | assumption].
  - intros cur rest buf [Hinv Hbuf] Hlong.
    split; [now apply inv_init|]. split; [assumption|].
    exists cur. destruct Hinv as (_ & _ & Hincl & _).
    repeat split; try lia. apply Hincl. now left.
  - intros rest r buf split_pt (Hinv & Hbuf & (a & Ha & Hla & Hsa & Hea))
      Hsplit Hle _.
    split; [now apply inv_split|]. unfold chunk_end in *. split.
    + constructor; [|assumption]. right. exists a. unfold chunk_end.
      simpl. repeat split; try assumption; lia.
    + exists a. unfold chunk_end. simpl. repeat split; try assumption; lia.
  - intros rest r buf (Hinv & Hbuf & Hr). split; [now apply inv_done|].
    constructor; [now right | assumption].
  - split; [|constructor]. unfold rechunk_inv.
    repeat match goal with |- _ /\ _ => split end; try assumption.
    + split; constructor.
    + apply incl_refl.
    + exists 0. split; [intros b []|].
      intros c Hc. destruct Hwf as [Hall _].
      rewrite Forall_forall in Hall. apply Hall in Hc. apply Hc.
    + intros k Hk. now right.
    + constructor.
  - lia.
  - now exists out.
Qed.

Lemma token_survives c :
  well_formed L cs0 -> In c cs0 -> mx < length c -> one_token text c ->
  exists out, rechunk_loop text mn mx 0 cs0 [] = Ok out /\ In c out.
Proof.
  intros Hwf Hc Hlong Htoken.
  destruct (rechunk_loop_guarded_rule text mn mx
              (fun cs buf =>
                 rechunk_inv L cs0 cs buf /\ (In c cs \/ In c buf))
              (fun rest r buf =>
                 rechunk_split_inv L cs0 rest r buf
                 /\ (In c rest \/ In c buf \/ r = c)) Hmx)
    with (cs := cs0) (i := 0) (buf := @nil a_sentence_chunk_t)
    as (out & Heq & _ & [[] | Hout]).
  - intros rest r buf ((_ & _ & _ & (Hs & Hl & _) & _) & _). lia.
  - intros cur rest buf [Hinv Hin] _. split; [now apply inv_append|].
    destruct Hin as [[<- | Hin] | Hin]; [right; now left | now left |].
    right; now right.
  - intros cur rest last before [Hinv Hin] _ Hfit.
    split; [now apply inv_backward|].
    destruct (backward_combined L cs0 cur rest last before HL Hinv)
      as (Hcomb & Hcur & Hlast & Hord & _).
    rewrite Hcomb in Hfit. unfold chunk_in, chunk_end in *.
    destruct Hin as [[<- | Hin] | [<- | Hin]]; try lia;
      [now left | right; now right].
  - intros cur next rest buf [Hinv Hin] _ Hfit.
    split; [now apply inv_forward|].
    destruct (forward_combined L cs0 cur next rest buf HL Hinv)
      as (Hcomb & Hcur & Hnext & Hord).
    rewrite Hcomb in Hfit. unfold chunk_in, chunk_end in *.
    destruct Hin as [[<- | [<- | Hin]] | Hin]; try lia;
      [now left | right; now right].
  - intros cur rest buf [Hinv Hin] _. split; [now apply inv_init|].
    destruct Hin as [[<- | Hin] | Hin]; auto.
  - intros rest r buf split_pt (Hinv & Hin) Hsplit Hle Hws.
    split; [now apply inv_split|].
    destruct Hin as [Hin | [Hin | ->]]; [now left | right; left; now right|].
    rewrite (Htoken split_pt) in Hws by (unfold chunk_end; lia).
    discriminate.
  - intros rest r buf (Hinv & Hin). split; [now apply inv_done|].
    destruct Hin as [Hin | [Hin | ->]];
      [now left | right; now right | right; now left].
  - split; [|now left]. unfold rechunk_inv.
    repeat match goal with |- _ /\ _ => split end; try assumption.
    + split; constructor.
    + apply incl_refl.
    + exists 0. split; [intros b []|].
      intros x Hx. destruct Hwf as [Hall _].
      rewrite Forall_forall in Hall. apply Hall in Hx. apply Hx.
    + intros k Hk. now right.
    + constructor.
  - lia.
  - now exists out.
Qed.
End Guarded.

(** X18.  Merging never makes a chunk too long: every chunk that pass 2
    returns for a well-formed input and that is longer than [max_length]
    lies inside an input chunk that was already longer than [max_length]
    (it is that chunk or a piece of it). *)
Theorem rechunk_merges_respect_max text L cs mn mx :
  L < SIZE_MOD -> in_size_t mn -> in_size_t mx -> well_formed L cs ->
  exists out,
    a_rechunk_sentences text cs mn mx = Ok out
    /\ forall c, In c out -> mx < length c -> within_oversize cs mx c.
Proof.
  intros HL _ [Hmx _] Hwf.
  destruct (merges_respect_max text L cs mn mx HL Hmx Hwf)
    as (buf & Heq & Hbuf).
  unfold a_rechunk_sentences. rewrite Heq. exists (aml_buffer_data buf).
  split; [reflexivity|]. intros c Hc Hlong.
  unfold aml_buffer_data in Hc. apply in_rev in Hc.
  rewrite Forall_forall in Hbuf. destruct (Hbuf c Hc); [lia | assumption].
Qed.

Lemma rechunk_merges_respect_max_witness :
  exists out,
    a_rechunk_sentences (bytes_of_string "Hi. Yo. It works fine now, yes.")
      [mk_chunk 0 3; mk_chunk 4 3; mk_chunk 8 23] 5 20 = Ok out
    /\ forall c, In c out -> 20 < length c ->
                 within_oversize [mk_chunk 0 3; mk_chunk 4 3; mk_chunk 8 23]
                   20 c.
Proof.
  apply (rechunk_merges_respect_max
           (bytes_of_string "Hi. Yo. It works fine now, yes.") 31
           [mk_chunk 0 3; mk_chunk 4 3; mk_chunk 8 23] 5 20).
  - vm_compute. reflexivity.
  - split; vm_compute; congruence.
  - split; vm_compute; congruence.
  - split; repeat constructor; unfold chunk_end; simpl; lia.
Defined.

(** X19.  Pass 2 never cuts a token: an input chunk that is longer than
    [max_length] and has no whitespace byte after its first byte is
    returned unchanged, whatever precedes and follows it. *)
Theorem rechunk_keeps_long_token text L cs mn mx c :
  L < SIZE_MOD -> in_size_t mn -> in_size_t mx -> well_formed L cs ->
  In c cs -> mx < length c -> one_token text c ->
  exists out, a_rechunk_sentences text cs mn mx = Ok out /\ In c out.
Proof.
  intros HL _ [Hmx _] Hwf Hc Hlong Htoken.
  destruct (token_survives text L cs mn mx HL Hmx c Hwf Hc Hlong Htoken)
    as (buf & Heq & Hbuf).
  unfold a_rechunk_sentences. rewrite Heq. exists (aml_buffer_data buf).
  split; [reflexivity|]. unfold aml_buffer_data. now apply in_rev in Hbuf.
Qed.

Lemma rechunk_keeps_long_token_witness :
  exists out,
    a_rechunk_sentences (bytes_of_string "Go. abcdefghijklmnopqrstuvwxyz")
      [mk_chunk 0 3; mk_chunk 4 26] 5 20 = Ok out
    /\ In (mk_chunk 4 26) out.
Proof.
  apply (rechunk_keeps_long_token
           (bytes_of_string "Go. abcdefghijklmnopqrstuvwxyz") 30
           [mk_chunk 0 3; mk_chunk 4 26] 5 20 (mk_chunk 4 26)).
  - vm_compute. reflexivity.
  - split; vm_compute; congruence.
  - split; vm_compute; congruence.
  - split; repeat constructor; unfold chunk_end; simpl; lia.
  - right. now left.
  - simpl. lia.
  - intros k Hk. unfold chunk_end in Hk. simpl in Hk.
    assert (Hn : exists n, (n < 25)%nat /\ k = 5 + Z.of_nat n)
      by (exists (Z.to_nat (k - 5)); lia).
    destruct Hn as (n & Hn & ->).
    do 25 (destruct n as [|n]; [vm_compute; reflexivity|]). lia.
Defined.

Lemma char_at_below_strlen text k :
  0 <= k < strlen text -> char_at text k <> 0.
Proof.
  revert k. induction text as [|c rest IH]; intros k Hk; cbn [strlen] in Hk;
    [lia|].
  destruct (c =? 0) eqn:Ec; [lia|]. apply Z.eqb_neq in Ec.
  destruct (Z.eq_dec k 0) as [->|Hne]; [exact Ec|].
  specialize (IH (k - 1) ltac:(lia)). unfold char_at in *.
  replace (k <? 0) with false by (symmetry; apply Z.ltb_ge; lia).
  replace (k - 1 <? 0) with false in IH by (symmetry; apply Z.ltb_ge; lia).
  replace (Z.to_nat k) with (S (Z.to_nat (k - 1))) by lia. exact IH.
Qed.

Lemma chunk_pipeline_spec text mn mx :
  strlen text < SIZE_MOD -> 0 <= mx ->
  exists out,
    chunk_pipeline text mn mx = Ok out
    /\ well_formed (strlen text) out
    /\ forall k, 0 <= k < strlen text ->
                 is_whitespace (char_at text k) = false -> covered k out.
Proof.
  intros HL Hmx. unfold chunk_pipeline.
  destruct (a_sentence_chunker_spec text HL) as (cs & Heq & Hwf & _).
  destruct (a_sentence_chunker_covers text HL) as (cs' & Heq' & Hcov).
  rewrite Heq in Heq'. injection Heq' as <-. rewrite Heq.
  destruct (rechunk_spec text (strlen text) cs HL mn mx Hmx Hwf)
    as (out & Hout & Hwfo & Hcovo & _).
  exists out. split; [assumption|]. split; [assumption|].
  intros k Hk Hws. now apply Hcovo, Hcov.
Qed.

(** X20.  The two passes chained, as the callers run them: for every text
    they return, the result is well formed (chunks of positive length
    within the text, increasing and non-overlapping), and every byte of the
    text that is not whitespace lies in exactly one chunk. *)
Theorem chunk_pipeline_partitions_text text mn mx :
  strlen text < SIZE_MOD -> in_size_t mn -> in_size_t mx ->
  exists out,
    chunk_pipeline text mn mx = Ok out
    /\ well_formed (strlen text) out
    /\ forall k, 0 <= k < strlen text ->
                 is_whitespace (char_at text k) = false ->
                 cover_count k out = 1%nat.
Proof.
  intros HL _ [Hmx _].
  destruct (chunk_pipeline_spec text mn mx HL Hmx) as (out & Heq & Hwf & Hcov).
  exists out. split; [assumption|]. split; [assumption|].
  intros k Hk Hws. pose proof (cover_count_sorted k out (proj2 Hwf)) as Hle.
  specialize (Hcov k Hk Hws). apply cover_count_pos in Hcov. lia.
Qed.

Lemma chunk_pipeline_partitions_text_witness :
  let text := bytes_of_string "Hi. Yo. It works fine now, yes." in
  exists out,
    chunk_pipeline text 5 20 = Ok out
    /\ well_formed (strlen text) out
    /\ forall k, 0 <= k < strlen text ->
                 is_whitespace (char_at text k) = false ->
                 cover_count k out = 1%nat.
Proof.
  apply (chunk_pipeline_partitions_text
           (bytes_of_string "Hi. Yo. It works fine now, yes.") 5 20).
  - vm_compute. reflexivity.
  - split; vm_compute; congruence.
  - split; vm_compute; congruence.
Defined.

(* ------------------------------------------------------------------ *)
(** ** The callers *)

Lemma print_with_escaped_newlines_no_newline str :
  count_occ Z.eq_dec (print_with_escaped_newlines str) 10 = 0%nat.
Proof.
  induction str as [|c rest IH]; [reflexivity|].
  cbn [print_with_escaped_newlines].
  destruct (c =? 0); [reflexivity|].
  destruct (c =? 10) eqn:E.
  - cbn [count_occ].
    destruct (Z.eq_dec 92 10); [discriminate|].
    destruct (Z.eq_dec 110 10); [discriminate|]. exact IH.
  - apply Z.eqb_neq in E. cbn [count_occ].
    destruct (Z.eq_dec c 10); [contradiction | exact IH].
Qed.

Lemma printed_lines_count (f : a_sentence_chunk_t -> list Z) chunks :
  count_occ Z.eq_dec
    (List.concat
       (map (fun c => print_with_escaped_newlines (f c) ++ [10]) chunks)) 10
  = List.length chunks.
Proof.
  induction chunks as [|c chunks IH]; [reflexivity|].
  cbn [map List.concat List.length]. rewrite !count_occ_app, IH.
  rewrite print_with_escaped_newlines_no_newline. reflexivity.
Qed.

(** X21.  The bounds check of the callers is never needed for what the
    pipeline returns: for a text of length at most [source_len], the
    sentence copied for a chunk is the whole chunk, it is not empty and it
    holds no NUL byte (so that [strcmp] and [printf] see all of it). *)
Theorem callers_copy_whole_chunks text mn mx source_len :
  strlen text < SIZE_MOD -> in_size_t mn -> in_size_t mx ->
  strlen text <= source_len ->
  exists out,
    chunk_pipeline text mn mx = Ok out
    /\ forall c,
        In c out ->
        actual_sentence text source_len c = chunk_text text c
        /\ (0 < List.length (actual_sentence text source_len c))%nat
        /\ count_occ Z.eq_dec (actual_sentence text source_len c) 0 = 0%nat.
Proof.
  intros HL _ [Hmx _] Hlen.
  destruct (chunk_pipeline_spec text mn mx HL Hmx) as (out & Heq & Hwf & _).
  exists out. split; [assumption|]. intros c Hc.
  destruct Hwf as [Hall _]. rewrite Forall_forall in Hall.
  destruct (Hall c Hc) as (Hs & Hl & He). unfold chunk_end in He.
  assert (E : actual_sentence text source_len c = chunk_text text c).
  { unfold actual_sentence, chunk_text, clamp_length, szadd.
    rewrite wrap_small by lia.
    replace (start_offset c + length c >? source_len) with false
      by (symmetry; rewrite Z.gtb_ltb; apply Z.ltb_ge; lia).
    reflexivity. }
  rewrite E. split; [reflexivity|]. unfold chunk_text, slice.
  rewrite length_map, length_seq. split; [lia|].
  apply count_occ_not_In. intros Hin. apply in_map_iff in Hin.
  destruct Hin as (n & Hn & Hrange). apply in_seq in Hrange.
  apply (char_at_below_strlen text (start_offset c + Z.of_nat n)); [lia|].
  exact Hn.
Qed.

Lemma callers_copy_whole_chunks_witness :
  let text := bytes_of_string "Hi. Yo. It works fine now, yes." in
  exists out,
    chunk_pipeline text 5 200 = Ok out
    /\ forall c,
        In c out ->
        actual_sentence text 31 c = chunk_text text c
        /\ (0 < List.length (actual_sentence text 31 c))%nat
        /\ count_occ Z.eq_dec (actual_sentence text 31 c) 0 = 0%nat.
Proof.
  apply (callers_copy_whole_chunks
           (bytes_of_string "Hi. Yo. It works fine now, yes.") 5 200 31).
  - vm_compute. reflexivity.
  - split; vm_compute; congruence.
  - split; vm_compute; congruence.
  - vm_compute. congruence.
Defined.

(** X22.  [process_non_json_file] prints one line per sentence: its output
    holds exactly as many newline bytes as the pipeline returns chunks, a
    newline inside a sentence being written as a backslash and an n. *)
Theorem process_non_json_file_one_line_per_sentence content len :
  strlen content < SIZE_MOD ->
  exists chunks printed,
    chunk_pipeline content 5 250 = Ok chunks
    /\ process_non_json_file content len = Ok printed
    /\ count_occ Z.eq_dec printed 10 = List.length chunks.
Proof.
  intros HL.
  destruct (chunk_pipeline_spec content 5 250 HL ltac:(lia))
    as (chunks & Heq & _).
  unfold process_non_json_file. rewrite Heq.
  eexists. eexists. split; [reflexivity|]. split; [reflexivity|].
  apply printed_lines_count.
Qed.

Lemma process_non_json_file_one_line_per_sentence_witness :
  let content := bytes_of_string "One." ++ [10] ++ bytes_of_string "Two." in
  exists chunks printed,
    chunk_pipeline content 5 250 = Ok chunks
    /\ process_non_json_file content 9 = Ok printed
    /\ count_occ Z.eq_dec printed 10 = List.length chunks.
Proof.
  apply (process_non_json_file_one_line_per_sentence
           (bytes_of_string "One." ++ [10] ++ bytes_of_string "Two.") 9).
  vm_compute. reflexivity.
Defined.

Example process_non_json_file_merged_line :
  process_non_json_file
    (bytes_of_string "One." ++ [10] ++ bytes_of_string "Two.") 9
  = Ok (bytes_of_string "One." ++ [92; 110] ++ bytes_of_string "Two."
        ++ [10]).
Proof. vm_compute. reflexivity. Qed.

(* ------------------------------------------------------------------ *)
(** * The coverage of pass 2 *)

Lemma covered_in k c cs :
  In c cs -> start_offset c <= k < chunk_end c -> covered k cs.
Proof. intros Hc Hk. exists c. split; [assumption | now apply covers_iff]. Qed.

Lemma bridged_extend cs0 mn mx c c' k :
  bridged cs0 mn mx c k ->
  start_offset c' = start_offset c -> chunk_end c <= chunk_end c' ->
  length c' <= mx ->
  bridged cs0 mn mx c' k.
Proof.
  intros (l1 & a & b & l2 & Hcs & Hk & Hshort & _ & Hs & He) Hs' He' Hl'.
  exists l1, a, b, l2. repeat split; try assumption; lia.
Qed.

Lemma explained_within cs0 mn mx a c :
  In a cs0 -> start_offset a <= start_offset c -> chunk_end c <= chunk_end a ->
  explained cs0 mn mx c.
Proof.
  intros Ha Hs He k Hk. apply covers_iff in Hk. left.
  apply (covered_in k a); [assumption | lia].
Qed.

Section Coverage.
Variable text : list Z.
Variable L : Z.
Variable cs0 : list a_sentence_chunk_t.
Variables mn mx : Z.
Hypothesis HL : L < SIZE_MOD.
Hypothesis Hmx : 0 <= mx.

Lemma coverage_append cur rest buf :
  coverage_inv L cs0 mn mx (cur :: rest) buf ->
  coverage_inv L cs0 mn mx rest (cur :: buf).
Proof.
  intros (Hinv & (rdone & Hcs & Hho) & Hex).
  split; [now apply inv_append|]. split.
  - exists (cur :: rdone). split; [|reflexivity].
    simpl. rewrite <- app_assoc. exact Hcs.
  - constructor; [|assumption].
    apply (explained_within cs0 mn mx cur); try lia.
    rewrite Hcs. apply in_or_app. right. now left.
Qed.

Lemma coverage_backward cur rest last before :
  coverage_inv L cs0 mn mx (cur :: rest) (last :: before) ->
  length cur < mn ->
  szsub (szadd (start_offset cur) (length cur)) (start_offset last) <= mx ->
  coverage_inv L cs0 mn mx rest
    (mk_chunk (start_offset last)
       (szsub (szadd (start_offset cur) (length cur)) (start_offset last))
     :: before).
Proof.
  intros (Hinv & (rdone & Hcs & Hho) & Hex) Hshort Hfit.
  split; [now apply inv_backward|].
  destruct (backward_combined L cs0 cur rest last before HL Hinv)
    as (Hcomb & Hcur & Hlast & Hord & Hin).
  rewrite Hcomb in *.
  destruct rdone as [|p rd]; [contradiction|]. simpl in Hho.
  inversion Hex as [|x xs Hexl Hexb]; subst x xs.
  destruct Hcur as (Hcs1 & Hcl & Hce). destruct Hlast as (Hls & Hll & Hle).
  split.
  - exists (cur :: p :: rd). split.
    + simpl. simpl in Hcs. rewrite <- !app_assoc in *. exact Hcs.
    + unfold handed_over, chunk_end. simpl. lia.
  - constructor; [|assumption]. intros k Hk. apply covers_iff in Hk.
    unfold chunk_end in Hk. simpl in Hk.
    destruct (Z_lt_ge_dec k (chunk_end last)) as [Hlt|Hge].
    + destruct (Hexl k) as [Hc|Hb]; [apply covers_iff; lia | now left |].
      right. apply (bridged_extend cs0 mn mx last); try assumption;
        unfold chunk_end in *; simpl; try reflexivity; lia.
    + destruct (Z_lt_ge_dec k (start_offset cur)) as [Hgap|Hcov].
      * right. exists (rev rd), p, cur, rest.
        unfold chunk_end in *. simpl.
        repeat split; try lia.
        simpl in Hcs. rewrite <- app_assoc in Hcs. exact Hcs.
      * left. apply (covered_in k cur); [assumption|].
        unfold chunk_end in *. lia.
Qed.

Lemma coverage_forward cur next rest buf :
  coverage_inv L cs0 mn mx (cur :: next :: rest) buf ->
  length cur < mn ->
  szsub (szadd (start_offset next) (length next)) (start_offset cur) <= mx ->
  coverage_inv L cs0 mn mx rest
    (mk_chunk (start_offset cur)
       (szsub (szadd (start_offset next) (length next)) (start_offset cur))
     :: buf).
Proof.
  intros (Hinv & (rdone & Hcs & Hho) & Hex) Hshort Hfit.
  split; [now apply inv_forward|].
  destruct (forward_combined L cs0 cur next rest buf HL Hinv)
    as (Hcomb & Hcur & Hnext & Hord).
  rewrite Hcomb in *.
  destruct Hcur as (Hcs1 & Hcl & Hce). destruct Hnext as (Hns & Hnl & Hne).
  split.
  - exists (next :: cur :: rdone). split.
    + simpl. rewrite <- !app_assoc. exact Hcs.
    + unfold handed_over, chunk_end. simpl. lia.
  - constructor; [|assumption]. intros k Hk. apply covers_iff in Hk.
    unfold chunk_end in Hk. simpl in Hk.
    destruct (Z_lt_ge_dec k (chunk_end cur)) as [Hlt|Hge].
    + left. apply (covered_in k cur); [|lia].
      rewrite Hcs. apply in_or_app. right. now left.
    + destruct (Z_lt_ge_dec k (start_offset next)) as [Hgap|Hcov].
      * right. exists (rev rdone), cur, next, rest.
        unfold chunk_end in *. simpl. repeat split; try lia. exact Hcs.
      * left. apply (covered_in k next); [|unfold chunk_end in *; lia].
        rewrite Hcs. apply in_or_app. right. right. now left.
Qed.

Lemma coverage_init cur rest buf :
  coverage_inv L cs0 mn mx (cur :: rest) buf ->
  coverage_split_inv L cs0 mn mx rest cur buf.
Proof.
  intros (Hinv & (rdone & Hcs & Hho) & Hex).
  split; [now apply inv_init|]. split; [|assumption].
  exists rdone, cur. repeat split; try assumption; lia.
Qed.

Lemma coverage_split rest r buf split_pt :
  coverage_split_inv L cs0 mn mx rest r buf ->
  start_offset r < split_pt < szadd (start_offset r) (length r) ->
  coverage_split_inv L cs0 mn mx rest
    (mk_chunk split_pt (szadd (start_offset r) (length r) - split_pt))
    (mk_chunk (start_offset r) (split_pt - start_offset r) :: buf).
Proof.
  intros (Hinv & (rdone & cur & Hcs & Hend & Hstart) & Hex) Hsplit.
  split; [now apply inv_split|].
  assert (Hr : chunk_in L r) by apply Hinv.
  rewrite (szadd_chunk_end L r HL Hr) in *.
  split.
  - exists rdone, cur. unfold chunk_end in *. simpl.
    repeat split; try assumption; lia.
  - constructor; [|assumption].
    apply (explained_within cs0 mn mx cur);
      [|simpl; lia | unfold chunk_end in *; simpl; lia].
    rewrite Hcs. apply in_or_app. right. now left.
Qed.

Lemma coverage_done rest r buf :
  coverage_split_inv L cs0 mn mx rest r buf ->
  coverage_inv L cs0 mn mx rest (r :: buf).
Proof.
  intros (Hinv & (rdone & cur & Hcs & Hend & Hstart) & Hex).
  split; [now apply inv_done|]. split.
  - exists (cur :: rdone). split; [|exact Hend].
    simpl. rewrite <- app_assoc. exact Hcs.
  - constructor; [|assumption].
    apply (explained_within cs0 mn mx cur); try lia.
    rewrite Hcs. apply in_or_app. right. now left.
Qed.

Lemma rechunk_explained :
  well_formed L cs0 ->
  exists out,
    a_rechunk_sentences text cs0 mn mx = Ok out
    /\ Forall (explained cs0 mn mx) out.
Proof.
  intros Hwf.
  destruct (rechunk_loop_guarded_rule text mn mx
              (coverage_inv L cs0 mn mx) (coverage_split_inv L cs0 mn mx) Hmx)
    with (cs := cs0) (i := 0) (buf := @nil a_sentence_chunk_t)
    as (out & Heq & _ & _ & Hout).
  - intros rest r buf ((_ & _ & _ & (Hs & Hl & _) & _) & _). lia.
  - intros cur rest buf Hinv _. now apply coverage_append.
  - exact coverage_backward.
  - exact coverage_forward.
  - intros cur rest buf Hinv _. now apply coverage_init.
  - intros rest r buf split_pt Hinv Hsplit _ _. now apply coverage_split.
  - exact coverage_done.
  - split; [|split; [exists []; now split | constructor]].
    unfold rechunk_inv.
    repeat match goal with |- _ /\ _ => split end; try assumption.
    + split; constructor.
    + apply incl_refl.
    + exists 0. split; [intros b []|].
      intros c Hc. destruct Hwf as [Hall _].
      rewrite Forall_forall in Hall. apply Hall in Hc. apply Hc.
    + intros k Hk. now right.
    + constructor.
  - lia.
  - unfold a_rechunk_sentences. rewrite Heq. exists (aml_buffer_data out).
    split; [reflexivity|]. unfold aml_buffer_data. now apply Forall_rev.
Qed.
End Coverage.

(** C1 (amended).  For a well-formed pass-1 chunk sequence over a text of
    length [L], pass 2 returns a sequence in which no byte index loses
    coverage and every index is covered at most once.  An index gains
    coverage only in the gap between two consecutive input chunks of which
    one is shorter than [min_length], and the output chunk that covers it
    there is a merged chunk: it has at most [max_length] bytes, starts
    before the end of the first of the two and reaches the end of the
    second.  So when no input chunk is shorter than [min_length], where
    pass 2 can only split, every index is covered exactly as often as in
    the input. *)
Theorem rechunk_coverage text L cs mn mx :
  L < SIZE_MOD -> in_size_t mn -> in_size_t mx -> well_formed L cs ->
  exists out,
    a_rechunk_sentences text cs mn mx = Ok out
    /\ (forall k,
          (cover_count k cs <= cover_count k out <= 1)%nat
          /\ ((cover_count k cs < cover_count k out)%nat ->
              exists c, In c out /\ covers k c = true
                        /\ bridged cs mn mx c k))
    /\ (Forall (fun c => mn <= length c) cs ->
        forall k, cover_count k out = cover_count k cs).
Proof.
  intros HL _ [Hmx _] Hwf.
  destruct (rechunk_spec text L cs HL mn mx Hmx Hwf)
    as (out & Heq & Hout & Hcov & _).
  destruct (rechunk_explained text L cs mn mx HL Hmx Hwf)
    as (out' & Heq' & Hex).
  rewrite Heq in Heq'. injection Heq' as <-.
  exists out. split; [assumption|].
  assert (Hmain : forall k,
             (cover_count k cs <= cover_count k out <= 1)%nat
             /\ ((cover_count k cs < cover_count k out)%nat ->
                 exists c, In c out /\ covers k c = true
                           /\ bridged cs mn mx c k)).
  { intros k.
    pose proof (cover_count_sorted k cs (proj2 Hwf)) as Hin1.
    pose proof (cover_count_sorted k out (proj2 Hout)) as Hout1.
    pose proof (cover_count_pos k cs) as Hpc.
    pose proof (cover_count_pos k out) as Hpo.
    assert (Hmono : (cover_count k cs <= cover_count k out)%nat).
    { destruct (cover_count k cs) as [|n]; [lia|].
      assert (covered k out) by (apply Hcov, Hpc; lia).
      apply Hpo in H. lia. }
    split; [lia|]. intros Hlt.
    assert (Hnot : ~ covered k cs) by (intros Hc; apply Hpc in Hc; lia).
    assert (Hco : covered k out) by (apply Hpo; lia).
    destruct Hco as (c & Hc & Hkc). exists c.
    split; [assumption|]. split; [assumption|].
    rewrite Forall_forall in Hex.
    destruct (Hex c Hc k Hkc) as [Hin|Hb]; [contradiction | assumption]. }
  split; [exact Hmain|]. intros Hlong k.
  destruct (Hmain k) as [Hle Hgain].
  destruct (Nat.eq_dec (cover_count k out) (cover_count k cs)) as [|Hne];
    [assumption|].
  destruct Hgain as (c & _ & _ & (l1 & a & b & l2 & Hcs & _ & Hshort & _));
    [lia|].
  rewrite Forall_forall in Hlong.
  assert (Ha : mn <= length a).
  { apply Hlong. rewrite Hcs. apply in_or_app. right. now left. }
  assert (Hb : mn <= length b).
  { apply Hlong. rewrite Hcs. apply in_or_app. right. right. now left. }
  lia.
Qed.

Lemma rechunk_coverage_witness :
  exists out,
    a_rechunk_sentences (bytes_of_string "Hi. Yo.")
      [mk_chunk 0 3; mk_chunk 4 3] 5 20 = Ok out
    /\ (forall k,
          (cover_count k [mk_chunk 0 3; mk_chunk 4 3] <= cover_count k out
           <= 1)%nat
          /\ ((cover_count k [mk_chunk 0 3; mk_chunk 4 3]
               < cover_count k out)%nat ->
              exists c, In c out /\ covers k c = true
                        /\ bridged [mk_chunk 0 3; mk_chunk 4 3] 5 20 c k))
    /\ (Forall (fun c => 5 <= length c) [mk_chunk 0 3; mk_chunk 4 3] ->
        forall k, cover_count k out
                  = cover_count k [mk_chunk 0 3; mk_chunk 4 3]).
Proof.
  apply (rechunk_coverage (bytes_of_string "Hi. Yo.") 7
           [mk_chunk 0 3; mk_chunk 4 3] 5 20).
  - vm_compute. reflexivity.
  - unfold in_size_t, SIZE_MOD. lia.
  - unfold in_size_t, SIZE_MOD. lia.
  - split; repeat constructor; unfold chunk_end; simpl; lia.
Defined.
